(** * Graph builders of histocartography: shallow embedding and properties

    The development follows [histocartography/preprocessing/graph_builders.py]:
    the abstract [BaseGraphBuilder] with its [process] / [process_and_save]
    pipeline and the two concrete builders [RAGGraphBuilder] (region
    adjacency from an instance map) and [KNNGraphBuilder] (k nearest
    neighbours of a point set).

    The pipeline is embedded twice.  In the first embedding arrays are
    values and the DGL graph that the code mutates in place is threaded
    explicitly: a method that returns [None] after mutating [graph] becomes a
    function returning the new state of that graph.  In the second one every
    array and graph is an object in a store, and the in-place statements of
    the source are writes to the object they target; it is shown to compute
    the same graphs as the first and carries the frame property of the
    inputs.  Exceptions are values of [exn] carried by the [result] monad.
    Integer arrays hold [Z], unbounded and signed as numpy's default integer
    type is.  Floating point arrays hold exact rationals [Q]: the rounding of
    scikit-learn's [float64] distances and of torch's [float32] tensors is
    not modelled, and the statements about the values of a float tensor or
    about the ranking of the neighbours are kept to what does not depend on
    that rounding (which tensors and edges exist, how many, between which
    nodes, and the zero distance of coincident points).  The artifact of
    [process_and_save] is modelled as the saved graph itself; the order in
    which DGL lists the edges of a graph read back from disk is not
    modelled.

    Two pieces of the experiments are embedded beside it: the earlier
    [RAGGraphBuilder] of [experiments/histo-seg/graph_builders.py] (its
    topology and its label rule), to compare it with the one above, and
    [ConfigGenerator._get_number_classes] of
    [experiments/histo-graph/config_generator.py].

    Calls into numpy, pandas, OpenCV, scikit-image, scikit-learn, torch and
    DGL are modelled by functions named after them, each with the part of the
    library's behaviour that the builders rely on (index normalisation,
    bounds and shape checks, the order of [unique] and [nonzero]). *)

From Stdlib Require Import ZArith QArith Qround Lia String.
From stdpp Require Import base list gmap strings sorting.

#[local] Open Scope string_scope.
#[local] Open Scope Z_scope.

(** ** Exceptions and the result monad *)

Inductive exn : Type :=
| AssertionError (msg : string)
| IndexError
| ValueError
| DGLError
| RuntimeError
| TypeError.

Inductive result (A : Type) : Type :=
| Ok (a : A)
| Raise (e : exn).

Arguments Ok {A} a.
Arguments Raise {A} e.

#[global] Instance result_ret : MRet result := fun A a => Ok a.

#[global] Instance result_bind : MBind result := fun A B f m =>
  match m with
  | Ok a => f a
  | Raise e => Raise e
  end.

Definition is_Ok {A} (m : result A) : Prop := ∃ a, m = Ok a.

(** [for x in xs: body] over a loop state [s]. *)
Fixpoint for_each {A S : Type} (xs : list A) (body : A → S → result S) (s : S)
  : result S :=
  match xs with
  | [] => Ok s
  | x :: rest => s' ← body x s; for_each rest body s'
  end.

(** [[f(x) for x in xs]] where [f] may raise. *)
Fixpoint map_result {A B : Type} (f : A → result B) (xs : list A)
  : result (list B) :=
  match xs with
  | [] => Ok []
  | x :: rest => y ← f x; ys ← map_result f rest; Ok (y :: ys)
  end.

(** Python's [assert cond, msg]. *)
Definition py_assert (cond : bool) (msg : string) : result unit :=
  if cond then Ok tt else Raise (AssertionError msg).

(** A Python number as the constructors receive it: [isinstance(v, int)]
    distinguishes the two. *)
Inductive pynum : Type :=
| PyInt (z : Z)
| PyFloat (q : Q).

(** ** numpy / pandas helpers *)

(** [np.ravel] of a 2-D array stored as a list of rows. *)
Definition np_ravel {A} (a : list (list A)) : list A := concat a.

(** [pd.unique]: distinct values in order of first appearance. *)
Fixpoint pd_unique (l : list Z) : list Z :=
  match l with
  | [] => []
  | x :: rest => x :: List.filter (fun y => negb (y =? x)) (pd_unique rest)
  end.

(** [np.sort] on integers. *)
Definition np_sort (l : list Z) : list Z := merge_sort Z.le l.

(** [np.delete(a, np.where(a == v))]. *)
Definition np_delete_where_eq (l : list Z) (v : Z) : list Z :=
  List.filter (fun y => negb (y =? v)) l.

(** numpy index normalisation along an axis of length [n]: indices in
    [[-n, n)] are valid, negative ones count from the end. *)
Definition np_index (n : nat) (i : Z) : result nat :=
  if decide (0 ≤ i < Z.of_nat n) then Ok (Z.to_nat i)
  else if decide (- Z.of_nat n ≤ i < 0) then Ok (Z.to_nat (i + Z.of_nat n))
  else Raise IndexError.

(** [a == v] for a 2-D array and a scalar. *)
Definition np_eq_scalar (a : list (list Z)) (v : Z) : list (list bool) :=
  map (map (fun x => x =? v)) a.

(** [m.astype(np.uint8)] of a boolean array. *)
Definition astype_uint8 (m : list (list bool)) : list (list Z) :=
  map (map (fun b : bool => if b then 1 else 0)) m.

(** [a.astype(bool)]. *)
Definition astype_bool (a : list (list Z)) : list (list bool) :=
  map (map (fun x => negb (x =? 0))) a.

(** [a - b] on [uint8] arrays (wrap-around at 256). *)
Definition np_sub_uint8 (a b : list (list Z)) : list (list Z) :=
  zip_with (zip_with (fun x y => (x - y) mod 256)) a b.

Definition select_row {A} (row : list A) (m : list bool) : list A :=
  map fst (List.filter snd (zip row m)).

(** The values of [a[m]] in row-major order, for a boolean mask of the same
    shape. *)
Definition mask_select {A} (a : list (list A)) (m : list (list bool)) : list A :=
  concat (zip_with select_row a m).

Definition shape {A} (a : list (list A)) : list nat := map length a.

(** [a[m]] with numpy's check that the boolean index has the shape of [a]. *)
Definition np_bool_index {A} (a : list (list A)) (m : list (list bool))
  : result (list A) :=
  if decide (shape a = shape m) then Ok (mask_select a m) else Raise IndexError.

(** In-bounds pixel read with signed coordinates. *)
Definition pixel (a : list (list Z)) (y x : Z) : option Z :=
  if decide (0 ≤ y ∧ 0 ≤ x) then row ← a !! Z.to_nat y; row !! Z.to_nat x
  else None.

(** ** cv2.dilate with a square kernel of ones

    [dst(y,x)] is the maximum of [src] over the kernel window placed with its
    anchor (the default anchor, the centre [ksize / 2]) on [(y,x)]; pixels
    outside the image do not contribute. *)

Definition kernel_offsets (ksize : nat) : list Z :=
  map (fun d => Z.of_nat d - Z.of_nat (ksize / 2)) (seq 0 ksize).

Definition window (src : list (list Z)) (ksize : nat) (y x : nat) : list Z :=
  dy ← kernel_offsets ksize;
  dx ← kernel_offsets ksize;
  option_list (pixel src (Z.of_nat y + dy) (Z.of_nat x + dx)).

Definition cv2_dilate (src : list (list Z)) (ksize : nat) : list (list Z) :=
  imap (fun y row => imap (fun x _ => foldr Z.max 0 (window src ksize y x)) row) src.

(** [np.ones((ks, ks), np.uint8)] raises on a negative size; an empty kernel
    makes OpenCV fall back to its 3x3 rectangle. *)
Definition np_ones_kernel (ks : Z) : result nat :=
  if decide (ks < 0) then Raise ValueError
  else if decide (ks = 0) then Ok 3%nat
  else Ok (Z.to_nat ks).

(** [np.zeros(shape=(n, m))]. *)
Definition np_zeros2 (n m : nat) : list (list Z) := replicate n (replicate m 0).

(** [a[i, idx] = v] for a scalar row index and an index array of columns. *)
Definition np_set_row_cols (a : list (list Z)) (ncols : nat) (i : Z)
    (idx : list Z) (v : Z) : result (list (list Z)) :=
  r ← np_index (length a) i;
  cs ← map_result (np_index ncols) idx;
  Ok (alter (fun row => foldr (fun c acc => <[c := v]> acc) row cs) r a).

(** [np.nonzero] of a 2-D array: the (row, column) pairs of the non-zero
    entries in row-major order. *)
Definition nonzero_row (i : nat) (row : list Z) : list (nat * nat) :=
  omap (fun jv : nat * Z => if jv.2 =? 0 then None else Some (i, jv.1))
       (imap pair row).

Definition np_nonzero2 (a : list (list Z)) : list (nat * nat) :=
  concat (imap nonzero_row a).

(** [np.argmax] of a 1-D array: the first index holding the maximum. *)
Fixpoint np_argmax_from (best_i : nat) (best : Z) (i : nat) (l : list Z) : nat :=
  match l with
  | [] => best_i
  | x :: rest =>
      if best <? x then np_argmax_from i x (S i) rest
      else np_argmax_from best_i best (S i) rest
  end.

Definition np_argmax (l : list Z) : result nat :=
  match l with
  | [] => Raise ValueError
  | x :: rest => Ok (np_argmax_from 0%nat x 1%nat rest)
  end.

(** [a[i] = v] on a 1-D array. *)
Definition np_set {A} (a : list A) (i : Z) (v : A) : result (list A) :=
  j ← np_index (length a) i;
  Ok (<[j := v]> a).

(** ** Tensors and the DGL graph object

    A [uint8] tensor made by [torch.empty] holds arbitrary bytes until they
    are written: such a cell is [None]. *)

Inductive Tensor : Type :=
| FloatTensor2 (rows : list (list Q))
| FloatTensor1 (vals : list Q)
| ByteTensor (vals : list (option Z)).

(** First dimension of a tensor. *)
Definition shape0 (t : Tensor) : nat :=
  match t with
  | FloatTensor2 rows => length rows
  | FloatTensor1 vals => length vals
  | ByteTensor vals => length vals
  end.

Record DGLGraph : Type := mkGraph {
  number_of_nodes : nat;
  ndata : gmap string Tensor;
  edges : list (nat * nat)
}.

(** [dgl.DGLGraph()] followed by [add_nodes(n)]. *)
Definition DGLGraph_new : DGLGraph := mkGraph 0 ∅ [].

Definition add_nodes (n : nat) (g : DGLGraph) : DGLGraph :=
  mkGraph (number_of_nodes g + n) (ndata g) (edges g).

(** [graph.ndata[key] = val]: DGL rejects a tensor whose first dimension is
    not the number of nodes. *)
Definition ndata_set (key : string) (val : Tensor) (g : DGLGraph)
  : result DGLGraph :=
  if decide (shape0 val = number_of_nodes g)
  then Ok (mkGraph (number_of_nodes g) (<[key := val]> (ndata g)) (edges g))
  else Raise DGLError.

(** How [add_edges(u, v)] pairs its two id lists: a singleton is broadcast,
    otherwise the lengths must agree. *)
Definition dgl_pair_up (us vs : list nat) : result (list (nat * nat)) :=
  match us, vs with
  | [u], _ => Ok (map (pair u) vs)
  | _, [v] => Ok (map (fun u => (u, v)) us)
  | _, _ => if decide (length us = length vs) then Ok (zip us vs)
            else Raise DGLError
  end.

(** [graph.add_edges(u, v)]: every endpoint must be an existing node. *)
Definition add_edges (us vs : list nat) (g : DGLGraph) : result DGLGraph :=
  es ← dgl_pair_up us vs;
  if decide (Forall (fun e : nat * nat =>
                       (e.1 < number_of_nodes g)%nat ∧ (e.2 < number_of_nodes g)%nat) es)
  then Ok (mkGraph (number_of_nodes g) (ndata g) (edges g ++ es))
  else Raise DGLError.

(** Modelled from the spec: the keys of the node data dictionary
    ([.constants.FEATURES], [CENTROID], [LABEL]), one per node attribute
    [feature], [centroid] and [label]. *)
Definition FEATURES : string := "feature".
Definition CENTROID : string := "centroid".
Definition LABEL : string := "label".

(** ** BaseGraphBuilder *)

(** Modelled from the spec: the pipeline step every builder derives from
    ([..pipeline.PipelineStep]) records the optional storage location
    [base_path] given at construction and the directory [output_dir] under
    which artifacts of this step are kept. *)
Record PipelineStep : Type := mkPipelineStep {
  base_path : option string;
  output_dir : string
}.

Record BaseGraphBuilder : Type := mkBase {
  step : PipelineStep;
  nr_classes : Z;
  background_class : Z;
  partial_annotation : option Z
}.

(** [BaseGraphBuilder.__init__]: [partial_annotation] is only stored when it
    is truthy. *)
Definition Base__init__ (nr_classes background_class : Z)
    (partial_annotation : option Z) (kwargs : PipelineStep) : BaseGraphBuilder :=
  mkBase kwargs nr_classes background_class
    (match partial_annotation with
     | Some p => if p =? 0 then None else Some p
     | None => None
     end).

(** The abstract interface: a builder of type [B] works on structures of type
    [S] and annotations of type [A]. *)
Class GraphBuilder (B S A : Type) : Type := {
  base : B → BaseGraphBuilder;
  _set_node_centroids : B → S → DGLGraph → result DGLGraph;
  _set_node_labels : B → S → A → DGLGraph → result DGLGraph;
  _build_topology : B → S → DGLGraph → result DGLGraph
}.

Definition _set_node_features (features : list (list Q)) (graph : DGLGraph)
  : result DGLGraph :=
  ndata_set FEATURES (FloatTensor2 features) graph.

Definition process {B S A} `{GraphBuilder B S A} (self : B) (structure : S)
    (features : list (list Q)) (annotation : option A) : result DGLGraph :=
  let num_nodes := length features in
  let graph := add_nodes num_nodes DGLGraph_new in
  graph ← _set_node_features features graph;
  graph ← _set_node_centroids self structure graph;
  graph ← match annotation with
           | Some annotation => _set_node_labels self structure annotation graph
           | None => Ok graph
           end;
  _build_topology self structure graph.

(** The file system as far as the builders see it: the graphs stored in each
    [.bin] artifact ([load_graphs] / [save_graphs]). *)
Definition output_path_of (dir output_name : string) : string :=
  dir ++ "/" ++ output_name ++ ".bin".

Definition process_and_save {B S A} `{GraphBuilder B S A} (self : B)
    (output_name : string) (structure : S) (features : list (list Q))
    (annotation : option A) (fs : gmap string (list DGLGraph))
  : result (DGLGraph * gmap string (list DGLGraph)) :=
  _ ← py_assert (bool_decide (is_Some (base_path (step (base self)))))
        "Can only save intermediate output if base_path was not None during construction";
  let output_path := output_path_of (output_dir (step (base self))) output_name in
  match fs !! output_path with
  | Some graphs =>
      _ ← py_assert (bool_decide (length graphs = 1%nat)) "";
      match graphs with
      | graph :: _ => Ok (graph, fs)
      | [] => Raise IndexError
      end
  | None =>
      graph ← process self structure features annotation;
      Ok (graph, <[output_path := [graph]]> fs)
  end.

(** ** two_hop_neighborhood *)

(** The number of edges from [u] to [v] in the edge list of a multigraph:
    an edge added twice counts twice. *)
Definition count_edges (es : list (nat * nat)) (u v : nat) : Z :=
  Z.of_nat (length (List.filter (fun e : nat * nat => (e.1 =? u)%nat && (e.2 =? v)%nat) es)).

(** [graph.adjacency_matrix().to_dense()]: DGL puts the destination on the
    rows and the source on the columns, and the entry at row [dst] and
    column [src] is the number of edges from [src] to [dst], parallel edges
    counted (it is not a 0/1 presence flag).  In [A.matmul(A)] the entry at
    row [dst] and column [src] is therefore the number of two-step walks from
    [src] to [dst]. *)
Definition adjacency_matrix (g : DGLGraph) : list (list Z) :=
  let n := number_of_nodes g in
  map (fun dst => map (fun src => count_edges (edges g) src dst) (seq 0 n)) (seq 0 n).

Definition matrix_entry (m : list (list Z)) (i j : nat) : Z :=
  default 0 (row ← m !! i; row !! j).

Definition dot (u v : list Z) : Z := foldr Z.add 0 (zip_with Z.mul u v).

Definition column (m : list (list Z)) (j : nat) : list Z :=
  map (fun row => default 0 (row !! j)) m.

Definition matmul (a b : list (list Z)) : list (list Z) :=
  map (fun row => map (fun j => dot row (column b j)) (seq 0 (length b))) a.

Definition matrix_add (a b : list (list Z)) : list (list Z) :=
  zip_with (zip_with Z.add) a b.

(** [(1.0 * ((A + A.matmul(A)) >= 1)) - torch.eye(n)]. *)
Definition A_tilde_of (A : list (list Z)) : list (list Z) :=
  imap (fun i row =>
          imap (fun j x => (if 1 <=? x then 1 else 0) - (if (i =? j)%nat then 1 else 0)) row)
       (matrix_add A (matmul A A)).

(** [from_numpy_matrix] builds an undirected networkx graph with an edge for
    every non-zero entry, and [from_networkx] turns each of its edges into
    both directions. *)
Definition from_numpy_matrix_edges (m : list (list Z)) : list (nat * nat) :=
  let n := length m in
  List.filter (fun e : nat * nat =>
                 negb (matrix_entry m e.1 e.2 =? 0) || negb (matrix_entry m e.2 e.1 =? 0))
              (u ← seq 0 n; v ← seq 0 n; [(u, v)]).

Definition two_hop_neighborhood (graph : DGLGraph) : DGLGraph :=
  let A := adjacency_matrix graph in
  let A_tilde := A_tilde_of A in
  mkGraph (length A_tilde) (ndata graph) (from_numpy_matrix_edges A_tilde).

(** ** RAGGraphBuilder *)

Record RAGGraphBuilder : Type := mkRAG {
  rag_base : BaseGraphBuilder;
  kernel_size : Z;
  hops : Z
}.

(** [RAGGraphBuilder.__init__(kernel_size, hops, **kwargs)]; the message
    of the assertion is given without the interpolated value. *)
Definition RAG__init__ (kernel_size : Z) (hops : pynum) (nr_classes background_class : Z)
    (partial_annotation : option Z) (kwargs : PipelineStep) : result RAGGraphBuilder :=
  match hops with
  | PyInt h =>
      _ ← py_assert (0 <? h) "Invalid hops. Must be integer >= 0";
      Ok (mkRAG (Base__init__ nr_classes background_class partial_annotation kwargs)
                kernel_size h)
  | PyFloat _ => Raise (AssertionError "Invalid hops. Must be integer >= 0")
  end.

(** Python's [int(round(x))]: round half to even. *)
Definition py_round (q : Q) : Z :=
  let f := Qfloor q in
  match Qcompare (q - inject_Z f) (1 # 2) with
  | Lt => f
  | Gt => f + 1
  | Eq => if Z.even f then f else f + 1
  end.

(** (row, column) positions of the pixels of [im] carrying the value [v]. *)
Definition coords_of (im : list (list Z)) (v : Z) : list (nat * nat) :=
  concat (imap (fun y row =>
                  omap (fun xp : nat * Z => if xp.2 =? v then Some (y, xp.1) else None)
                       (imap pair row)) im).

Definition mean (l : list nat) : Q :=
  Qmake (Z.of_nat (foldr Nat.add 0%nat l)) (Pos.of_nat (length l)).

(** [skimage.measure.regionprops]: one region per positive label present in
    the image, by ascending label, with the centroid (row, column) of its
    pixels. *)
Definition regionprops (im : list (list Z)) : list (Z * (Q * Q)) :=
  map (fun v => let cs := coords_of im v in (v, (mean (map fst cs), mean (map snd cs))))
      (List.filter (fun v => 0 <? v) (np_sort (pd_unique (np_ravel im)))).

Definition RAG_set_node_centroids (instance_map : list (list Z)) (graph : DGLGraph)
  : result DGLGraph :=
  let regions := regionprops instance_map in
  let centroids :=
    map (fun region : Z * (Q * Q) =>
           let '(center_y, center_x) := region.2 in
           [inject_Z (py_round center_x); inject_Z (py_round center_y)]) regions in
  ndata_set CENTROID (FloatTensor2 centroids) graph.

(** [torch.empty(n, dtype=torch.uint8)]. *)
Definition torch_empty (n : nat) : list (option Z) := replicate n None.

(** [t[i] = int(v)] on a [uint8] tensor: the cell takes the value modulo
    256 (a [-1] is stored as [255]); nothing is raised for a value outside
    the range of a byte. *)
Definition torch_set_uint8 (t : list (option Z)) (i : Z) (v : Z)
  : result (list (option Z)) :=
  np_set t i (Some (v mod 256)).

(** Modelled from the spec: [.utils.fast_histogram] is the histogram of the
    given values with one bin per class, bin [i] counting the values equal
    to [i]. *)
Definition fast_histogram (values : list Z) (nr_values : Z) : list Z :=
  map (fun i => Z.of_nat (length (List.filter (fun v => v =? Z.of_nat i) values)))
      (seq 0 (Z.to_nat nr_values)).

Definition np_sum (l : list Z) : Z := foldr Z.add 0 l.

(** The body of the loop of [_set_node_labels] after the histogram has been
    taken: background suppression, then argmax. *)
Definition label_of_histogram (background_class : Z) (histogram : list Z)
  : result Z :=
  mask ← np_set (replicate (length histogram) true) background_class false;
  if np_sum (select_row histogram mask) =? 0 then Ok background_class
  else
    histogram ← np_set histogram background_class 0;
    assignment ← np_argmax histogram;
    Ok (Z.of_nat assignment).

Definition region_assignment (self : BaseGraphBuilder)
    (instance_map annotation : list (list Z)) (region_label : Z) : result Z :=
  pixels ← np_bool_index annotation (np_eq_scalar instance_map region_label);
  let histogram := fast_histogram pixels (nr_classes self) in
  label_of_histogram (background_class self) histogram.

Definition RAG_set_node_labels (self : RAGGraphBuilder)
    (instance_map annotation : list (list Z)) (graph : DGLGraph) : result DGLGraph :=
  _ ← py_assert (nr_classes (rag_base self) <? 256)
        "Cannot handle that many classes with 8 byte representation";
  let region_labels := pd_unique (np_ravel instance_map) in
  let labels := torch_empty (length region_labels) in
  labels ← for_each region_labels (fun region_label labels =>
              assignment ← region_assignment (rag_base self) instance_map annotation
                             region_label;
              torch_set_uint8 labels (region_label - 1) assignment) labels;
  ndata_set LABEL (ByteTensor labels) graph.

(** The ids found under the boundary ring of one instance:
    [pd.unique(instance_map[boundary.astype(bool)])]. *)
Definition ring_ids (instance_map : list (list Z)) (ksize : nat) (instance_id : Z)
  : list Z :=
  let mask := astype_uint8 (np_eq_scalar instance_map instance_id) in
  let dilation := cv2_dilate mask ksize in
  let boundary := np_sub_uint8 dilation mask in
  pd_unique (mask_select instance_map (astype_bool boundary)).

(** The sorted instance ids without the background id 0. *)
Definition instance_ids_of (instance_map : list (list Z)) : list Z :=
  let instance_ids := np_sort (pd_unique (np_ravel instance_map)) in
  if bool_decide (0 ∈ instance_ids) then np_delete_where_eq instance_ids 0
  else instance_ids.

(** The adjacency matrix filled by the loop over the instances. *)
Definition RAG_adjacency (instance_map : list (list Z)) (ksize : nat)
  : result (list (list Z)) :=
  let instance_ids := instance_ids_of instance_map in
  let n := length instance_ids in
  for_each instance_ids (fun instance_id adjacency =>
      let idx := ring_ids instance_map ksize instance_id in
      let instance_id := instance_id - 1 in
      let idx := map (fun i => i - 1) idx in
      np_set_row_cols adjacency n instance_id idx 1) (np_zeros2 n n).

(** [_build_topology] mutates the graph object it is given through
    [add_edges]; the loop over the hops rebinds the local name [graph] to the
    graphs made by [two_hop_neighborhood].  Both are returned here: first the
    final state of the caller's object, then the final value of the local
    name. *)
Definition RAG_build_topology_locals (self : RAGGraphBuilder)
    (instance_map : list (list Z)) (graph : DGLGraph)
  : result (DGLGraph * DGLGraph) :=
  ksize ← np_ones_kernel (kernel_size self);
  adjacency ← RAG_adjacency instance_map ksize;
  let edge_list := np_nonzero2 adjacency in
  graph ← add_edges (map fst edge_list) (map snd edge_list) graph;
  let caller_graph := graph in
  let graph := Nat.iter (Z.to_nat (hops self - 1)) two_hop_neighborhood graph in
  Ok (caller_graph, graph).

(** What the caller of [_build_topology] sees: the method returns [None] and
    the caller keeps its own object. *)
Definition RAG_build_topology (self : RAGGraphBuilder)
    (instance_map : list (list Z)) (graph : DGLGraph) : result DGLGraph :=
  r ← RAG_build_topology_locals self instance_map graph;
  Ok r.1.

#[global] Instance RAG_builder
  : GraphBuilder RAGGraphBuilder (list (list Z)) (list (list Z)) := {
  base := rag_base;
  _set_node_centroids := fun _ => RAG_set_node_centroids;
  _set_node_labels := RAG_set_node_labels;
  _build_topology := RAG_build_topology
}.

(** ** KNNGraphBuilder *)

Record KNNGraphBuilder : Type := mkKNN {
  knn_base : BaseGraphBuilder;
  k : Z;
  thresh : option Q
}.

(** [KNNGraphBuilder.__init__(k, thresh, **kwargs)]. *)
Definition KNN__init__ (k : Z) (thresh : option Q) (nr_classes background_class : Z)
    (partial_annotation : option Z) (kwargs : PipelineStep) : KNNGraphBuilder :=
  mkKNN (Base__init__ nr_classes background_class partial_annotation kwargs) k thresh.

Definition KNN_set_node_centroids (centroids : list (list Q)) (graph : DGLGraph)
  : result DGLGraph :=
  ndata_set CENTROID (FloatTensor2 centroids) graph.

Definition KNN_set_node_labels (self : KNNGraphBuilder) (instance_map : list (list Q))
    (annotation : list Q) (graph : DGLGraph) : result DGLGraph :=
  ndata_set LABEL (FloatTensor1 annotation) graph.

(** Square of the Euclidean distance of two points.  The square root is not
    a rational, so distances are kept squared: a distance is zero exactly
    when its square is, and distances compare as their squares do. *)
Definition sqdist (p q : list Q) : Q :=
  foldr Qplus 0%Q (zip_with (fun a b => ((a - b) * (a - b))%Q) p q).

#[global] Instance Qle_decision (x y : Q) : Decision (x <= y)%Q :=
  match Qlt_le_dec y x with
  | left H => right (Qlt_not_le _ _ H)
  | right H => left H
  end.

Definition nearer (a b : nat * Q) : Prop := (a.2 <= b.2)%Q.

#[global] Instance nearer_decision (a b : nat * Q) : Decision (nearer a b) :=
  Qle_decision a.2 b.2.

(** The other points seen from point [i], each with its squared distance. *)
Definition candidates (X : list (list Q)) (i : nat) (p : list Q) : list (nat * Q) :=
  omap (fun jq : nat * list Q =>
          if (jq.1 =? i)%nat then None else Some (jq.1, sqdist p jq.2))
       (imap pair X).

(** [sklearn.neighbors.kneighbors_graph(X, k, mode="distance",
    include_self=False, metric="euclidean")] as a sparse matrix: row [i]
    stores, for each of the [k] points nearest to point [i] (the point itself
    excluded), its column and its distance, zero distances included.  The
    search needs [k + 1 <= N] samples and a positive [k]. *)
Definition kneighbors_graph (X : list (list Q)) (n_neighbors : Z)
  : result (list (list (nat * Q))) :=
  if decide (n_neighbors ≤ 0) then Raise ValueError
  else if decide (Z.of_nat (length X) < n_neighbors + 1) then Raise ValueError
  else Ok (imap (fun i p => take (Z.to_nat n_neighbors)
                              (merge_sort nearer (candidates X i p))) X).

(** [np.nonzero] of a sparse matrix: the positions of the stored entries
    whose value is not zero. *)
Definition sparse_nonzero (adj : list (list (nat * Q))) : list (nat * nat) :=
  concat (imap (fun i row =>
                  omap (fun e : nat * Q =>
                          if Qeq_bool e.2 0 then None else Some (i, e.1)) row) adj).

(** Modelled from the spec: [..utils.vector.compute_l2_distance] is the
    Euclidean distance; [compute_l2_distance(p, q) < t] is decided on the
    squares. *)
Definition l2_distance_lt (p q : list Q) (t : Q) : bool :=
  negb (Qle_bool t 0) && negb (Qle_bool (t * t) (sqdist p q)).

Definition KNN_build_topology (self : KNNGraphBuilder) (centroids : list (list Q))
    (graph : DGLGraph) : result DGLGraph :=
  adj ← kneighbors_graph centroids (k self);
  let edge_list := sparse_nonzero adj in
  let edge_list :=
    match thresh self with
    | Some t =>
        List.filter (fun x : nat * nat =>
                       l2_distance_lt (default [] (centroids !! x.1))
                                      (default [] (centroids !! x.2)) t) edge_list
    | None => edge_list
    end in
  add_edges (map fst edge_list) (map snd edge_list) graph.

#[global] Instance KNN_builder
  : GraphBuilder KNNGraphBuilder (list (list Q)) (list Q) := {
  base := knn_base;
  _set_node_centroids := fun _ => KNN_set_node_centroids;
  _set_node_labels := KNN_set_node_labels;
  _build_topology := KNN_build_topology
}.

(** Out-degree of a node: the number of edges leaving it. *)
Definition out_degree (g : DGLGraph) (u : nat) : nat :=
  length (List.filter (fun e : nat * nat => (e.1 =? u)%nat) (edges g)).

(** ** The multi-hop matrix of the specification

    These two definitions follow the words of the specification, not the
    code: the 1-hop adjacency as a binary matrix [A], the sum of its powers
    up to the hop count, thresholded at one, the diagonal left out. *)

Fixpoint power_sum (A : list (list Z)) (h : nat) : list (list Z) :=
  match h with
  | O => map (map (fun _ => 0)) A
  | S O => A
  | S h' => matrix_add A (matmul A (power_sum A h'))
  end.

Definition spec_multi_hop_edge (A : list (list Z)) (h : nat) (i j : nat) : Prop :=
  i ≠ j ∧ 1 ≤ matrix_entry (power_sum A h) i j.


(** ** The same pipeline on a store of mutable objects

    The functions above pass arrays around as values.  Python passes
    references: the arrays given to [process] are objects that the callee
    could write to, and the graph keeps references to the tensors attached to
    it.  This section repeats the pipeline over a store of objects, with
    every in-place statement of the source ([a[i] = v], [idx -= 1],
    [graph.ndata[key] = t], [graph.add_edges]) as a write to the object it
    targets.  Arrays that are only read are loaded as values. *)

Definition loc : Type := nat.

Inductive pyobj : Type :=
| NdInt2 (a : list (list Z))
| NdInt1 (a : list Z)
| NdBool1 (a : list bool)
| NdFloat2 (a : list (list Q))
| NdFloat1 (a : list Q)
| TByte (a : list (option Z))
| PyGraph (n : nat) (nd : gmap string loc) (es : list (nat * nat)).

(** A computation on the store; the store survives an exception. *)
Definition St (A : Type) : Type :=
  gmap loc pyobj → result A * gmap loc pyobj.

#[global] Instance St_ret : MRet St := fun A a h => (Ok a, h).

#[global] Instance St_bind : MBind St := fun A B f m h =>
  match m h with
  | (Ok a, h') => f a h'
  | (Raise e, h') => (Raise e, h')
  end.

Definition raise {A} (e : exn) : St A := fun h => (Raise e, h).

Definition lift {A} (r : result A) : St A := fun h => (r, h).

(** A new object, at a location not in use. *)
Definition alloc (o : pyobj) : St loc :=
  fun h => let l := fresh (dom h) in (Ok l, <[l := o]> h).

Definition load (l : loc) : St pyobj :=
  fun h => match h !! l with
           | Some o => (Ok o, h)
           | None => (Raise RuntimeError, h)
           end.

(** In-place update of the object at [l]. *)
Definition store (l : loc) (o : pyobj) : St unit :=
  fun h => (Ok tt, <[l := o]> h).

Definition load_int2 (l : loc) : St (list (list Z)) :=
  o ← load l; match o with NdInt2 a => mret a | _ => raise TypeError end.

Definition load_int1 (l : loc) : St (list Z) :=
  o ← load l; match o with NdInt1 a => mret a | _ => raise TypeError end.

Definition load_bool1 (l : loc) : St (list bool) :=
  o ← load l; match o with NdBool1 a => mret a | _ => raise TypeError end.

Definition load_float2 (l : loc) : St (list (list Q)) :=
  o ← load l; match o with NdFloat2 a => mret a | _ => raise TypeError end.

Definition load_float1 (l : loc) : St (list Q) :=
  o ← load l; match o with NdFloat1 a => mret a | _ => raise TypeError end.

Definition load_byte (l : loc) : St (list (option Z)) :=
  o ← load l; match o with TByte a => mret a | _ => raise TypeError end.

Definition load_graph (l : loc)
  : St (nat * gmap string loc * list (nat * nat)) :=
  o ← load l;
  match o with PyGraph n nd es => mret (n, nd, es) | _ => raise TypeError end.

Fixpoint for_each_st {A : Type} (xs : list A) (body : A → St unit) : St unit :=
  match xs with
  | [] => mret tt
  | x :: rest => _ ← body x; for_each_st rest body
  end.

(** First dimension of a stored tensor. *)
Definition shape0_obj (o : pyobj) : result nat :=
  match o with
  | NdFloat2 a => Ok (length a)
  | NdFloat1 a => Ok (length a)
  | TByte a => Ok (length a)
  | NdInt2 a => Ok (length a)
  | NdInt1 a => Ok (length a)
  | NdBool1 a => Ok (length a)
  | PyGraph _ _ _ => Raise TypeError
  end.

(** [graph.add_nodes(n)]. *)
Definition add_nodes_st (n : nat) (graph : loc) : St unit :=
  '(n0, nd, es) ← load_graph graph;
  store graph (PyGraph (n0 + n) nd es).

(** [graph.ndata[key] = val]: the graph keeps a reference to [val]. *)
Definition ndata_set_st (key : string) (val : loc) (graph : loc) : St unit :=
  '(n, nd, es) ← load_graph graph;
  t ← load val;
  rows ← lift (shape0_obj t);
  if decide (rows = n) then store graph (PyGraph n (<[key := val]> nd) es)
  else raise DGLError.

(** [graph.add_edges(us, vs)]. *)
Definition add_edges_st (us vs : list nat) (graph : loc) : St unit :=
  '(n, nd, es) ← load_graph graph;
  new_es ← lift (dgl_pair_up us vs);
  if decide (Forall (fun e : nat * nat => (e.1 < n)%nat ∧ (e.2 < n)%nat) new_es)
  then store graph (PyGraph n nd (es ++ new_es))
  else raise DGLError.

(** [torch.FloatTensor(a)] of a float array: a new tensor.  (For an array
    that already has the tensor's element type the tensor shares the memory
    of [a] instead; no statement below writes through a tensor, so the two
    cases behave alike here.) *)
Definition torch_FloatTensor2_st (a : loc) : St loc :=
  v ← load_float2 a; alloc (NdFloat2 v).

Definition torch_FloatTensor1_st (a : loc) : St loc :=
  v ← load_float1 a; alloc (NdFloat1 v).

(** The builder hooks on the store. *)
Class GraphBuilderSt (B : Type) : Type := {
  _set_node_centroids_st : B → loc → loc → St unit;
  _set_node_labels_st : B → loc → loc → loc → St unit;
  _build_topology_st : B → loc → loc → St unit
}.

Definition _set_node_features_st (features graph : loc) : St unit :=
  ndata_set_st FEATURES features graph.

Definition process_st {B} `{GraphBuilderSt B} (self : B) (structure features : loc)
    (annotation : option loc) : St loc :=
  f ← load_float2 features;
  let num_nodes := length f in
  graph ← alloc (PyGraph 0 ∅ []);
  _ ← add_nodes_st num_nodes graph;
  _ ← _set_node_features_st features graph;
  _ ← _set_node_centroids_st self structure graph;
  _ ← match annotation with
       | Some annotation => _set_node_labels_st self structure annotation graph
       | None => mret tt
       end;
  _ ← _build_topology_st self structure graph;
  mret graph.

(** [two_hop_neighborhood]: a new graph object whose node data refer to the
    tensors of the old one. *)
Definition two_hop_neighborhood_st (graph : loc) : St loc :=
  '(n, nd, es) ← load_graph graph;
  let A_tilde := A_tilde_of (adjacency_matrix (mkGraph n ∅ es)) in
  new_graph ← alloc (PyGraph 0 ∅ []);
  _ ← store new_graph (PyGraph (length A_tilde) ∅ (from_numpy_matrix_edges A_tilde));
  _ ← for_each_st (map_to_list nd) (fun kv => ndata_set_st kv.1 kv.2 new_graph);
  mret new_graph.

(** [a[i, j] = v] on a 2-D float array. *)
Definition np_set2_st (a : loc) (i j : nat) (v : Q) : St unit :=
  rows ← load_float2 a;
  match rows !! i with
  | Some row =>
      if decide (j < length row)%nat
      then store a (NdFloat2 (<[i := <[j := v]> row]> rows))
      else raise IndexError
  | None => raise IndexError
  end.

(** The centroid tensor of [_set_node_centroids]. *)
Definition RAG_centroids_st (instance_map : loc) : St loc :=
  im ← load_int2 instance_map;
  let regions := regionprops im in
  (* np.empty((len(regions), 2)): every cell is written by the loop *)
  centroids ← alloc (NdFloat2 (replicate (length regions) [0; 0]%Q));
  _ ← for_each_st (imap pair regions) (fun ir : nat * (Z * (Q * Q)) =>
         let '(center_y, center_x) := ir.2.2 in
         let center_x := py_round center_x in
         let center_y := py_round center_y in
         _ ← np_set2_st centroids ir.1 0 (inject_Z center_x);
         np_set2_st centroids ir.1 1 (inject_Z center_y));
  torch_FloatTensor2_st centroids.

Definition RAG_set_node_centroids_st (instance_map graph : loc) : St unit :=
  t ← RAG_centroids_st instance_map;
  ndata_set_st CENTROID t graph.

(** One iteration of the loop of [_set_node_labels] on the tensor [labels]. *)
Definition RAG_label_region_st (self : RAGGraphBuilder)
    (instance_map annotation labels : loc) (region_label : Z) : St unit :=
  ann ← load_int2 annotation;
  im ← load_int2 instance_map;
  pixels ← lift (np_bool_index ann (np_eq_scalar im region_label));
  histogram ← alloc (NdInt1 (fast_histogram pixels (nr_classes (rag_base self))));
  h ← load_int1 histogram;
  mask ← alloc (NdBool1 (replicate (length h) true));
  (* mask[self.background_class] = 0 *)
  m ← load_bool1 mask;
  m ← lift (np_set m (background_class (rag_base self)) false);
  _ ← store mask (NdBool1 m);
  m ← load_bool1 mask;
  h ← load_int1 histogram;
  assignment ←
    (if np_sum (select_row h m) =? 0 then mret (background_class (rag_base self))
     else
       (* histogram[self.background_class] = 0 *)
       h ← lift (np_set h (background_class (rag_base self)) 0);
       _ ← store histogram (NdInt1 h);
       h ← load_int1 histogram;
       a ← lift (np_argmax h);
       mret (Z.of_nat a));
  (* labels[region_label - 1] = int(assignment) *)
  t ← load_byte labels;
  t ← lift (torch_set_uint8 t (region_label - 1) assignment);
  store labels (TByte t).

(** The label tensor of [_set_node_labels]. *)
Definition RAG_labels_st (self : RAGGraphBuilder) (instance_map annotation : loc)
  : St loc :=
  _ ← lift (py_assert (nr_classes (rag_base self) <? 256)
              "Cannot handle that many classes with 8 byte representation");
  im ← load_int2 instance_map;
  let region_labels := pd_unique (np_ravel im) in
  labels ← alloc (TByte (torch_empty (length region_labels)));
  _ ← for_each_st region_labels
        (RAG_label_region_st self instance_map annotation labels);
  mret labels.

Definition RAG_set_node_labels_st (self : RAGGraphBuilder)
    (instance_map annotation graph : loc) : St unit :=
  labels ← RAG_labels_st self instance_map annotation;
  ndata_set_st LABEL labels graph.

(** One iteration of the loop of [_build_topology] on the matrix
    [adjacency]. *)
Definition RAG_adjacency_row_st (instance_map adjacency : loc) (ksize n : nat)
    (instance_id : Z) : St unit :=
  im ← load_int2 instance_map;
  idx ← alloc (NdInt1 (ring_ids im ksize instance_id));
  let instance_id := instance_id - 1 in
  (* idx -= 1 *)
  v ← load_int1 idx;
  _ ← store idx (NdInt1 (map (fun i => i - 1) v));
  (* adjacency[instance_id, idx] = 1 *)
  a ← load_int2 adjacency;
  v ← load_int1 idx;
  a ← lift (np_set_row_cols a n instance_id v 1);
  store adjacency (NdInt2 a).

(** The adjacency matrix filled by the loop over the instances. *)
Definition RAG_adjacency_st (instance_map : loc) (ksize : nat)
  : St (list (list Z)) :=
  im ← load_int2 instance_map;
  let instance_ids := instance_ids_of im in
  let n := length instance_ids in
  adjacency ← alloc (NdInt2 (np_zeros2 n n));
  _ ← for_each_st instance_ids (RAG_adjacency_row_st instance_map adjacency ksize n);
  load_int2 adjacency.

Definition RAG_build_topology_st (self : RAGGraphBuilder)
    (instance_map graph : loc) : St unit :=
  ksize ← lift (np_ones_kernel (kernel_size self));
  adjacency ← RAG_adjacency_st instance_map ksize;
  let edge_list := np_nonzero2 adjacency in
  _ ← add_edges_st (map fst edge_list) (map snd edge_list) graph;
  (* for _ in range(self.hops - 1): graph = two_hop_neighborhood(graph) *)
  _ ← Nat.iter (Z.to_nat (hops self - 1))
        (fun acc : St loc => g ← acc; two_hop_neighborhood_st g) (mret graph);
  mret tt.

#[global] Instance RAG_builder_st : GraphBuilderSt RAGGraphBuilder := {
  _set_node_centroids_st := fun _ => RAG_set_node_centroids_st;
  _set_node_labels_st := RAG_set_node_labels_st;
  _build_topology_st := RAG_build_topology_st
}.

Definition KNN_set_node_centroids_st (centroids graph : loc) : St unit :=
  t ← torch_FloatTensor2_st centroids;
  ndata_set_st CENTROID t graph.

(** [torch.FloatTensor(annotation.astype(float))]: [astype] makes a new
    array. *)
Definition KNN_labels_st (annotation : loc) : St loc :=
  a ← load_float1 annotation;
  a ← alloc (NdFloat1 a);
  torch_FloatTensor1_st a.

Definition KNN_set_node_labels_st (self : KNNGraphBuilder)
    (instance_map annotation graph : loc) : St unit :=
  t ← KNN_labels_st annotation;
  ndata_set_st LABEL t graph.

Definition KNN_build_topology_st (self : KNNGraphBuilder)
    (centroids graph : loc) : St unit :=
  X ← load_float2 centroids;
  adj ← lift (kneighbors_graph X (k self));
  let edge_list := sparse_nonzero adj in
  let edge_list :=
    match thresh self with
    | Some t =>
        List.filter (fun x : nat * nat =>
                       l2_distance_lt (default [] (X !! x.1))
                                      (default [] (X !! x.2)) t) edge_list
    | None => edge_list
    end in
  add_edges_st (map fst edge_list) (map snd edge_list) graph.

#[global] Instance KNN_builder_st : GraphBuilderSt KNNGraphBuilder := {
  _set_node_centroids_st := fun _ => KNN_set_node_centroids_st;
  _set_node_labels_st := KNN_set_node_labels_st;
  _build_topology_st := KNN_build_topology_st
}.

(** Reading a stored graph back as a value. *)
Definition tensor_of_obj (o : pyobj) : option Tensor :=
  match o with
  | NdFloat2 a => Some (FloatTensor2 a)
  | NdFloat1 a => Some (FloatTensor1 a)
  | TByte a => Some (ByteTensor a)
  | _ => None
  end.

Definition read_graph (h : gmap loc pyobj) (graph : loc) : option DGLGraph :=
  match h !! graph with
  | Some (PyGraph n nd es) =>
      Some (mkGraph n (omap (fun l => o ← h !! l; tensor_of_obj o) nd) es)
  | _ => None
  end.


(** ** Predicates used in the statements *)

(** Both endpoints of an edge are nodes of a graph of [n] nodes. *)
Definition edge_in_range (n : nat) (e : nat * nat) : Prop :=
  (e.1 < n)%nat ∧ (e.2 < n)%nat.

(** Every node attribute has one row per node and every edge joins two
    nodes. *)
Record graph_wf (g : DGLGraph) : Prop := mk_graph_wf {
  wf_ndata : ∀ key t, ndata g !! key = Some t → shape0 t = number_of_nodes g;
  wf_edges : Forall (edge_in_range (number_of_nodes g)) (edges g)
}.

(** The node-count invariant of a graph built from [features] with an
    annotation. *)
Definition node_count_invariant (features : list (list Q)) (g : DGLGraph) : Prop :=
  let N := number_of_nodes g in
  N = length features ∧
  ndata g !! FEATURES = Some (FloatTensor2 features) ∧
  (∃ c, ndata g !! CENTROID = Some c ∧ shape0 c = N) ∧
  (∃ l, ndata g !! LABEL = Some l ∧ shape0 l = N) ∧
  Forall (edge_in_range N) (edges g).

(** The messages of the two assertions the claims mention. *)
Definition labels_assert_msg : string :=
  "Cannot handle that many classes with 8 byte representation".

Definition save_assert_msg : string :=
  "Can only save intermediate output if base_path was not None during construction".

(** The edge that [np.nonzero] makes of an entry of row [i] of the
    neighbour matrix, if any. *)
Definition knn_entry_edge (i : nat) (e : nat * Q) : option (nat * nat) :=
  if Qeq_bool e.2 0 then None else Some (i, e.1).

(** [row[cs] = v] on one row. *)
Definition set_cols (v : Z) (cs : list nat) (row : list Z) : list Z :=
  foldr (fun c acc => <[c := v]> acc) row cs.

(** An [n x n] matrix. *)
Definition square (n : nat) (a : list (list Z)) : Prop :=
  length a = n ∧ Forall (fun row => length row = n) a.

(** [keeps h0 m Q]: run from any store that extends [h0], the computation
    [m] ends in a store that still extends [h0] (whether it returns or
    raises), and a returned value satisfies [Q]. *)
Definition keeps {A} (h0 : gmap loc pyobj) (m : St A) (Q : A → Prop) : Prop :=
  ∀ h, h0 ⊆ h → h0 ⊆ (m h).2 ∧ ∀ v, (m h).1 = Ok v → Q v.

(** A location at which [h0] holds no object. *)
Definition unused (h0 : gmap loc pyobj) (l : loc) : Prop := h0 !! l = None.

(** [graph_at h graph g]: the object at [graph] is a graph with the nodes
    and edges of [g] whose node data refer to tensors holding the node data
    of [g]. *)
Definition graph_at (h : gmap loc pyobj) (graph : loc) (g : DGLGraph) : Prop :=
  ∃ nd, h !! graph = Some (PyGraph (number_of_nodes g) nd (edges g)) ∧
        ∀ key, match nd !! key with
               | Some l => ∃ o t, h !! l = Some o ∧ tensor_of_obj o = Some t ∧
                                  ndata g !! key = Some t
               | None => ndata g !! key = None
               end.

(** A hook on the store refines a hook on values: started on a store that
    holds the inputs and a graph object reading as [g], it keeps the inputs,
    raises when the value hook raises, and otherwise leaves the graph object
    reading as the graph the value hook returns. *)
Definition hook_refines (inputs : gmap loc pyobj) (f_st : loc → St unit)
    (f : DGLGraph → result DGLGraph) : Prop :=
  ∀ h graph g,
    inputs ⊆ h → unused inputs graph → graph_wf g → graph_at h graph g →
    inputs ⊆ (f_st graph h).2 ∧
    match f g with
    | Ok g' => (f_st graph h).1 = Ok tt ∧ graph_at (f_st graph h).2 graph g' ∧ graph_wf g'
    | Raise e => (f_st graph h).1 = Raise e
    end.

(** A computation on the store that makes the tensor that a computation on
    values returns. *)
Definition tensor_refines (inputs : gmap loc pyobj) (mk_st : St loc)
    (mk : result Tensor) : Prop :=
  ∀ h, inputs ⊆ h →
    match mk with
    | Ok t => ∃ l o, (mk_st h).1 = Ok l ∧ (mk_st h).2 !! l = Some o ∧
                     tensor_of_obj o = Some t
    | Raise e => (mk_st h).1 = Raise e
    end.

(** One row of the centroid array: [x] first, then [y], both rounded. *)
Definition centroid_row (region : Z * (Q * Q)) : list Q :=
  let '(center_y, center_x) := region.2 in
  [inject_Z (py_round center_x); inject_Z (py_round center_y)].

(** The label tensor of [_set_node_labels] as a value. *)
Definition RAG_labels_tensor (self : RAGGraphBuilder) (im ann : list (list Z))
  : result Tensor :=
  _ ← py_assert (nr_classes (rag_base self) <? 256)
        "Cannot handle that many classes with 8 byte representation";
  labels ← for_each (pd_unique (np_ravel im)) (fun region_label labels =>
              assignment ← region_assignment (rag_base self) im ann region_label;
              torch_set_uint8 labels (region_label - 1) assignment)
            (torch_empty (length (pd_unique (np_ravel im))));
  Ok (ByteTensor labels).

(** [graph_ok h graph n]: a graph object of [n] nodes whose node data all
    have [n] rows, which is what [two_hop_neighborhood] needs to copy them. *)
Definition graph_ok (h : gmap loc pyobj) (graph : loc) (n : nat) : Prop :=
  ∃ nd es, h !! graph = Some (PyGraph n nd es) ∧
           ∀ key l, nd !! key = Some l → ∃ o, h !! l = Some o ∧ shape0_obj o = Ok n.

(** ** Predicates used in the statements about the proximity builder *)

(** The lengths that [process] of the proximity builder needs to agree: one
    centroid per feature row and, when given, one annotation per feature
    row. *)
Definition KNN_shapes_agree (X features : list (list Q)) (ann : option (list Q))
  : Prop :=
  length X = length features ∧
  match ann with Some a => length a = length features | None => True end.

(** The node data of a graph built by the proximity builder. *)
Definition KNN_node_data (X features : list (list Q)) (ann : option (list Q))
  : gmap string Tensor :=
  let nd := <[CENTROID := FloatTensor2 X]> {[ FEATURES := FloatTensor2 features ]} in
  match ann with
  | Some a => <[LABEL := FloatTensor1 a]> nd
  | None => nd
  end.

(** ** Predicates used in the statements about [two_hop_neighborhood] *)

(** [j] can be reached from [i] along one edge or along two consecutive
    edges of [g]. *)
Definition within_two_hops (g : DGLGraph) (i j : nat) : Prop :=
  (i, j) ∈ edges g ∨ ∃ m, (i, m) ∈ edges g ∧ (m, j) ∈ edges g.

(** ** Predicates used in the statements about the region-adjacency builder *)

(** Region [b] has a pixel whose kernel window, anchored on that pixel,
    covers a pixel of region [a]. *)
Definition touches (im : list (list Z)) (ksize : nat) (a b : Z) : Prop :=
  ∃ (y x : nat) (dy dx : Z),
    dy ∈ kernel_offsets ksize ∧ dx ∈ kernel_offsets ksize ∧
    pixel im (Z.of_nat y) (Z.of_nat x) = Some b ∧
    pixel im (Z.of_nat y + dy) (Z.of_nat x + dx) = Some a.

(** The number of regions that [regionprops] finds in a map. *)
Definition nr_regions (im : list (list Z)) : nat := length (regionprops im).

(** The ids of the map are exactly [1 .. n]: no background, no gap. *)
Definition ids_are_1_to (n : nat) (im : list (list Z)) : Prop :=
  ∀ v, v ∈ np_ravel im ↔ 1 ≤ v ≤ Z.of_nat n.

(** The node on which an id [r >= 0] lands in a matrix of [n] rows and
    columns: [r - 1] read as a numpy index, so that the id 0 lands on the
    last node. *)
Definition node_of_id (n : nat) (r : Z) : nat :=
  if decide (r = 0) then (n - 1)%nat else Z.to_nat (r - 1).

(** The point [(cx, cy)] (column, row) lies within the bounding box of
    region [v]: the region has a pixel in a column at most [cx] and one in
    a column at least [cx], and likewise for the rows. *)
Definition in_bounding_box (im : list (list Z)) (v : Z) (cx cy : Z) : Prop :=
  (∃ y x : nat, pixel im (Z.of_nat y) (Z.of_nat x) = Some v ∧ Z.of_nat x ≤ cx) ∧
  (∃ y x : nat, pixel im (Z.of_nat y) (Z.of_nat x) = Some v ∧ cx ≤ Z.of_nat x) ∧
  (∃ y x : nat, pixel im (Z.of_nat y) (Z.of_nat x) = Some v ∧ Z.of_nat y ≤ cy) ∧
  (∃ y x : nat, pixel im (Z.of_nat y) (Z.of_nat x) = Some v ∧ cy ≤ Z.of_nat y).

(** [c] is the integer nearest to the mean of the numbers of [l], and the
    even one of the two when the mean lies half-way between two integers:
    with [n] numbers of sum [s], twice the distance of [c * n] to [s] is at
    most [n]. *)
Definition nearest_integer_to_mean (l : list nat) (c : Z) : Prop :=
  let n := Z.of_nat (length l) in
  let s := Z.of_nat (foldr Nat.add 0%nat l) in
  Z.abs (2 * (c * n - s)) ≤ n ∧ (Z.abs (2 * (c * n - s)) = n → Z.even c = true).

(** ** ConfigGenerator._get_number_classes

    From [experiments/histo-graph/config_generator.py].  The dictionary
    [labels] maps a tumour type to its class; the method removes the
    blacklisted types from the dictionary it is given ([pop] with a default,
    so a type that is not a key is skipped) and counts the distinct classes
    that are left.  The dictionary is only read through
    [np.unique(list(labels.values()))], which does not depend on the order
    of the entries, so it is a finite map here.  The function returns the
    one-element list of the source together with the final state of the
    caller's dictionary. *)

(** [np.unique] of a list of integers: the distinct values, sorted. *)
Definition np_unique (l : list Z) : list Z := np_sort (pd_unique l).

Definition _get_number_classes (blacklist : list string) (labels : gmap string Z)
  : list nat * gmap string Z :=
  let labels :=
    foldl (fun labels i => delete (default "" (blacklist !! i)) labels) labels
          (seq 0 (length blacklist)) in
  let n_classes := length (np_unique (map snd (map_to_list labels))) in
  ([n_classes], labels).

(** ** The region-adjacency builder of [experiments/histo-seg]

    [experiments/histo-seg/graph_builders.py] holds an earlier
    [RAGGraphBuilder._build_topology]: the same loop, but over all the ids
    of the map, the id 0 included, and without hops. *)

Definition hseg_RAG_adjacency (instances : list (list Z)) (ksize : nat)
  : result (list (list Z)) :=
  let instance_ids := np_sort (pd_unique (np_ravel instances)) in
  let n := length instance_ids in
  for_each instance_ids (fun instance_id adjacency =>
      let idx := ring_ids instances ksize instance_id in
      let instance_id := instance_id - 1 in
      let idx := map (fun i => i - 1) idx in
      np_set_row_cols adjacency n instance_id idx 1) (np_zeros2 n n).

Definition hseg_RAG_build_topology (kernel_size : Z) (instances : list (list Z))
    (graph : DGLGraph) : result DGLGraph :=
  ksize ← np_ones_kernel kernel_size;
  adjacency ← hseg_RAG_adjacency instances ksize;
  let edge_list := np_nonzero2 adjacency in
  add_edges (map fst edge_list) (map snd edge_list) graph.


(** The label of one region in the [_set_node_labels] of
    [experiments/histo-seg]: the first most frequent class, without
    background suppression. *)
Definition hseg_region_assignment (nr_classes : Z)
    (superpixels annotation : list (list Z)) (region_label : Z) : result Z :=
  pixels ← np_bool_index annotation (np_eq_scalar superpixels region_label);
  assignment ← np_argmax (fast_histogram pixels nr_classes);
  Ok (Z.of_nat assignment).

(* ===================================================================== *)
(** * Properties *)
(* ===================================================================== *)

(** ** The result monad *)

Lemma bind_Ok {A B} (m : result A) (f : A → result B) (b : B) :
  (x ← m; f x) = Ok b ↔ ∃ a, m = Ok a ∧ f a = Ok b.
Proof.
  destruct m as [a|e]; simpl; split.
  - intros Hf. exists a. split; [reflexivity | exact Hf].
  - intros (a' & Ha & Hf). injection Ha as ->. exact Hf.
  - discriminate.
  - intros (a' & Ha & _). discriminate.
Qed.

(** Split a successful sequence of binds into its steps. *)
Ltac inv_bind H :=
  lazymatch type of H with
  | mbind _ _ = Ok _ =>
      let a := fresh "a" in
      let Ha := fresh "Hstep" in
      apply bind_Ok in H as (a & Ha & H); inv_bind Ha; inv_bind H
  | _ => idtac
  end.

Lemma py_assert_Ok cond msg u : py_assert cond msg = Ok u → cond = true.
Proof. unfold py_assert. destruct cond; [reflexivity | discriminate]. Qed.

(** ** The DGL graph: every operation keeps the per-node data and the edges
    inside the node set *)

Lemma ndata_set_Ok key val g g' :
  ndata_set key val g = Ok g' →
  shape0 val = number_of_nodes g ∧
  g' = mkGraph (number_of_nodes g) (<[key := val]> (ndata g)) (edges g).
Proof.
  unfold ndata_set. case_decide; [|discriminate].
  intros [= <-]. split; [assumption | reflexivity].
Qed.

Lemma add_edges_Ok us vs g g' :
  add_edges us vs g = Ok g' →
  ∃ es, dgl_pair_up us vs = Ok es ∧
        Forall (edge_in_range (number_of_nodes g)) es ∧
        g' = mkGraph (number_of_nodes g) (ndata g) (edges g ++ es).
Proof.
  unfold add_edges. intros H. inv_bind H.
  case_decide as Hr; [|discriminate]. injection H as <-.
  exists a. split; [assumption|]. split; [exact Hr | reflexivity].
Qed.

Lemma dgl_pair_up_unzip (l : list (nat * nat)) :
  dgl_pair_up (map fst l) (map snd l) = Ok l.
Proof.
  destruct l as [|[u v] [|[u' v'] l]]; simpl; try reflexivity.
  rewrite decide_True.
  - f_equal. f_equal. f_equal. induction l as [|[u2 v2] l IH]; simpl; [reflexivity|].
    f_equal. exact IH.
  - rewrite !length_map. reflexivity.
Qed.

Lemma add_edges_list_Ok (l : list (nat * nat)) g g' :
  add_edges (map fst l) (map snd l) g = Ok g' →
  Forall (edge_in_range (number_of_nodes g)) l ∧
  g' = mkGraph (number_of_nodes g) (ndata g) (edges g ++ l).
Proof.
  intros H. apply add_edges_Ok in H as (es & Hes & Hr & ->).
  rewrite dgl_pair_up_unzip in Hes. injection Hes as <-. split; [exact Hr | reflexivity].
Qed.

Lemma graph_wf_new n : graph_wf (add_nodes n DGLGraph_new).
Proof.
  split; simpl.
  - intros key t Hk. rewrite lookup_empty in Hk. discriminate.
  - constructor.
Qed.

Lemma graph_wf_ndata_set key val g g' :
  graph_wf g → ndata_set key val g = Ok g' →
  graph_wf g' ∧ number_of_nodes g' = number_of_nodes g ∧ edges g' = edges g.
Proof.
  intros [Hn He] H. apply ndata_set_Ok in H as [Hs ->]. simpl.
  split; [|split; reflexivity]. split; simpl; [|exact He].
  intros key' t Hk. destruct (decide (key = key')) as [->|Hne].
  - rewrite lookup_insert_eq in Hk. injection Hk as <-. exact Hs.
  - rewrite lookup_insert_ne in Hk by exact Hne. eapply Hn, Hk.
Qed.

Lemma graph_wf_add_edges us vs g g' :
  graph_wf g → add_edges us vs g = Ok g' →
  graph_wf g' ∧ number_of_nodes g' = number_of_nodes g ∧ ndata g' = ndata g.
Proof.
  intros [Hn He] H. apply add_edges_Ok in H as (es & _ & Hr & ->). simpl.
  split; [|split; reflexivity]. split; simpl; [exact Hn|].
  apply Forall_app. split; assumption.
Qed.

(** ** The shared pipeline [process] *)

Lemma set_node_features_new features :
  _set_node_features features (add_nodes (length features) DGLGraph_new)
  = Ok (mkGraph (length features) {[ FEATURES := FloatTensor2 features ]} []).
Proof.
  unfold _set_node_features, ndata_set. simpl. rewrite decide_True by reflexivity.
  reflexivity.
Qed.

Lemma process_Ok {B S A} `{GraphBuilder B S A} (self : B) (s : S) features
    (ann : option A) g :
  process self s features ann = Ok g →
  ∃ g2 g3,
    _set_node_centroids self s
      (mkGraph (length features) {[ FEATURES := FloatTensor2 features ]} []) = Ok g2 ∧
    match ann with
    | Some a => _set_node_labels self s a g2 = Ok g3
    | None => g3 = g2
    end ∧
    _build_topology self s g3 = Ok g.
Proof.
  unfold process. rewrite set_node_features_new. simpl. intros Hp.
  inv_bind Hp. exists a, a0. split; [assumption|]. split; [|assumption].
  destruct ann; [assumption | congruence].
Qed.

Lemma RAG_build_topology_Ok self im g g' :
  RAG_build_topology self im g = Ok g' →
  ∃ ksize adjacency,
    np_ones_kernel (kernel_size self) = Ok ksize ∧
    RAG_adjacency im ksize = Ok adjacency ∧
    Forall (edge_in_range (number_of_nodes g)) (np_nonzero2 adjacency) ∧
    g' = mkGraph (number_of_nodes g) (ndata g) (edges g ++ np_nonzero2 adjacency).
Proof.
  unfold RAG_build_topology, RAG_build_topology_locals. intros H. inv_bind H.
  injection H as <-. injection Hstep as <-. simpl.
  apply add_edges_list_Ok in Hstep2 as [Hr ->].
  exists a0, a1. repeat split; assumption.
Qed.

Lemma RAG_set_node_labels_Ok self im ann g g' :
  RAG_set_node_labels self im ann g = Ok g' →
  ∃ labels,
    (nr_classes (rag_base self) <? 256) = true ∧
    ndata_set LABEL (ByteTensor labels) g = Ok g'.
Proof.
  unfold RAG_set_node_labels. intros H. inv_bind H.
  apply py_assert_Ok in Hstep. exists a0. split; assumption.
Qed.

Lemma node_count_after_labels features c l es :
  shape0 c = length features → shape0 l = length features →
  Forall (edge_in_range (length features)) es →
  node_count_invariant features
    (mkGraph (length features)
       (<[LABEL := l]> (<[CENTROID := c]> {[ FEATURES := FloatTensor2 features ]})) es).
Proof.
  intros Hc Hl He. unfold node_count_invariant. simpl.
  split; [reflexivity|]. split; [|split; [|split]].
  - rewrite lookup_insert_ne by discriminate. rewrite lookup_insert_ne by discriminate.
    apply lookup_singleton_eq.
  - exists c. split; [|exact Hc].
    rewrite lookup_insert_ne by discriminate. apply lookup_insert_eq.
  - exists l. split; [|exact Hl]. apply lookup_insert_eq.
  - exact He.
Qed.

(** C2 — node-count invariant.  Whenever a build with an annotation returns a
    graph of [N] nodes, with either builder, the feature matrix stored in the
    graph is the input one and has [N] rows, the centroid and the label
    arrays have [N] entries, and both endpoints of every edge are below
    [N]. *)
Theorem node_count_invariant_holds :
  (∀ (self : RAGGraphBuilder) instance_map features annotation g,
      process self instance_map features (Some annotation) = Ok g →
      node_count_invariant features g) ∧
  (∀ (self : KNNGraphBuilder) centroids features annotation g,
      process self centroids features (Some annotation) = Ok g →
      node_count_invariant features g).
Proof.
  split.
  - intros self im features ann g Hp.
    apply process_Ok in Hp as (g2 & g3 & Hc & Hl & Ht). simpl in Hc, Hl, Ht.
    apply ndata_set_Ok in Hc as [Hcs ->]. simpl in Hcs.
    apply RAG_set_node_labels_Ok in Hl as (labels & _ & Hl).
    apply ndata_set_Ok in Hl as [Hls ->]. simpl in Hls.
    apply RAG_build_topology_Ok in Ht as (ksize & adj & _ & _ & Hr & ->).
    simpl in *. apply node_count_after_labels; assumption.
  - intros self X features ann g Hp.
    apply process_Ok in Hp as (g2 & g3 & Hc & Hl & Ht). simpl in Hc, Hl, Ht.
    apply ndata_set_Ok in Hc as [Hcs ->]. simpl in Hcs.
    apply ndata_set_Ok in Hl as [Hls ->]. simpl in Hls.
    unfold KNN_build_topology in Ht. inv_bind Ht.
    apply add_edges_list_Ok in Ht as [Hr ->].
    simpl in *. apply node_count_after_labels; assumption.
Qed.

Lemma node_count_invariant_holds_witness :
  ∃ g, process (mkRAG (Base__init__ 6 4 None (mkPipelineStep None "")) 3 1)
         [[1; 1; 2]; [3; 3; 2]] [[1 # 2]; [0]; [3 # 4]]%Q (Some [[0; 1; 4]; [2; 2; 4]]) = Ok g
       ∧ node_count_invariant [[1 # 2]; [0]; [3 # 4]]%Q g.
Proof.
  eexists. split.
  - vm_compute. reflexivity.
  - apply (proj1 node_count_invariant_holds
             (mkRAG (Base__init__ 6 4 None (mkPipelineStep None "")) 3 1)
             [[1; 1; 2]; [3; 3; 2]] [[1 # 2]; [0]; [3 # 4]]%Q [[0; 1; 4]; [2; 2; 4]]).
    vm_compute. reflexivity.
Defined.

(** ** Construction-time validation *)

(** C3, counterexample: a region-adjacency builder with 300 classes is
    constructed without any error. *)
Lemma class_count_300_constructs :
  ∃ self, RAG__init__ 5 (PyInt 1) 300 4 None (mkPipelineStep None "") = Ok self
          ∧ nr_classes (rag_base self) = 300.
Proof. eexists. split; reflexivity. Qed.

(** C3, amended — the constructor of the region-adjacency builder accepts
    any class count; a count of 256 or more is rejected by the assertion
    that opens label aggregation, so that a build with an annotation fails
    with this assertion error before any region is looked at (after the
    centroids have been attached, which fails first when the number of
    regions is not the number of feature rows). *)
Theorem class_count_checked_at_labelling kernel_size h nr bg pa kwargs :
  256 ≤ nr → 0 < h →
  ∃ self,
    RAG__init__ kernel_size (PyInt h) nr bg pa kwargs = Ok self ∧
    nr_classes (rag_base self) = nr ∧
    (∀ im ann g,
        RAG_set_node_labels self im ann g = Raise (AssertionError labels_assert_msg)) ∧
    (∀ im features ann,
        process self im features (Some ann) =
        if decide (length (regionprops im) = length features)
        then Raise (AssertionError labels_assert_msg) else Raise DGLError).
Proof.
  intros Hnr Hh. unfold RAG__init__, py_assert.
  assert ((0 <? h) = true) as -> by lia. simpl.
  eexists. split; [reflexivity|]. split; [reflexivity|].
  assert (Hl : ∀ im ann g,
             RAG_set_node_labels
               (mkRAG (Base__init__ nr bg pa kwargs) kernel_size h) im ann g
             = Raise (AssertionError labels_assert_msg)).
  { intros im ann g. unfold RAG_set_node_labels, py_assert. simpl.
    assert ((nr <? 256) = false) as -> by lia. reflexivity. }
  split; [exact Hl|].
  intros im features ann. unfold process. rewrite set_node_features_new. simpl.
  unfold RAG_set_node_centroids, ndata_set. simpl. rewrite length_map.
  case_decide; simpl; [rewrite Hl|]; reflexivity.
Qed.

Lemma class_count_checked_at_labelling_witness :
  ∃ self,
    RAG__init__ 5 (PyInt 1) 300 4 None (mkPipelineStep None "") = Ok self ∧
    nr_classes (rag_base self) = 300 ∧
    (∀ im ann g,
        RAG_set_node_labels self im ann g = Raise (AssertionError labels_assert_msg)) ∧
    (∀ im features ann,
        process self im features (Some ann) =
        if decide (length (regionprops im) = length features)
        then Raise (AssertionError labels_assert_msg) else Raise DGLError).
Proof.
  apply (class_count_checked_at_labelling 5 1 300 4 None (mkPipelineStep None "")); lia.
Defined.

(** ** Caching: [process_and_save] *)

(** C7 — [process_and_save].  Without a configured storage location the call
    fails on its opening assertion, whatever the inputs and the file system.
    With one, an existing artifact decides the outcome alone: when it holds
    exactly one graph this graph is returned and the file system is left as
    it is, for any structure, features and annotation (when it holds none or
    several the call fails); and when no artifact exists the result is the
    one of [process], stored under the artifact's path before it is
    returned. *)
Theorem process_and_save_contract {B S A} `{GraphBuilder B S A} (self : B)
    (output_name : string) (structure : S) (features : list (list Q))
    (annotation : option A) (fs : gmap string (list DGLGraph)) :
  let output_path := output_path_of (output_dir (step (base self))) output_name in
  (base_path (step (base self)) = None →
   process_and_save self output_name structure features annotation fs
   = Raise (AssertionError save_assert_msg)) ∧
  (is_Some (base_path (step (base self))) →
   (∀ graphs, fs !! output_path = Some graphs →
      process_and_save self output_name structure features annotation fs
      = match graphs with
        | [graph] => Ok (graph, fs)
        | _ => Raise (AssertionError "")
        end) ∧
   (fs !! output_path = None →
      process_and_save self output_name structure features annotation fs
      = (graph ← process self structure features annotation;
         Ok (graph, <[output_path := [graph]]> fs)))).
Proof.
  intros output_path. unfold process_and_save. fold output_path. split.
  - intros ->. reflexivity.
  - intros Hb. rewrite bool_decide_eq_true_2 by exact Hb. simpl. split.
    + intros graphs ->. destruct graphs as [|g [|g' gs]]; reflexivity.
    + intros ->. reflexivity.
Qed.

Lemma process_and_save_contract_witness :
  let self := KNN__init__ 1 None 6 4 None (mkPipelineStep (Some "out") "out/knn") in
  let cached := mkGraph 7 ∅ [(0, 1)]%nat in
  process_and_save self "img" [[0]; [1]]%Q [[]; []] (Some [0; 1]%Q)
    {[ "out/knn/img.bin" := [cached] ]}
  = Ok (cached, {[ "out/knn/img.bin" := [cached] ]}).
Proof.
  intros self cached.
  apply (proj1 (proj2 (process_and_save_contract self "img" [[0]; [1]]%Q [[]; []]
                         (Some [0; 1]%Q) {[ "out/knn/img.bin" := [cached] ]})
                 (ltac:(eexists; reflexivity)))
           [cached]).
  vm_compute. reflexivity.
Defined.

(** ** List helpers *)

Lemma elem_of_concat {A} (x : A) (ls : list (list A)) :
  x ∈ concat ls ↔ ∃ l, l ∈ ls ∧ x ∈ l.
Proof.
  rewrite list_elem_of_In, in_concat. split.
  - intros (l & Hl & Hx). exists l. rewrite !list_elem_of_In. auto.
  - intros (l & Hl & Hx). exists l. rewrite <- !list_elem_of_In. auto.
Qed.

Lemma elem_of_List_filter {A} (f : A → bool) (l : list A) (x : A) :
  x ∈ List.filter f l ↔ x ∈ l ∧ f x = true.
Proof. rewrite !list_elem_of_In. apply filter_In. Qed.

Lemma List_filter_all {A} (f : A → bool) (l : list A) :
  (∀ x, x ∈ l → f x = true) → List.filter f l = l.
Proof.
  induction l as [|x l IH]; intros Hall; simpl; [reflexivity|].
  rewrite Hall by left. f_equal. apply IH. intros y Hy. apply Hall. right. exact Hy.
Qed.

Lemma List_filter_none {A} (f : A → bool) (l : list A) :
  (∀ x, x ∈ l → f x = false) → List.filter f l = [].
Proof.
  induction l as [|x l IH]; intros Hall; simpl; [reflexivity|].
  rewrite Hall by left. apply IH. intros y Hy. apply Hall. right. exact Hy.
Qed.

(** In a list of rows made by [imap], where every element of row [j] is
    tagged with [j], the elements tagged [i] are those of row [i]. *)
Lemma filter_tag_concat_imap {A E} (tag : E → nat) (F : nat → A → list E)
    (l : list A) (i : nat) :
  (∀ j a e, e ∈ F j a → tag e = j) →
  List.filter (fun e => (tag e =? i)%nat) (concat (imap F l))
  = from_option (F i) [] (l !! i).
Proof.
  intros Htag. destruct (l !! i) as [x|] eqn:Hi; simpl.
  - rewrite <- (take_drop_middle l i x Hi) at 1.
    rewrite imap_app, concat_app. simpl. rewrite !List.filter_app.
    assert (Hlen : length (take i l) = i).
    { apply length_take_le. apply lookup_lt_Some in Hi. lia. }
    rewrite Hlen, Nat.add_0_r.
    rewrite (List_filter_none _ (concat (imap F (take i l)))).
    + rewrite (List_filter_none _ (concat (imap _ (drop (S i) l)))).
      * rewrite app_nil_r. simpl. apply List_filter_all.
        intros e He. apply Htag in He. apply Nat.eqb_eq. exact He.
      * intros e He. apply elem_of_concat in He as (r & Hr & He).
        apply elem_of_lookup_imap in Hr as (j & y & -> & _).
        apply Htag in He. apply Nat.eqb_neq. lia.
    + intros e He. apply elem_of_concat in He as (r & Hr & He).
      apply elem_of_lookup_imap in Hr as (j & y & -> & Hj).
      apply Htag in He. apply lookup_lt_Some in Hj. rewrite Hlen in Hj.
      apply Nat.eqb_neq. lia.
  - apply List_filter_none. intros e He.
    apply elem_of_concat in He as (r & Hr & He).
    apply elem_of_lookup_imap in Hr as (j & y & -> & Hj).
    apply Htag in He. apply Nat.eqb_neq. intros Heq. congruence.
Qed.

(** ** The proximity builder *)

Lemma sqdist_refl (p : list Q) : (sqdist p p == 0)%Q.
Proof.
  unfold sqdist. induction p as [|a p IH]; simpl; [reflexivity|].
  rewrite IH. ring.
Qed.

Lemma elem_of_candidates X i p j d :
  (j, d) ∈ candidates X i p ↔ j ≠ i ∧ ∃ q, X !! j = Some q ∧ d = sqdist p q.
Proof.
  unfold candidates. rewrite list_elem_of_omap. split.
  - intros ([j' q] & Hin & Hf). simpl in Hf.
    apply elem_of_lookup_imap in Hin as (j2 & q2 & [= -> ->] & Hq).
    destruct (Nat.eqb_spec j2 i) as [|Hne]; [discriminate|].
    injection Hf as <- <-. split; [exact Hne|]. exists q2. split; [exact Hq | reflexivity].
  - intros (Hne & q & Hq & ->). exists (j, q). split.
    + apply (elem_of_lookup_imap_2 pair). exact Hq.
    + simpl. destruct (Nat.eqb_spec j i) as [|_]; [contradiction | reflexivity].
Qed.

Lemma kneighbors_graph_Ok X n_neighbors adj :
  kneighbors_graph X n_neighbors = Ok adj →
  0 < n_neighbors ∧ n_neighbors + 1 ≤ Z.of_nat (length X) ∧
  adj = imap (fun i p => take (Z.to_nat n_neighbors)
                           (merge_sort nearer (candidates X i p))) X.
Proof.
  unfold kneighbors_graph. repeat case_decide; try discriminate.
  intros [= <-]. repeat split; lia.
Qed.

Lemma kneighbors_graph_row X n_neighbors adj i row :
  kneighbors_graph X n_neighbors = Ok adj → adj !! i = Some row →
  ∃ p, X !! i = Some p ∧
       row = take (Z.to_nat n_neighbors) (merge_sort nearer (candidates X i p)).
Proof.
  intros H Hrow. apply kneighbors_graph_Ok in H as (_ & _ & ->).
  rewrite list_lookup_imap in Hrow. destruct (X !! i) as [p|]; [|discriminate].
  injection Hrow as <-. exists p. split; reflexivity.
Qed.

Lemma elem_of_knn_row X i p n e :
  e ∈ take n (merge_sort nearer (candidates X i p)) → e ∈ candidates X i p.
Proof.
  intros He. rewrite <- (merge_sort_Permutation nearer).
  rewrite <- (take_drop n). apply elem_of_app. left. exact He.
Qed.

Lemma elem_of_sparse_nonzero adj i j :
  (i, j) ∈ sparse_nonzero adj ↔
  ∃ row d, adj !! i = Some row ∧ (j, d) ∈ row ∧ Qeq_bool d 0 = false.
Proof.
  unfold sparse_nonzero. rewrite elem_of_concat. split.
  - intros (r & Hr & He). apply elem_of_lookup_imap in Hr as (i' & row & -> & Hrow).
    apply list_elem_of_omap in He as ([j' d] & Hin & Hf). simpl in Hf.
    destruct (Qeq_bool d 0) eqn:Hd; [discriminate|]. injection Hf as <- <-.
    exists row, d. repeat split; assumption.
  - intros (row & d & Hrow & Hin & Hd). eexists. split.
    + apply (elem_of_lookup_imap_2 _ adj row i). exact Hrow.
    + apply list_elem_of_omap. exists (j, d). split; [exact Hin|]. simpl.
      rewrite Hd. reflexivity.
Qed.

(** Every edge of a graph built by the proximity builder joins two points
    whose stored distance is not zero. *)
Lemma KNN_edge_nonzero (self : KNNGraphBuilder) X features ann g i j :
  process self X features ann = Ok g → (i, j) ∈ edges g →
  ∃ p q, X !! i = Some p ∧ X !! j = Some q ∧ i ≠ j ∧ Qeq_bool (sqdist p q) 0 = false.
Proof.
  intros Hp Hin. apply process_Ok in Hp as (g2 & g3 & Hc & Hl & Ht).
  simpl in Hc, Hl, Ht. apply ndata_set_Ok in Hc as [_ ->].
  assert (edges g3 = []) as Hg3.
  { destruct ann; [apply ndata_set_Ok in Hl as [_ ->] | subst g3]; reflexivity. }
  unfold KNN_build_topology in Ht. inv_bind Ht.
  apply add_edges_list_Ok in Ht as [_ ->]. simpl in Hin. rewrite Hg3 in Hin. simpl in Hin.
  assert (Hnz : (i, j) ∈ sparse_nonzero a).
  { destruct (thresh self); [|exact Hin]. apply elem_of_List_filter in Hin as [Hin _].
    exact Hin. }
  apply elem_of_sparse_nonzero in Hnz as (row & d & Hrow & Hjd & Hd).
  destruct (kneighbors_graph_row _ _ _ _ _ Hstep Hrow) as (p & Hp & ->).
  apply elem_of_knn_row, elem_of_candidates in Hjd as (Hne & q & Hq & ->).
  exists p, q. repeat split; auto.
Qed.

(** C9 — coincident points are never joined.  In a graph built by the
    proximity builder, with or without a threshold, there is no edge between
    two input points that have the same coordinates: their distance entry in
    the k-nearest-neighbour matrix is zero and [nonzero] drops it. *)
Theorem KNN_no_edge_between_coincident_points (self : KNNGraphBuilder)
    (centroids features : list (list Q)) (annotation : option (list Q))
    (g : DGLGraph) (i j : nat) (p : list Q) :
  process self centroids features annotation = Ok g →
  centroids !! i = Some p → centroids !! j = Some p →
  (i, j) ∉ edges g.
Proof.
  intros Hp Hi Hj Hin.
  destruct (KNN_edge_nonzero _ _ _ _ _ _ _ Hp Hin) as (p' & q' & Hi' & Hj' & _ & Hd).
  rewrite Hi in Hi'. rewrite Hj in Hj'. injection Hi' as <-. injection Hj' as <-.
  assert (Qeq_bool (sqdist p p) 0 = true) as Ht.
  { apply Qeq_bool_iff, sqdist_refl. }
  congruence.
Qed.

Lemma KNN_no_edge_between_coincident_points_witness :
  ∃ g, process (KNN__init__ 1 None 6 4 None (mkPipelineStep None ""))
         [[0; 0]; [0; 0]; [5; 5]]%Q [[]; []; []] None = Ok g
       ∧ (0, 1)%nat ∉ edges g.
Proof.
  eexists. split.
  - vm_compute. reflexivity.
  - apply (KNN_no_edge_between_coincident_points
             (KNN__init__ 1 None 6 4 None (mkPipelineStep None ""))
             [[0; 0]; [0; 0]; [5; 5]]%Q [[]; []; []] None _ 0%nat 1%nat [0; 0]%Q);
      vm_compute; reflexivity.
Defined.

(** The proximity builder never emits a self-loop. *)
Lemma KNN_no_self_loop (self : KNNGraphBuilder) X features ann g i :
  process self X features ann = Ok g → (i, i) ∉ edges g.
Proof.
  intros Hp Hin.
  destruct (KNN_edge_nonzero _ _ _ _ _ _ _ Hp Hin) as (_ & _ & _ & _ & Hne & _).
  apply Hne. reflexivity.
Qed.

Lemma length_omap_le {A B} (f : A → option B) (l : list A) :
  (length (omap f l) ≤ length l)%nat.
Proof.
  induction l as [|x l IH]; simpl; [lia|].
  change (list_omap A B f l) with (omap f l). destruct (f x); simpl; lia.
Qed.

Lemma length_omap_all {A B} (f : A → option B) (l : list A) :
  (∀ x, x ∈ l → is_Some (f x)) → length (omap f l) = length l.
Proof.
  induction l as [|x l IH]; intros Hall; simpl; [reflexivity|].
  change (list_omap A B f l) with (omap f l).
  destruct (Hall x) as [y ->]; [left|]. simpl. f_equal. apply IH.
  intros z Hz. apply Hall. right. exact Hz.
Qed.

Lemma omap_none {A B} (f : A → option B) (l : list A) :
  (∀ x, x ∈ l → f x = None) → omap f l = [].
Proof.
  induction l as [|x l IH]; intros Hall; simpl; [reflexivity|].
  change (list_omap A B f l) with (omap f l).
  rewrite (Hall x) by left. apply IH. intros z Hz. apply Hall. right. exact Hz.
Qed.

Lemma length_candidates X i p x :
  X !! i = Some x → length (candidates X i p) = (length X - 1)%nat.
Proof.
  intros Hi. unfold candidates.
  rewrite <- (take_drop_middle X i x Hi) at 1.
  assert (Hlen : length (take i X) = i).
  { apply length_take_le. apply lookup_lt_Some in Hi. lia. }
  rewrite imap_app, omap_app. simpl. rewrite Hlen, Nat.add_0_r, Nat.eqb_refl.
  rewrite length_app, !length_omap_all.
  - rewrite !length_imap, Hlen, length_drop. apply lookup_lt_Some in Hi. lia.
  - intros [j q] Hin. apply elem_of_lookup_imap in Hin as (j' & q' & [= -> ->] & _).
    simpl. destruct (Nat.eqb_spec (i + S j') i); [lia | eexists; reflexivity].
  - intros [j q] Hin. apply elem_of_lookup_imap in Hin as (j' & q' & [= -> ->] & Hj).
    apply lookup_lt_Some in Hj. rewrite Hlen in Hj.
    simpl. destruct (Nat.eqb_spec j' i); [lia | eexists; reflexivity].
Qed.

Lemma out_edges_sparse_nonzero adj i :
  List.filter (fun e : nat * nat => (e.1 =? i)%nat) (sparse_nonzero adj)
  = from_option (omap (knn_entry_edge i)) [] (adj !! i).
Proof.
  unfold sparse_nonzero.
  apply (filter_tag_concat_imap fst (fun i row => omap (knn_entry_edge i) row)).
  intros j row e He. apply list_elem_of_omap in He as ([c d] & _ & Hf).
  unfold knn_entry_edge in Hf. simpl in Hf.
  destruct (Qeq_bool d 0); [discriminate|]. injection Hf as <-. reflexivity.
Qed.

(** C5, counterexample: with [k = 1] and three points of which the first two
    coincide, the build succeeds, [N - 1 = 2] is not below [k], and yet the
    first node has no outgoing edge; and with two points and [k = 5] the build
    does not return a graph with fewer edges, it fails. *)
Lemma KNN_out_degree_not_k :
  (∃ g, process (KNN__init__ 1 None 6 4 None (mkPipelineStep None ""))
          [[0; 0]; [0; 0]; [5; 5]]%Q [[]; []; []] None = Ok g
        ∧ out_degree g 0 = 0%nat) ∧
  process (KNN__init__ 5 None 6 4 None (mkPipelineStep None ""))
    [[0; 0]; [1; 0]]%Q [[]; []] None = Raise ValueError.
Proof.
  split.
  - eexists. split; vm_compute; reflexivity.
  - vm_compute. reflexivity.
Qed.

(** C5, amended — out-degrees of the proximity builder without threshold.
    A build only returns a graph when [1 <= k <= N - 1] (otherwise the
    neighbour search raises); in the returned graph every node has at most
    [k] outgoing edges.  The out-degree can be below [k]: each of the [k]
    selected neighbours whose stored distance is zero is dropped by
    [nonzero]. *)
Theorem KNN_out_degree_bound (self : KNNGraphBuilder)
    (centroids features : list (list Q)) (annotation : option (list Q))
    (g : DGLGraph) :
  thresh self = None →
  process self centroids features annotation = Ok g →
  1 ≤ k self ≤ Z.of_nat (length centroids) - 1 ∧
  ∀ i, Z.of_nat (out_degree g i) ≤ k self.
Proof.
  intros Hth Hp. apply process_Ok in Hp as (g2 & g3 & Hc & Hl & Ht).
  simpl in Hc, Hl, Ht. apply ndata_set_Ok in Hc as [_ ->].
  assert (edges g3 = []) as Hg3.
  { destruct annotation; [apply ndata_set_Ok in Hl as [_ ->] | subst g3]; reflexivity. }
  unfold KNN_build_topology in Ht. rewrite Hth in Ht. inv_bind Ht.
  apply add_edges_list_Ok in Ht as [_ ->].
  destruct (kneighbors_graph_Ok _ _ _ Hstep) as (Hk0 & HkN & Hadj).
  split; [lia|]. intros i.
  unfold out_degree. simpl. rewrite Hg3. simpl.
  rewrite out_edges_sparse_nonzero.
  destruct (a !! i) as [row|] eqn:Hrow; simpl; [|lia].
  rewrite Hadj, list_lookup_imap in Hrow.
  destruct (centroids !! i) as [p|]; [|discriminate Hrow].
  injection Hrow as <-.
  pose proof (length_omap_le (knn_entry_edge i)
                (take (Z.to_nat (k self))
                   (merge_sort nearer (candidates centroids i p)))) as Hle.
  rewrite length_take in Hle. lia.
Qed.

Lemma KNN_out_degree_bound_witness :
  ∃ g, process (KNN__init__ 2 None 6 4 None (mkPipelineStep None ""))
         [[0; 0]; [1; 0]; [0; 1]; [10; 10]]%Q [[]; []; []; []] None = Ok g
       ∧ 1 ≤ 2 ≤ 4 - 1 ∧ Z.of_nat (out_degree g 3) ≤ 2.
Proof.
  eexists. split.
  - vm_compute. reflexivity.
  - pose proof (KNN_out_degree_bound
                  (KNN__init__ 2 None 6 4 None (mkPipelineStep None ""))
                  [[0; 0]; [1; 0]; [0; 1]; [10; 10]]%Q [[]; []; []; []] None _
                  eq_refl eq_refl) as [Hk Hdeg].
    split; [exact Hk | exact (Hdeg 3%nat)].
Defined.

(** ** The region-adjacency builder on concrete maps *)

(** C1 — no self-loops.  The claim fails for the region-adjacency builder:
    on the one-row map [1 0] (a single region next to a background pixel,
    3x3 kernel, one hop) the build returns a graph whose only edge is the
    self-loop [(0, 0)].  The background id found under the ring is
    decremented to [-1], which numpy reads as the last column. *)
Theorem RAG_self_loop_next_to_background :
  process (mkRAG (Base__init__ 6 4 None (mkPipelineStep None "")) 3 1)
    [[1; 0]] [[1 # 2]]%Q None
  = Ok (mkGraph 1
          {[ FEATURES := FloatTensor2 [[1 # 2]]%Q;
             CENTROID := FloatTensor2 [[0; 0]]%Q ]}
          [(0, 0)%nat]).
Proof. vm_compute. reflexivity. Qed.

(** The graph returned by [process] does not depend on the hop count: the
    graphs made by [two_hop_neighborhood] only ever reach a local name. *)
Lemma RAG_build_topology_ignores_hops base ks h h' im g :
  RAG_build_topology (mkRAG base ks h) im g
  = RAG_build_topology (mkRAG base ks h') im g.
Proof.
  unfold RAG_build_topology, RAG_build_topology_locals. simpl.
  destruct (np_ones_kernel ks) as [ksize|]; simpl; [|reflexivity].
  destruct (RAG_adjacency im ksize) as [adjacency|]; simpl; [|reflexivity].
  destruct (add_edges _ _ g); reflexivity.
Qed.

Lemma RAG_process_ignores_hops base ks h h' im features ann :
  process (mkRAG base ks h) im features ann
  = process (mkRAG base ks h') im features ann.
Proof.
  unfold process. destruct (_set_node_features _ _) as [g1|]; simpl; [|reflexivity].
  destruct (RAG_set_node_centroids im g1) as [g2|]; simpl; [|reflexivity].
  destruct ann as [ann|]; simpl.
  - change (RAG_set_node_labels (mkRAG base ks h') im ann g2)
      with (RAG_set_node_labels (mkRAG base ks h) im ann g2).
    destruct (RAG_set_node_labels _ im ann g2) as [g3|]; simpl; [|reflexivity].
    apply RAG_build_topology_ignores_hops.
  - apply RAG_build_topology_ignores_hops.
Qed.

(** C4 — multi-hop expansion.  The claim fails on the row of three regions
    [1 2 3] with a 3x3 kernel and two hops: regions 1 and 3 are two steps
    apart, so the multi-hop matrix of the specification has the entry
    [(0, 2)], and the graph left in the local name of [_build_topology] has
    this edge, but the graph returned by the build holds the 1-hop edges
    only. *)
Theorem RAG_two_hops_not_returned :
  let self := mkRAG (Base__init__ 6 4 None (mkPipelineStep None "")) 3 2 in
  let features := [[0]; [0]; [0]]%Q in
  ∃ A g local_graph,
    RAG_adjacency [[1; 2; 3]] 3 = Ok A ∧
    spec_multi_hop_edge A 2 0 2 ∧
    process self [[1; 2; 3]] features None = Ok g ∧
    edges g = [(0, 1); (1, 0); (1, 2); (2, 1)]%nat ∧
    ((0, 2)%nat ∉ edges g) ∧
    RAG_build_topology_locals self [[1; 2; 3]]
      (mkGraph 3 (ndata g) []) = Ok (g, local_graph) ∧
    (0, 2)%nat ∈ edges local_graph.
Proof.
  intros self features. eexists _, _, _.
  split; [vm_compute; reflexivity|].
  split; [split; [discriminate | vm_compute; discriminate]|].
  split; [vm_compute; reflexivity|].
  split; [reflexivity|].
  split.
  - simpl. rewrite list_elem_of_In. simpl. intros H.
    repeat (destruct H as [H|H]; [discriminate H|]). exact H.
  - split; [vm_compute; reflexivity|].
    rewrite list_elem_of_In. simpl. tauto.
Qed.

(** ** Label aggregation *)

Lemma np_index_Ok n i j : np_index n i = Ok j → (j < n)%nat.
Proof.
  unfold np_index. repeat case_decide; intros [= <-]; lia.
Qed.

Lemma np_set_Ok {A} (a : list A) i v a' :
  np_set a i v = Ok a' →
  ∃ j, np_index (length a) i = Ok j ∧ (j < length a)%nat ∧ a' = <[j := v]> a.
Proof.
  unfold np_set. intros H. inv_bind H. injection H as <-.
  exists a0. split; [assumption|]. split; [|reflexivity].
  eapply np_index_Ok. eassumption.
Qed.

(** [np.argmax] returns a position of the maximum, and the first one. *)
Lemma np_argmax_from_spec l : ∀ best_i best i,
  let m := np_argmax_from best_i best i l in
  (m = best_i ∧ ∀ j v, l !! j = Some v → v ≤ best) ∨
  (∃ j v, m = (i + j)%nat ∧ l !! j = Some v ∧ best < v ∧
          (∀ j' v', l !! j' = Some v' → v' ≤ v) ∧
          (∀ j' v', (j' < j)%nat → l !! j' = Some v' → v' < v)).
Proof.
  induction l as [|x l IH]; intros best_i best i; simpl.
  - left. split; [reflexivity|]. intros j v Hj. destruct j; discriminate.
  - destruct (Z.ltb_spec best x) as [Hlt|Hge].
    + right. destruct (IH i x (S i)) as [[Hm Hall]|(j & v & Hm & Hj & Hv & Hall & Hfirst)].
      * exists 0%nat, x. split; [simpl in Hm; lia|]. split; [reflexivity|].
        split; [exact Hlt|]. split.
        -- intros [|j'] v' Hj'; simpl in Hj'; [injection Hj' as <-; lia | eauto].
        -- intros j' v' Hlt'. lia.
      * exists (S j), v. split; [simpl in Hm; lia|]. split; [exact Hj|].
        split; [lia|]. split.
        -- intros [|j'] v' Hj'; simpl in Hj'; [injection Hj' as <-; lia | eauto].
        -- intros [|j'] v' Hlt' Hj'; simpl in Hj'; [injection Hj' as <-; lia|].
           eapply Hfirst; [|exact Hj']. lia.
    + destruct (IH best_i best (S i)) as [[Hm Hall]|(j & v & Hm & Hj & Hv & Hall & Hfirst)].
      * left. split; [exact Hm|].
        intros [|j'] v' Hj'; simpl in Hj'; [injection Hj' as <-; lia | eauto].
      * right. exists (S j), v. split; [simpl in Hm; lia|]. split; [exact Hj|].
        split; [lia|]. split.
        -- intros [|j'] v' Hj'; simpl in Hj'; [injection Hj' as <-; lia | eauto].
        -- intros [|j'] v' Hlt' Hj'; simpl in Hj'; [injection Hj' as <-; lia|].
           eapply Hfirst; [|exact Hj']. lia.
Qed.

Lemma np_argmax_spec l m :
  np_argmax l = Ok m →
  ∃ v, l !! m = Some v ∧
       (∀ j v', l !! j = Some v' → v' ≤ v) ∧
       (∀ j v', (j < m)%nat → l !! j = Some v' → v' < v).
Proof.
  destruct l as [|x l]; simpl; [discriminate|]. intros [= <-].
  destruct (np_argmax_from_spec l 0%nat x 1%nat)
    as [[Hm Hall]|(j & v & Hm & Hj & Hv & Hall & Hfirst)];
    simpl in Hm; rewrite Hm.
  - exists x. split; [reflexivity|]. split.
    + intros [|j] v' Hj; simpl in Hj; [injection Hj as <-; lia | eauto].
    + intros j v' Hlt. lia.
  - exists v. split; [exact Hj|]. split.
    + intros [|j'] v' Hj'; simpl in Hj'; [injection Hj' as <-; lia | eauto].
    + intros [|j'] v' Hlt Hj'; simpl in Hj'; [injection Hj' as <-; lia|].
      eapply Hfirst; [|exact Hj']. lia.
Qed.

Lemma select_row_all {A} (l : list A) :
  select_row l (replicate (length l) true) = l.
Proof.
  unfold select_row. induction l as [|x l IH]; simpl; [reflexivity|].
  f_equal. exact IH.
Qed.

(** Selecting with a mask that is false at one position only deletes that
    position. *)
Lemma select_row_delete {A} (l : list A) (i : nat) :
  select_row l (<[i := false]> (replicate (length l) true)) = delete i l.
Proof.
  revert i. induction l as [|x l IH]; intros i; [reflexivity|].
  destruct i as [|i]; simpl.
  - apply (select_row_all l).
  - unfold select_row in *. simpl. f_equal. apply IH.
Qed.

Lemma fast_histogram_nonneg values nr_values :
  Forall (fun c => 0 ≤ c) (fast_histogram values nr_values).
Proof.
  unfold fast_histogram. apply Forall_forall. intros c Hc.
  apply list_elem_of_In, in_map_iff in Hc as (i & <- & _). lia.
Qed.

Lemma np_sum_positive_entry l :
  Forall (fun c => 0 ≤ c) l → np_sum l ≠ 0 → ∃ j v, l !! j = Some v ∧ 0 < v.
Proof.
  induction 1 as [|x l Hx Hl IH]; simpl; intros Hs; [contradiction|].
  destruct (decide (x = 0)) as [->|Hx0].
  - destruct IH as (j & v & Hj & Hv); [exact Hs|]. exists (S j), v. split; assumption.
  - exists 0%nat, x. split; [reflexivity | lia].
Qed.

(** The rule that the body of the loop of [_set_node_labels] follows.  For
    every region whose assignment is computed: when the histogram of its
    annotation pixels sums to zero outside the background bin, the
    assignment is the background class; otherwise the assignment is a bin
    other than the background bin, holding the largest count among the
    non-background bins, and the first such bin. *)
Lemma region_assignment_rule (self : BaseGraphBuilder)
    (instance_map annotation : list (list Z)) (region_label assignment : Z) :
  region_assignment self instance_map annotation region_label = Ok assignment →
  ∃ pixels bg,
    np_bool_index annotation (np_eq_scalar instance_map region_label) = Ok pixels ∧
    let histogram := fast_histogram pixels (nr_classes self) in
    np_index (length histogram) (background_class self) = Ok bg ∧
    (np_sum (delete bg histogram) = 0 → assignment = background_class self) ∧
    (np_sum (delete bg histogram) ≠ 0 →
     ∃ m c, assignment = Z.of_nat m ∧ m ≠ bg ∧ histogram !! m = Some c ∧
            ∀ j c', j ≠ bg → histogram !! j = Some c' →
                    c' ≤ c ∧ ((j < m)%nat → c' < c)).
Proof.
  unfold region_assignment, label_of_histogram. intros H. inv_bind H.
  rename a into pixels. exists pixels.
  apply np_set_Ok in Hstep0 as (bg & Hbg & Hlt & ->).
  rewrite length_replicate in Hbg, Hlt. exists bg.
  split; [exact Hstep|]. simpl. split; [exact Hbg|].
  set (histogram := fast_histogram pixels (nr_classes self)) in *.
  rewrite select_row_delete in H.
  destruct (Z.eqb_spec (np_sum (delete bg histogram)) 0) as [Hz|Hnz].
  - injection H as <-. split; [reflexivity | contradiction].
  - split; [contradiction|]. intros _. inv_bind H. injection H as <-.
    apply np_set_Ok in Hstep0 as (bg' & Hbg' & _ & ->).
    rewrite Hbg in Hbg'. injection Hbg' as <-.
    apply np_argmax_spec in Hstep1 as (v & Hm & Hmax & Hfirst).
    destruct (np_sum_positive_entry (delete bg histogram)) as (j0 & v0 & Hj0 & Hv0).
    { apply Forall_delete, fast_histogram_nonneg. }
    { exact Hnz. }
    rewrite list_lookup_delete in Hj0.
    set (j1 := if decide (j0 < bg)%nat then j0 else S j0) in Hj0.
    assert (Hj1 : j1 ≠ bg) by (unfold j1; case_decide; lia).
    assert (Hvpos : 0 < v).
    { specialize (Hmax j1 v0). rewrite list_lookup_insert_ne in Hmax by auto.
      specialize (Hmax Hj0). lia. }
    assert (Hne : a0 ≠ bg).
    { intros ->. rewrite list_lookup_insert_eq in Hm by exact Hlt.
      injection Hm as <-. lia. }
    rewrite list_lookup_insert_ne in Hm by auto.
    exists a0, v. split; [reflexivity|]. split; [exact Hne|]. split; [exact Hm|].
    intros j c' Hj Hc'. split.
    + apply (Hmax j). rewrite list_lookup_insert_ne by auto. exact Hc'.
    + intros Hlt'. apply (Hfirst j); [exact Hlt'|].
      rewrite list_lookup_insert_ne by auto. exact Hc'.
Qed.

(** ** The adjacency matrix of the region-adjacency builder *)

Lemma elem_of_np_nonzero2 a i j :
  (i, j) ∈ np_nonzero2 a ↔ ∃ row v, a !! i = Some row ∧ row !! j = Some v ∧ v ≠ 0.
Proof.
  unfold np_nonzero2, nonzero_row. rewrite elem_of_concat. split.
  - intros (r & Hr & He). apply elem_of_lookup_imap in Hr as (i' & row & -> & Hrow).
    apply list_elem_of_omap in He as ([j' v] & Hin & Hf). simpl in Hf.
    apply elem_of_lookup_imap in Hin as (j2 & v2 & [= -> ->] & Hv).
    destruct (Z.eqb_spec v2 0) as [|Hne]; [discriminate|]. injection Hf as <- <-.
    exists row, v2. repeat split; assumption.
  - intros (row & v & Hrow & Hv & Hne). eexists. split.
    + apply (elem_of_lookup_imap_2 _ a row i). exact Hrow.
    + apply list_elem_of_omap. exists (j, v). split.
      * apply (elem_of_lookup_imap_2 pair). exact Hv.
      * simpl. destruct (Z.eqb_spec v 0); [contradiction | reflexivity].
Qed.

Lemma matrix_entry_Some a i j row v :
  a !! i = Some row → row !! j = Some v → matrix_entry a i j = v.
Proof. unfold matrix_entry. intros -> ?. simpl. rewrite H. reflexivity. Qed.

Lemma matrix_entry_nonzero a i j :
  matrix_entry a i j ≠ 0 → (i, j) ∈ np_nonzero2 a.
Proof.
  unfold matrix_entry. intros Hne. apply elem_of_np_nonzero2.
  destruct (a !! i) as [row|] eqn:Hrow; simpl in Hne; [|contradiction].
  destruct (row !! j) as [v|] eqn:Hv; simpl in Hne; [|contradiction].
  exists row, v. repeat split; assumption.
Qed.

Lemma map_result_Ok {A B} (f : A → result B) xs ys :
  map_result f xs = Ok ys → Forall2 (fun x y => f x = Ok y) xs ys.
Proof.
  revert ys. induction xs as [|x xs IH]; simpl; intros ys H.
  - injection H as <-. constructor.
  - inv_bind H. injection H as <-. constructor; [assumption | apply IH; assumption].
Qed.

Lemma length_set_cols v cs row : length (set_cols v cs row) = length row.
Proof.
  induction cs as [|c cs IH]; simpl; [reflexivity|]. rewrite length_insert. exact IH.
Qed.

Lemma set_cols_lookup_in v cs row c :
  c ∈ cs → (c < length row)%nat → set_cols v cs row !! c = Some v.
Proof.
  induction cs as [|c' cs IH]; intros Hin Hlt; [inversion Hin|]. simpl.
  destruct (decide (c' = c)) as [->|Hne].
  - apply list_lookup_insert_eq. rewrite length_set_cols. exact Hlt.
  - rewrite list_lookup_insert_ne by exact Hne. apply IH; [|exact Hlt].
    apply elem_of_cons in Hin as [->|Hin]; [contradiction | exact Hin].
Qed.

Lemma set_cols_lookup_keep v cs row j :
  row !! j = Some v → set_cols v cs row !! j = Some v.
Proof.
  intros Hj. induction cs as [|c cs IH]; simpl; [exact Hj|].
  destruct (decide (c = j)) as [->|Hne].
  - apply list_lookup_insert_eq. rewrite length_set_cols.
    apply lookup_lt_Some in Hj. exact Hj.
  - rewrite list_lookup_insert_ne by exact Hne. exact IH.
Qed.

Lemma square_zeros n : square n (np_zeros2 n n).
Proof.
  split; [apply length_replicate|]. apply Forall_lookup_2. intros i row Hrow.
  apply lookup_replicate in Hrow as [-> _]. apply length_replicate.
Qed.

(** One iteration of the loop: [adjacency[i, idx] = 1] on an [n x n] matrix
    sets the entries of row [i] at the columns [idx], both read as numpy
    indices, and keeps every entry that was already one. *)
Lemma np_set_row_cols_Ok a n i idx a' :
  square n a → np_set_row_cols a n i idx 1 = Ok a' →
  square n a' ∧
  (∀ x y, matrix_entry a x y = 1 → matrix_entry a' x y = 1) ∧
  ∃ ri, np_index n i = Ok ri ∧
        ∀ c, c ∈ idx → ∃ ci, np_index n c = Ok ci ∧ matrix_entry a' ri ci = 1.
Proof.
  intros [Hlen Hrows] H. unfold np_set_row_cols in H. inv_bind H.
  injection H as <-. rename a0 into ri. rename a1 into cs. rewrite Hlen in Hstep.
  apply map_result_Ok in Hstep0.
  fold (set_cols 1 cs). split; [|split].
  - split; [rewrite length_alter; exact Hlen|].
    apply Forall_alter; [exact Hrows|]. intros row _ Hrow.
    rewrite length_set_cols. exact Hrow.
  - intros x y. unfold matrix_entry. destruct (decide (ri = x)) as [->|Hne].
    + rewrite list_lookup_alter_eq. destruct (a !! x) as [row|]; simpl; [|discriminate].
      destruct (row !! y) as [v|] eqn:Hy; simpl; [|discriminate]. intros ->.
      rewrite (set_cols_lookup_keep 1 cs row y Hy). reflexivity.
    + rewrite list_lookup_alter_ne by exact Hne. tauto.
  - exists ri. split; [exact Hstep|]. intros c Hc.
    apply list_elem_of_lookup in Hc as (pos & Hpos).
    destruct (Forall2_lookup_l _ _ _ _ _ Hstep0 Hpos) as (ci & Hci & Hf).
    exists ci. split; [exact Hf|].
    pose proof (np_index_Ok _ _ _ Hstep) as Hri.
    pose proof (np_index_Ok _ _ _ Hf) as Hcin.
    destruct (lookup_lt_is_Some_2 a ri) as [row Hrow]; [lia|].
    apply (matrix_entry_Some _ _ _ (set_cols 1 cs row)).
    + rewrite list_lookup_alter_eq, Hrow. reflexivity.
    + apply set_cols_lookup_in.
      * apply list_elem_of_lookup. exists pos. exact Hci.
      * rewrite (Forall_lookup_1 _ _ _ _ Hrows Hrow). exact Hcin.
Qed.

Lemma RAG_adjacency_loop im ksize n ids : ∀ a a',
  square n a →
  for_each ids (fun instance_id adjacency =>
      np_set_row_cols adjacency n (instance_id - 1)
        (map (fun i => i - 1) (ring_ids im ksize instance_id)) 1) a = Ok a' →
  square n a' ∧
  (∀ x y, matrix_entry a x y = 1 → matrix_entry a' x y = 1) ∧
  ∀ r c, r ∈ ids → c ∈ ring_ids im ksize r →
    ∃ ri ci, np_index n (r - 1) = Ok ri ∧ np_index n (c - 1) = Ok ci ∧
             matrix_entry a' ri ci = 1.
Proof.
  induction ids as [|id ids IH]; intros a a' Hsq H; simpl in H.
  - injection H as <-. split; [exact Hsq|]. split; [tauto|].
    intros r c Hr. inversion Hr.
  - inv_bind H. rename a0 into a1.
    destruct (np_set_row_cols_Ok _ _ _ _ _ Hsq Hstep) as (Hsq1 & Hmono1 & ri & Hri & Hcols).
    destruct (IH _ _ Hsq1 H) as (Hsq' & Hmono & Hrest).
    split; [exact Hsq'|]. split; [intros x y Hxy; apply Hmono, Hmono1, Hxy|].
    intros r c Hr Hc. apply elem_of_cons in Hr as [->|Hr]; [|apply Hrest; assumption].
    destruct (Hcols (c - 1)) as (ci & Hci & He).
    { apply list_elem_of_In, in_map_iff. exists c. split; [reflexivity|].
      apply list_elem_of_In. exact Hc. }
    exists ri, ci. split; [exact Hri|]. split; [exact Hci|]. apply Hmono, He.
Qed.

Lemma instance_ids_of_filter im :
  instance_ids_of im
  = List.filter (fun y => negb (y =? 0)) (np_sort (pd_unique (np_ravel im))).
Proof.
  unfold instance_ids_of, np_delete_where_eq. case_bool_decide as H0; [reflexivity|].
  symmetry. apply List_filter_all. intros x Hx.
  destruct (Z.eqb_spec x 0) as [->|]; [contradiction | reflexivity].
Qed.

(** Two filters of one list, the first at least as strict as the second:
    when they keep the same number of elements they keep the same ones. *)
Lemma filter_length_squeeze {A} (f g : A → bool) (l : list A) :
  (∀ x, f x = true → g x = true) →
  (length (List.filter f l) ≤ length (List.filter g l))%nat ∧
  ((length (List.filter g l) ≤ length (List.filter f l))%nat →
   ∀ x, x ∈ l → g x = true → f x = true).
Proof.
  intros Hfg. induction l as [|x l [IHle IHeq]]; simpl.
  - split; [lia|]. intros _ x Hx. inversion Hx.
  - destruct (f x) eqn:Hf, (g x) eqn:Hg; simpl.
    + split; [lia|]. intros Hle y Hy Hgy.
      apply elem_of_cons in Hy as [->|Hy]; [exact Hf | apply IHeq; [lia | assumption..]].
    + rewrite (Hfg x Hf) in Hg. discriminate.
    + split; [lia|]. intros Hle. lia.
    + split; [lia|]. intros Hle y Hy Hgy.
      apply elem_of_cons in Hy as [->|Hy]; [congruence | apply IHeq; assumption].
Qed.

(** C8 — background under the ring.  In a graph returned by the
    region-adjacency builder, a region [r] whose boundary ring covers a
    background pixel (id 0) has the entry of its row at column index [-1],
    that is at the last column [N - 1], set in the adjacency matrix, and the
    graph has the directed edge from the node [r - 1] of the region to the
    last node [N - 1]. *)
Theorem RAG_background_edge_to_last_node (self : RAGGraphBuilder)
    (instance_map : list (list Z)) (features : list (list Q))
    (annotation : option (list (list Z))) (g : DGLGraph) (ksize : nat) (r : Z) :
  process self instance_map features annotation = Ok g →
  np_ones_kernel (kernel_size self) = Ok ksize →
  r ∈ instance_ids_of instance_map →
  0 ∈ ring_ids instance_map ksize r →
  let N := number_of_nodes g in
  ∃ adjacency,
    RAG_adjacency instance_map ksize = Ok adjacency ∧
    square N adjacency ∧
    np_index N (0 - 1) = Ok (N - 1)%nat ∧
    1 ≤ r ≤ Z.of_nat N ∧
    matrix_entry adjacency (Z.to_nat (r - 1)) (N - 1) = 1 ∧
    (Z.to_nat (r - 1), (N - 1)%nat) ∈ edges g.
Proof.
  intros Hp Hk Hr Hring N.
  apply process_Ok in Hp as (g2 & g3 & Hc & Hl & Ht). simpl in Hc, Hl, Ht.
  apply ndata_set_Ok in Hc as [Hcs ->]. simpl in Hcs.
  assert (Hg3 : number_of_nodes g3 = length features ∧ edges g3 = []).
  { destruct annotation as [ann|]; [|subst g3; split; reflexivity].
    apply RAG_set_node_labels_Ok in Hl as (labels & _ & Hl).
    apply ndata_set_Ok in Hl as [_ ->]. split; reflexivity. }
  destruct Hg3 as [HN3 He3].
  apply RAG_build_topology_Ok in Ht as (ksize' & adj & Hk' & Hadj & Hrange & ->).
  rewrite Hk in Hk'. injection Hk' as <-.
  subst N. simpl. rewrite HN3, He3 in *. simpl.
  set (N := length features) in *.
  pose proof Hadj as Hloop. unfold RAG_adjacency in Hloop.
  set (n := length (instance_ids_of instance_map)) in *.
  apply (RAG_adjacency_loop instance_map ksize n) in Hloop
      as (Hsq & _ & Hentries); [|apply square_zeros].
  destruct (Hentries r 0 Hr Hring) as (ri & ci & Hri & Hci & Hone).
  pose proof (np_index_Ok _ _ _ Hri) as Hri_lt.
  (* column -1 is the last column *)
  assert (Hci_last : ci = (n - 1)%nat).
  { unfold np_index in Hci. repeat case_decide; try discriminate; injection Hci as <-; lia. }
  (* the edge is emitted, hence in range *)
  assert (Hedge : (ri, ci) ∈ np_nonzero2 adj).
  { apply matrix_entry_nonzero. rewrite Hone. discriminate. }
  pose proof Hedge as Hin_range.
  apply (proj1 (Forall_forall _ _) Hrange) in Hin_range as [_ Hci_N]. simpl in Hci_N.
  (* the numbers of non-zero and of positive ids agree *)
  rewrite length_map in Hcs. unfold regionprops in Hcs. rewrite length_map in Hcs.
  fold N in Hcs.
  pose proof (instance_ids_of_filter instance_map) as Hids.
  destruct (filter_length_squeeze (fun v => 0 <? v) (fun y => negb (y =? 0))
              (np_sort (pd_unique (np_ravel instance_map)))) as [Hle Hpos].
  { intros x Hx. apply Z.ltb_lt in Hx. destruct (Z.eqb_spec x 0); [lia | reflexivity]. }
  rewrite <- Hids in Hle, Hpos. fold n in Hle, Hpos. rewrite Hcs in Hle, Hpos.
  assert (HnN : n = N) by lia.
  assert (Hrpos : 0 < r).
  { rewrite Hids in Hr. apply elem_of_List_filter in Hr as [Hr Hr0].
    apply Z.ltb_lt. apply Hpos; [lia | exact Hr | exact Hr0]. }
  assert (Hri_eq : ri = Z.to_nat (r - 1)).
  { unfold np_index in Hri. repeat case_decide; try discriminate; injection Hri as <-; lia. }
  subst ri ci. rewrite HnN in *.
  exists adj. split; [exact Hadj|]. split; [exact Hsq|]. split; [exact Hci|].
  split; [lia|]. split; [exact Hone|]. exact Hedge.
Qed.

Lemma RAG_background_edge_to_last_node_witness :
  ∃ g, process (mkRAG (Base__init__ 6 4 None (mkPipelineStep None "")) 3 1)
         [[1; 2; 0]; [3; 3; 3]] [[0]; [0]; [0]]%Q None = Ok g
       ∧ (Z.to_nat (2 - 1), (number_of_nodes g - 1)%nat) ∈ edges g.
Proof.
  eexists. split.
  - vm_compute. reflexivity.
  - lazymatch goal with
    | |- _ ∈ edges ?g =>
        destruct (RAG_background_edge_to_last_node
                    (mkRAG (Base__init__ 6 4 None (mkPipelineStep None "")) 3 1)
                    [[1; 2; 0]; [3; 3; 3]] [[0]; [0]; [0]]%Q None g 3%nat 2)
          as (adj & _ & _ & _ & _ & _ & Hedge)
    end.
    + vm_compute. reflexivity.
    + reflexivity.
    + apply list_elem_of_In. vm_compute. tauto.
    + apply list_elem_of_In. vm_compute. tauto.
    + exact Hedge.
Defined.

(** ** The store: objects present before a call are never written *)

Lemma keeps_ret {A} h0 (v : A) (Q : A → Prop) : Q v → keeps h0 (mret v) Q.
Proof. intros HQ h Hh. split; [exact Hh|]. intros v' [= <-]. exact HQ. Qed.

Lemma keeps_raise {A} h0 e (Q : A → Prop) : keeps h0 (raise e) Q.
Proof. intros h Hh. split; [exact Hh|]. intros v [=]. Qed.

Lemma keeps_lift {A} h0 (r : result A) : keeps h0 (lift r) (fun _ => True).
Proof. intros h Hh. split; [exact Hh | auto]. Qed.

Lemma keeps_bind {A B} h0 (m : St A) (f : A → St B) Q R :
  keeps h0 m Q → (∀ a, Q a → keeps h0 (f a) R) → keeps h0 (a ← m; f a) R.
Proof.
  intros Hm Hf h Hh. destruct (Hm h Hh) as [Hh' HQ].
  unfold mbind, St_bind. destruct (m h) as [[a|e] h']; simpl in *.
  - apply Hf; [apply HQ; reflexivity | exact Hh'].
  - split; [exact Hh'|]. intros v [=].
Qed.

Lemma keeps_weaken {A} h0 (m : St A) (Q R : A → Prop) :
  keeps h0 m Q → (∀ a, Q a → R a) → keeps h0 m R.
Proof.
  intros Hm HQR h Hh. destruct (Hm h Hh) as [Hh' HQ]. split; [exact Hh'|].
  intros v Hv. apply HQR, HQ, Hv.
Qed.

Lemma keeps_alloc h0 o : keeps h0 (alloc o) (unused h0).
Proof.
  intros h Hh. unfold alloc. simpl.
  assert (Hfresh : h !! fresh (dom h) = None).
  { apply not_elem_of_dom. apply is_fresh. }
  split.
  - etransitivity; [exact Hh|]. apply insert_subseteq. exact Hfresh.
  - intros v [= <-]. unfold unused.
    destruct (h0 !! fresh (dom h)) as [o'|] eqn:Ho; [|reflexivity].
    eapply lookup_weaken in Ho; [|exact Hh]. congruence.
Qed.

Lemma keeps_load h0 l : keeps h0 (load l) (fun _ => True).
Proof.
  intros h Hh. unfold load. destruct (h !! l); simpl; split; auto.
Qed.

Lemma keeps_store h0 l o : unused h0 l → keeps h0 (store l o) (fun _ => True).
Proof.
  intros Hl h Hh. unfold store. simpl. split; [|auto].
  apply insert_subseteq_r; assumption.
Qed.

Lemma keeps_for_each_st {A} h0 (xs : list A) (body : A → St unit) :
  (∀ x, keeps h0 (body x) (fun _ => True)) →
  keeps h0 (for_each_st xs body) (fun _ => True).
Proof.
  intros Hbody. induction xs as [|x xs IH]; simpl.
  - apply keeps_ret. exact I.
  - eapply keeps_bind; [apply Hbody | intros _ _; exact IH].
Qed.

(** A step that needs no fact about its result. *)
Ltac keeps_plain :=
  first
    [ apply keeps_load
    | apply keeps_lift
    | apply keeps_raise
    | apply keeps_store; assumption
    | apply keeps_ret; exact I ].

Lemma keeps_load_typed h0 l :
  keeps h0 (load_int2 l) (fun _ => True) ∧
  keeps h0 (load_int1 l) (fun _ => True) ∧
  keeps h0 (load_bool1 l) (fun _ => True) ∧
  keeps h0 (load_float2 l) (fun _ => True) ∧
  keeps h0 (load_float1 l) (fun _ => True) ∧
  keeps h0 (load_byte l) (fun _ => True) ∧
  keeps h0 (load_graph l) (fun _ => True).
Proof.
  repeat apply conj;
    (eapply keeps_bind; [apply keeps_load | intros [] _; keeps_plain]).
Qed.

Ltac keeps_step :=
  first
    [ keeps_plain
    | apply keeps_load_typed
    | apply keeps_alloc ].

Lemma keeps_add_nodes_st h0 n graph :
  unused h0 graph → keeps h0 (add_nodes_st n graph) (fun _ => True).
Proof.
  intros Hg. unfold add_nodes_st.
  eapply keeps_bind; [keeps_step | intros [[n0 nd] es] _; keeps_step].
Qed.

Lemma keeps_ndata_set_st h0 key val graph :
  unused h0 graph → keeps h0 (ndata_set_st key val graph) (fun _ => True).
Proof.
  intros Hg. unfold ndata_set_st.
  eapply keeps_bind; [keeps_step | intros [[n0 nd] es] _].
  eapply keeps_bind; [keeps_step | intros t _].
  eapply keeps_bind; [keeps_step | intros rows _].
  case_decide; keeps_step.
Qed.

Lemma keeps_add_edges_st h0 us vs graph :
  unused h0 graph → keeps h0 (add_edges_st us vs graph) (fun _ => True).
Proof.
  intros Hg. unfold add_edges_st.
  eapply keeps_bind; [keeps_step | intros [[n0 nd] es] _].
  eapply keeps_bind; [keeps_step | intros new_es _].
  case_decide; keeps_step.
Qed.

Lemma keeps_torch_FloatTensor2_st h0 a :
  keeps h0 (torch_FloatTensor2_st a) (unused h0).
Proof.
  unfold torch_FloatTensor2_st.
  eapply keeps_bind; [keeps_step | intros v _; keeps_step].
Qed.

Lemma keeps_torch_FloatTensor1_st h0 a :
  keeps h0 (torch_FloatTensor1_st a) (unused h0).
Proof.
  unfold torch_FloatTensor1_st.
  eapply keeps_bind; [keeps_step | intros v _; keeps_step].
Qed.

Lemma keeps_np_set2_st h0 a i j v :
  unused h0 a → keeps h0 (np_set2_st a i j v) (fun _ => True).
Proof.
  intros Ha. unfold np_set2_st.
  eapply keeps_bind; [keeps_step | intros rows _].
  destruct (rows !! i); [case_decide|]; keeps_step.
Qed.

Lemma keeps_two_hop_neighborhood_st h0 graph :
  keeps h0 (two_hop_neighborhood_st graph) (unused h0).
Proof.
  unfold two_hop_neighborhood_st.
  eapply keeps_bind; [keeps_step | intros [[n nd] es] _].
  eapply keeps_bind; [keeps_step | intros new_graph Hnew].
  eapply keeps_bind; [keeps_step | intros _ _].
  eapply keeps_bind.
  - apply keeps_for_each_st. intros kv. apply keeps_ndata_set_st. exact Hnew.
  - intros _ _. apply keeps_ret. exact Hnew.
Qed.

Lemma keeps_hops_loop h0 n graph :
  keeps h0 (Nat.iter n (fun acc : St loc => g ← acc; two_hop_neighborhood_st g)
              (mret graph)) (fun _ => True).
Proof.
  induction n as [|n IH]; simpl.
  - apply keeps_ret. exact I.
  - eapply keeps_bind; [exact IH | intros g _].
    eapply keeps_weaken; [apply keeps_two_hop_neighborhood_st | auto].
Qed.

Lemma keeps_RAG_centroids_st h0 instance_map :
  keeps h0 (RAG_centroids_st instance_map) (unused h0).
Proof.
  unfold RAG_centroids_st.
  eapply keeps_bind; [keeps_step | intros im _].
  eapply keeps_bind; [keeps_step | intros centroids Hc].
  eapply keeps_bind.
  - apply keeps_for_each_st. intros [i [label [center_y center_x]]]. simpl.
    eapply keeps_bind; [apply keeps_np_set2_st; exact Hc | intros _ _].
    apply keeps_np_set2_st. exact Hc.
  - intros _ _. apply keeps_torch_FloatTensor2_st.
Qed.

Lemma keeps_RAG_set_node_centroids_st h0 instance_map graph :
  unused h0 graph →
  keeps h0 (RAG_set_node_centroids_st instance_map graph) (fun _ => True).
Proof.
  intros Hg. unfold RAG_set_node_centroids_st.
  eapply keeps_bind; [apply keeps_RAG_centroids_st | intros t _].
  apply keeps_ndata_set_st. exact Hg.
Qed.

Lemma keeps_RAG_label_region_st h0 self instance_map annotation labels region_label :
  unused h0 labels →
  keeps h0 (RAG_label_region_st self instance_map annotation labels region_label)
    (fun _ => True).
Proof.
  intros Hlabels. unfold RAG_label_region_st.
  eapply keeps_bind; [keeps_step | intros ann _].
  eapply keeps_bind; [keeps_step | intros im' _].
  eapply keeps_bind; [keeps_step | intros pixels _].
  eapply keeps_bind; [keeps_step | intros histogram Hhist].
  eapply keeps_bind; [keeps_step | intros h _].
  eapply keeps_bind; [keeps_step | intros mask Hmask].
  eapply keeps_bind; [keeps_step | intros m _].
  eapply keeps_bind; [keeps_step | intros m' _].
  eapply keeps_bind; [keeps_step | intros _ _].
  eapply keeps_bind; [keeps_step | intros m2 _].
  eapply keeps_bind; [keeps_step | intros h2 _].
  eapply (keeps_bind _ _ _ (fun _ => True)).
  - destruct (np_sum (select_row h2 m2) =? 0); [keeps_step|].
    eapply keeps_bind; [keeps_step | intros h3 _].
    eapply keeps_bind; [keeps_step | intros _ _].
    eapply keeps_bind; [keeps_step | intros h4 _].
    eapply keeps_bind; [keeps_step | intros a _]. keeps_step.
  - intros assignment _.
    eapply keeps_bind; [keeps_step | intros t _].
    eapply keeps_bind; [keeps_step | intros t' _]. keeps_step.
Qed.

Lemma keeps_RAG_labels_st h0 self instance_map annotation :
  keeps h0 (RAG_labels_st self instance_map annotation) (unused h0).
Proof.
  unfold RAG_labels_st.
  eapply keeps_bind; [keeps_step | intros _ _].
  eapply keeps_bind; [keeps_step | intros im _].
  eapply keeps_bind; [keeps_step | intros labels Hlabels].
  eapply keeps_bind; [|intros _ _; apply keeps_ret; exact Hlabels].
  apply keeps_for_each_st. intros region_label.
  apply keeps_RAG_label_region_st. exact Hlabels.
Qed.

Lemma keeps_RAG_set_node_labels_st h0 self instance_map annotation graph :
  unused h0 graph →
  keeps h0 (RAG_set_node_labels_st self instance_map annotation graph) (fun _ => True).
Proof.
  intros Hg. unfold RAG_set_node_labels_st.
  eapply keeps_bind; [apply keeps_RAG_labels_st | intros labels _].
  apply keeps_ndata_set_st. exact Hg.
Qed.

Lemma keeps_RAG_adjacency_row_st h0 instance_map adjacency ksize n instance_id :
  unused h0 adjacency →
  keeps h0 (RAG_adjacency_row_st instance_map adjacency ksize n instance_id)
    (fun _ => True).
Proof.
  intros Hadj. unfold RAG_adjacency_row_st.
  eapply keeps_bind; [keeps_step | intros im' _].
  eapply keeps_bind; [keeps_step | intros idx Hidx].
  eapply keeps_bind; [keeps_step | intros v _].
  eapply keeps_bind; [keeps_step | intros _ _].
  eapply keeps_bind; [keeps_step | intros a _].
  eapply keeps_bind; [keeps_step | intros v' _].
  eapply keeps_bind; [keeps_step | intros a' _]. keeps_step.
Qed.

Lemma keeps_RAG_adjacency_st h0 instance_map ksize :
  keeps h0 (RAG_adjacency_st instance_map ksize) (fun _ => True).
Proof.
  unfold RAG_adjacency_st.
  eapply keeps_bind; [keeps_step | intros im _].
  eapply keeps_bind; [keeps_step | intros adjacency Hadj].
  eapply keeps_bind; [|intros _ _; keeps_step].
  apply keeps_for_each_st. intros instance_id.
  apply keeps_RAG_adjacency_row_st. exact Hadj.
Qed.

Lemma keeps_RAG_build_topology_st h0 self instance_map graph :
  unused h0 graph →
  keeps h0 (RAG_build_topology_st self instance_map graph) (fun _ => True).
Proof.
  intros Hg. unfold RAG_build_topology_st.
  eapply keeps_bind; [keeps_step | intros ksize _].
  eapply keeps_bind; [apply keeps_RAG_adjacency_st | intros a _].
  eapply keeps_bind; [apply keeps_add_edges_st; exact Hg | intros _ _].
  eapply keeps_bind; [apply keeps_hops_loop | intros _ _]. keeps_step.
Qed.

Lemma keeps_KNN_set_node_centroids_st h0 centroids graph :
  unused h0 graph →
  keeps h0 (KNN_set_node_centroids_st centroids graph) (fun _ => True).
Proof.
  intros Hg. unfold KNN_set_node_centroids_st.
  eapply keeps_bind; [apply keeps_torch_FloatTensor2_st | intros t _].
  apply keeps_ndata_set_st. exact Hg.
Qed.

Lemma keeps_KNN_labels_st h0 annotation :
  keeps h0 (KNN_labels_st annotation) (unused h0).
Proof.
  unfold KNN_labels_st.
  eapply keeps_bind; [keeps_step | intros a _].
  eapply keeps_bind; [keeps_step | intros a' _].
  apply keeps_torch_FloatTensor1_st.
Qed.

Lemma keeps_KNN_set_node_labels_st h0 self instance_map annotation graph :
  unused h0 graph →
  keeps h0 (KNN_set_node_labels_st self instance_map annotation graph) (fun _ => True).
Proof.
  intros Hg. unfold KNN_set_node_labels_st.
  eapply keeps_bind; [apply keeps_KNN_labels_st | intros t _].
  apply keeps_ndata_set_st. exact Hg.
Qed.

Lemma keeps_KNN_build_topology_st h0 self centroids graph :
  unused h0 graph →
  keeps h0 (KNN_build_topology_st self centroids graph) (fun _ => True).
Proof.
  intros Hg. unfold KNN_build_topology_st.
  eapply keeps_bind; [keeps_step | intros X _].
  eapply keeps_bind; [keeps_step | intros adj _].
  apply keeps_add_edges_st. exact Hg.
Qed.

(** The shared pipeline keeps the initial store as soon as the three hooks
    of the builder do, given that the graph they work on is a new object. *)
Lemma keeps_process_st {B} `{GraphBuilderSt B} h0 (self : B) structure features
    annotation :
  (∀ s graph, unused h0 graph →
     keeps h0 (_set_node_centroids_st self s graph) (fun _ => True)) →
  (∀ s a graph, unused h0 graph →
     keeps h0 (_set_node_labels_st self s a graph) (fun _ => True)) →
  (∀ s graph, unused h0 graph →
     keeps h0 (_build_topology_st self s graph) (fun _ => True)) →
  keeps h0 (process_st self structure features annotation) (fun _ => True).
Proof.
  intros Hc Hl Ht. unfold process_st.
  eapply keeps_bind; [keeps_step | intros f _].
  eapply keeps_bind; [keeps_step | intros graph Hg].
  eapply keeps_bind; [apply keeps_add_nodes_st; exact Hg | intros _ _].
  eapply keeps_bind; [apply keeps_ndata_set_st; exact Hg | intros _ _].
  eapply keeps_bind; [apply Hc; exact Hg | intros _ _].
  eapply keeps_bind; [|intros _ _].
  - destruct annotation as [a|]; [apply Hl; exact Hg | keeps_step].
  - eapply keeps_bind; [apply Ht; exact Hg | intros _ _]. keeps_step.
Qed.

(** C10 — the inputs are left unmodified.  Whatever the store holds when
    [process] is called (in particular the structure, the feature matrix and
    the annotation array passed to it) holds the same value when the call is
    over, for both builders, whether the call returns a graph or raises. *)
Theorem process_leaves_inputs_unmodified (h : gmap loc pyobj)
    (structure features : loc) (annotation : option loc) (l : loc) (o : pyobj) :
  h !! l = Some o →
  (∀ self : RAGGraphBuilder,
      (process_st self structure features annotation h).2 !! l = Some o) ∧
  (∀ self : KNNGraphBuilder,
      (process_st self structure features annotation h).2 !! l = Some o).
Proof.
  intros Hl. split; intros self.
  - eapply lookup_weaken; [exact Hl|].
    apply (keeps_process_st h self structure features annotation); [| | |reflexivity].
    + intros s graph Hg. apply keeps_RAG_set_node_centroids_st. exact Hg.
    + intros s a graph Hg. apply keeps_RAG_set_node_labels_st. exact Hg.
    + intros s graph Hg. apply keeps_RAG_build_topology_st. exact Hg.
  - eapply lookup_weaken; [exact Hl|].
    apply (keeps_process_st h self structure features annotation); [| | |reflexivity].
    + intros s graph Hg. apply keeps_KNN_set_node_centroids_st. exact Hg.
    + intros s a graph Hg. apply keeps_KNN_set_node_labels_st. exact Hg.
    + intros s graph Hg. apply keeps_KNN_build_topology_st. exact Hg.
Qed.

Lemma process_leaves_inputs_unmodified_witness :
  let h : gmap loc pyobj :=
    <[2%nat := NdInt2 [[0; 1; 4]; [2; 2; 4]]]>
      (<[1%nat := NdFloat2 [[1 # 2]; [0]; [3 # 4]]%Q]>
         (<[0%nat := NdInt2 [[1; 1; 2]; [3; 3; 2]]]> ∅)) in
  let self := mkRAG (Base__init__ 6 4 None (mkPipelineStep None "")) 3 2 in
  (process_st self 0%nat 1%nat (Some 2%nat) h).2 !! 2%nat
  = Some (NdInt2 [[0; 1; 4]; [2; 2; 4]]).
Proof.
  intros h self.
  apply (proj1 (process_leaves_inputs_unmodified h 0%nat 1%nat (Some 2%nat) 2%nat
                  (NdInt2 [[0; 1; 4]; [2; 2; 4]]) eq_refl) self).
Defined.

(** On this store the graph built in place reads back as the graph computed
    on values. *)
Example process_st_agrees_with_process :
  let h : gmap loc pyobj :=
    <[2%nat := NdInt2 [[0; 1; 4]; [2; 2; 4]]]>
      (<[1%nat := NdFloat2 [[1 # 2]; [0]; [3 # 4]]%Q]>
         (<[0%nat := NdInt2 [[1; 1; 2]; [3; 3; 2]]]> ∅)) in
  let self := mkRAG (Base__init__ 6 4 None (mkPipelineStep None "")) 3 2 in
  let run := process_st self 0%nat 1%nat (Some 2%nat) h in
  (graph ← run.1; from_option Ok (Raise RuntimeError) (read_graph run.2 graph))
  = process self [[1; 1; 2]; [3; 3; 2]] [[1 # 2]; [0]; [3 # 4]]%Q
      (Some [[0; 1; 4]; [2; 2; 4]]).
Proof. vm_compute. reflexivity. Qed.

(** ** Annotated builds of the region-adjacency builder

    A build with an annotation only returns a graph when the ids of the
    instance map are exactly [1 .. N]: the centroid array has one row per
    positive id and the label array one entry per id, and DGL wants [N] of
    each.  In particular it fails on any map with a background pixel. *)

Lemma elem_of_pd_unique l x : x ∈ pd_unique l ↔ x ∈ l.
Proof.
  induction l as [|y l IH]; simpl; [reflexivity|].
  rewrite !elem_of_cons, elem_of_List_filter, IH.
  destruct (Z.eqb_spec x y) as [->|Hne]; simpl; intuition congruence.
Qed.

Lemma NoDup_pd_unique l : NoDup (pd_unique l).
Proof.
  induction l as [|y l IH]; simpl; [constructor|].
  apply NoDup_cons. split.
  - rewrite elem_of_List_filter. intros [_ Hy]. rewrite Z.eqb_refl in Hy. discriminate.
  - apply NoDup_ListNoDup, List.NoDup_filter, NoDup_ListNoDup. exact IH.
Qed.

Lemma torch_set_uint8_Ok t i v t' :
  torch_set_uint8 t i v = Ok t' →
  ∃ j, np_index (length t) i = Ok j ∧ t' = <[j := Some (v mod 256)]> t.
Proof.
  unfold torch_set_uint8. intros H.
  apply np_set_Ok in H as (j & Hj & _ & ->). exists j. auto.
Qed.

(** The loop of [_set_node_labels] over distinct positive region labels:
    every label gets its own cell, which ends up holding its assignment
    (modulo 256). *)
Lemma labels_loop_spec (self : BaseGraphBuilder) im ann (U : list Z) : ∀ t0 t,
  for_each U (fun region_label labels =>
      assignment ← region_assignment self im ann region_label;
      torch_set_uint8 labels (region_label - 1) assignment) t0 = Ok t →
  length t = length t0 ∧
  (∀ r, r ∈ U → is_Ok (np_index (length t0) (r - 1))) ∧
  (∀ j, (∀ r j', r ∈ U → np_index (length t0) (r - 1) = Ok j' → j' ≠ j) →
        t !! j = t0 !! j) ∧
  (NoDup U → (∀ r, r ∈ U → 0 < r) →
   ∀ r, r ∈ U → ∃ a, region_assignment self im ann r = Ok a ∧
                     t !! Z.to_nat (r - 1) = Some (Some (a mod 256))).
Proof.
  induction U as [|r U IH]; intros t0 t H; simpl in H.
  - injection H as <-. split; [reflexivity|]. split; [intros r Hr; inversion Hr|].
    split; [reflexivity|]. intros _ _ r Hr. inversion Hr.
  - inv_bind H. rename a0 into assignment. rename a into t1.
    apply torch_set_uint8_Ok in Hstep as (j & Hj & ->).
    destruct (IH _ _ H) as (Hlen & Hidx & Hkeep & Hvals).
    rewrite length_insert in Hlen, Hidx, Hkeep.
    split; [exact Hlen|]. split; [|split].
    + intros r' Hr'. apply elem_of_cons in Hr' as [->|Hr']; [eexists; exact Hj | auto].
    + intros j0 Hj0. rewrite Hkeep.
      * apply list_lookup_insert_ne. apply (Hj0 r j); [left | exact Hj].
      * intros r' j' Hr' Hj'. apply (Hj0 r' j'); [right; exact Hr' | exact Hj'].
    + intros Hnd Hpos r' Hr'. apply NoDup_cons in Hnd as [Hnotin Hnd].
      apply elem_of_cons in Hr' as [->|Hr'].
      * exists assignment. split; [exact Hstep0|].
        assert (Hjr : j = Z.to_nat (r - 1)).
        { specialize (Hpos r ltac:(left)). unfold np_index in Hj.
          repeat case_decide; try discriminate; injection Hj as <-; lia. }
        rewrite Hkeep.
        -- rewrite <- Hjr. apply list_lookup_insert_eq. eapply np_index_Ok, Hj.
        -- intros r2 j2 Hr2 Hj2 Heq.
           pose proof (Hpos r ltac:(left)) as Hr0.
           pose proof (Hpos r2 ltac:(right; exact Hr2)) as Hr20.
           assert (r2 = r); [|subst r2; contradiction].
           unfold np_index in Hj2.
           repeat case_decide; try discriminate; injection Hj2 as <-; lia.
      * apply Hvals; [exact Hnd | intros r2 Hr2; apply Hpos; right; exact Hr2 | exact Hr'].
Qed.

Lemma List_filter_length_all {A} (f : A → bool) (l : list A) :
  length (List.filter f l) = length l → ∀ x, x ∈ l → f x = true.
Proof.
  intros Hlen.
  destruct (filter_length_squeeze f (fun _ => true) l) as [_ Hall]; [reflexivity|].
  intros x Hx. apply Hall; [|exact Hx | reflexivity].
  rewrite (List_filter_all (fun _ => true) l) by reflexivity. lia.
Qed.

(** Every pixel of a map that went through an annotated build carries an id
    in [1 .. N], and the label tensor holds, at position [r - 1], the
    assignment computed for region [r] (modulo 256). *)
Lemma RAG_annotated_build_labels (self : RAGGraphBuilder) im features ann g :
  process self im features (Some ann) = Ok g →
  ∃ labels,
    ndata g !! LABEL = Some (ByteTensor labels) ∧
    ∀ r, r ∈ np_ravel im →
      1 ≤ r ≤ Z.of_nat (number_of_nodes g) ∧
      ∃ a, region_assignment (rag_base self) im ann r = Ok a ∧
           labels !! Z.to_nat (r - 1) = Some (Some (a mod 256)).
Proof.
  intros Hp. apply process_Ok in Hp as (g2 & g3 & Hc & Hl & Ht). simpl in Hc, Hl, Ht.
  apply ndata_set_Ok in Hc as [Hcs ->]. simpl in Hcs.
  unfold RAG_set_node_labels in Hl. inv_bind Hl. rename a0 into labels.
  apply ndata_set_Ok in Hl as [Hls ->]. simpl in Hls.
  apply RAG_build_topology_Ok in Ht as (ksize & adj & _ & _ & _ & ->). simpl.
  set (U := pd_unique (np_ravel im)) in *.
  destruct (labels_loop_spec _ _ _ _ _ _ Hstep0) as (Hlen & Hidx & _ & Hvals).
  unfold torch_empty in Hlen, Hidx. rewrite length_replicate in Hlen, Hidx.
  rewrite length_map in Hcs. unfold regionprops in Hcs. rewrite length_map in Hcs.
  fold U in Hcs.
  assert (Hall : ∀ x, x ∈ U → 0 < x).
  { intros x Hx. apply Z.ltb_lt.
    apply (List_filter_length_all (fun v => 0 <? v) (np_sort U)).
    - rewrite Hcs, <- Hls, Hlen. unfold np_sort.
      apply Permutation_length. symmetry. apply merge_sort_Permutation.
    - unfold np_sort. rewrite merge_sort_Permutation. exact Hx. }
  exists labels. split; [apply lookup_insert_eq|].
  intros r Hr. apply elem_of_pd_unique in Hr. fold U in Hr.
  split.
  - pose proof (Hall r Hr) as Hr0. destruct (Hidx r Hr) as [j Hj].
    apply np_index_Ok in Hj as Hjlt. unfold np_index in Hj.
    repeat case_decide; try discriminate; injection Hj as <-; lia.
  - apply Hvals; [apply NoDup_pd_unique | exact Hall | exact Hr].
Qed.

(** In particular an annotated build never returns a graph for a map that
    has a background pixel. *)
Lemma RAG_annotated_build_no_background (self : RAGGraphBuilder) im features ann :
  0 ∈ np_ravel im → ¬ is_Ok (process self im features (Some ann)).
Proof.
  intros H0 [g Hg]. destruct (RAG_annotated_build_labels _ _ _ _ _ Hg) as (labels & _ & Hall).
  destruct (Hall 0 H0) as [Hr _]. lia.
Qed.

(** ** The store-based pipeline computes the same graph *)

Lemma graph_at_read h graph g : graph_at h graph g → read_graph h graph = Some g.
Proof.
  intros (nd & Hg & Hnd). unfold read_graph. rewrite Hg. f_equal.
  destruct g as [n ndg es]. simpl in *. f_equal.
  apply map_eq. intros key. rewrite lookup_omap. specialize (Hnd key).
  destruct (nd !! key) as [l|]; simpl.
  - destruct Hnd as (o & t & -> & Ht & ->). simpl. exact Ht.
  - symmetry. exact Hnd.
Qed.

Lemma graph_at_weaken h h' graph g :
  h ⊆ h' → graph_at h graph g → graph_at h' graph g.
Proof.
  intros Hsub (nd & Hg & Hnd). exists nd. split.
  - eapply lookup_weaken; eassumption.
  - intros key. specialize (Hnd key). destruct (nd !! key) as [l|]; [|exact Hnd].
    destruct Hnd as (o & t & Ho & Ht & Hk). exists o, t. split; [|auto].
    eapply lookup_weaken; eassumption.
Qed.

Lemma run_bind_Ok {A B} (m : St A) (f : A → St B) h a h' :
  m h = (Ok a, h') → (x ← m; f x) h = f a h'.
Proof. intros Hm. unfold mbind, St_bind. rewrite Hm. reflexivity. Qed.

Lemma run_bind_Raise {A B} (m : St A) (f : A → St B) h e h' :
  m h = (Raise e, h') → (x ← m; f x) h = (Raise e, h').
Proof. intros Hm. unfold mbind, St_bind. rewrite Hm. reflexivity. Qed.

Lemma run_bind_lift {A B} (r : result A) (f : A → St B) h :
  (x ← lift r; f x) h = match r with Ok a => f a h | Raise e => (Raise e, h) end.
Proof. destruct r; reflexivity. Qed.

Lemma run_load h l o : h !! l = Some o → load l h = (Ok o, h).
Proof. intros Hl. unfold load. rewrite Hl. reflexivity. Qed.

Lemma run_load_int2 h l a : h !! l = Some (NdInt2 a) → load_int2 l h = (Ok a, h).
Proof. intros Hl. unfold load_int2. rewrite (run_bind_Ok _ _ _ _ _ (run_load _ _ _ Hl)). reflexivity. Qed.

Lemma run_load_int1 h l a : h !! l = Some (NdInt1 a) → load_int1 l h = (Ok a, h).
Proof. intros Hl. unfold load_int1. rewrite (run_bind_Ok _ _ _ _ _ (run_load _ _ _ Hl)). reflexivity. Qed.

Lemma run_load_bool1 h l a : h !! l = Some (NdBool1 a) → load_bool1 l h = (Ok a, h).
Proof. intros Hl. unfold load_bool1. rewrite (run_bind_Ok _ _ _ _ _ (run_load _ _ _ Hl)). reflexivity. Qed.

Lemma run_load_float2 h l a : h !! l = Some (NdFloat2 a) → load_float2 l h = (Ok a, h).
Proof. intros Hl. unfold load_float2. rewrite (run_bind_Ok _ _ _ _ _ (run_load _ _ _ Hl)). reflexivity. Qed.

Lemma run_load_float1 h l a : h !! l = Some (NdFloat1 a) → load_float1 l h = (Ok a, h).
Proof. intros Hl. unfold load_float1. rewrite (run_bind_Ok _ _ _ _ _ (run_load _ _ _ Hl)). reflexivity. Qed.

Lemma run_load_byte h l a : h !! l = Some (TByte a) → load_byte l h = (Ok a, h).
Proof. intros Hl. unfold load_byte. rewrite (run_bind_Ok _ _ _ _ _ (run_load _ _ _ Hl)). reflexivity. Qed.

Lemma run_load_graph h l n nd es :
  h !! l = Some (PyGraph n nd es) → load_graph l h = (Ok (n, nd, es), h).
Proof. intros Hl. unfold load_graph. rewrite (run_bind_Ok _ _ _ _ _ (run_load _ _ _ Hl)). reflexivity. Qed.

Lemma run_alloc h o :
  ∃ l, h !! l = None ∧ alloc o h = (Ok l, <[l := o]> h).
Proof.
  exists (fresh (dom h)). split; [|reflexivity].
  apply not_elem_of_dom, is_fresh.
Qed.

Lemma shape0_obj_tensor o t : tensor_of_obj o = Some t → shape0_obj o = Ok (shape0 t).
Proof. destruct o; simpl; intros [= <-]; reflexivity. Qed.

Lemma graph_at_not_tensor h graph g l o t :
  graph_at h graph g → h !! l = Some o → tensor_of_obj o = Some t → l ≠ graph.
Proof.
  intros (nd & Hg & _) Ho Ht ->. rewrite Hg in Ho. injection Ho as <-. discriminate.
Qed.

(** [graph.ndata[key] = val] on the store against [ndata_set] on values. *)
Lemma refines_ndata_set_st h key val graph g o t :
  graph_at h graph g → h !! val = Some o → tensor_of_obj o = Some t →
  match ndata_set key t g with
  | Ok g' => ∃ h', ndata_set_st key val graph h = (Ok tt, h') ∧ graph_at h' graph g'
  | Raise e => ndata_set_st key val graph h = (Raise e, h)
  end.
Proof.
  intros Hgraph Ho Ht. pose proof (graph_at_not_tensor _ _ _ _ _ _ Hgraph Ho Ht) as Hne.
  destruct Hgraph as (nd & Hg & Hnd).
  unfold ndata_set_st, ndata_set.
  rewrite (run_bind_Ok _ _ _ _ _ (run_load_graph _ _ _ _ _ Hg)).
  rewrite (run_bind_Ok _ _ _ _ _ (run_load _ _ _ Ho)).
  rewrite run_bind_lift, (shape0_obj_tensor _ _ Ht).
  case_decide as Hshape; [|reflexivity].
  eexists. split; [reflexivity|].
  exists (<[key := val]> nd). simpl. split; [apply lookup_insert_eq|].
  intros key'. destruct (decide (key = key')) as [<-|Hk].
  - rewrite !lookup_insert_eq. exists o, t. split; [|auto].
    rewrite lookup_insert_ne by auto. exact Ho.
  - rewrite !lookup_insert_ne by exact Hk. specialize (Hnd key').
    destruct (nd !! key') as [l|]; [|exact Hnd].
    destruct Hnd as (o' & t' & Ho' & Ht' & Hk'). exists o', t'. split; [|auto].
    rewrite lookup_insert_ne; [exact Ho'|].
    intros <-. rewrite Hg in Ho'. injection Ho' as <-. discriminate.
Qed.

(** [graph.add_edges] on the store against [add_edges] on values. *)
Lemma refines_add_edges_st h us vs graph g :
  graph_at h graph g →
  match add_edges us vs g with
  | Ok g' => ∃ h', add_edges_st us vs graph h = (Ok tt, h') ∧ graph_at h' graph g'
  | Raise e => add_edges_st us vs graph h = (Raise e, h)
  end.
Proof.
  intros (nd & Hg & Hnd). unfold add_edges_st, add_edges.
  rewrite (run_bind_Ok _ _ _ _ _ (run_load_graph _ _ _ _ _ Hg)).
  rewrite run_bind_lift. destruct (dgl_pair_up us vs) as [new_es|e]; simpl.
  - case_decide as Hr; [|reflexivity].
    eexists. split; [reflexivity|].
    exists nd. simpl. split; [apply lookup_insert_eq|].
    intros key. specialize (Hnd key). destruct (nd !! key) as [l|]; [|exact Hnd].
    destruct Hnd as (o' & t' & Ho' & Ht' & Hk'). exists o', t'. split; [|auto].
    rewrite lookup_insert_ne; [exact Ho'|].
    intros <-. rewrite Hg in Ho'. injection Ho' as <-. discriminate.
  - reflexivity.
Qed.

Lemma process_st_refines {B S A} `{GraphBuilder B S A} `{GraphBuilderSt B}
    (self : B) (inputs : gmap loc pyobj) (structure features : loc)
    (annotation : option loc) (s : S) (f : list (list Q)) (ann : option A) :
  inputs !! features = Some (NdFloat2 f) →
  hook_refines inputs (_set_node_centroids_st self structure)
    (_set_node_centroids self s) →
  match annotation, ann with
  | Some al, Some a =>
      hook_refines inputs (_set_node_labels_st self structure al)
        (_set_node_labels self s a)
  | None, None => True
  | _, _ => False
  end →
  hook_refines inputs (_build_topology_st self structure) (_build_topology self s) →
  ∀ h, inputs ⊆ h →
    inputs ⊆ (process_st self structure features annotation h).2 ∧
    match process self s f ann with
    | Ok g => ∃ graph,
        (process_st self structure features annotation h).1 = Ok graph ∧
        graph_at (process_st self structure features annotation h).2 graph g
    | Raise e => (process_st self structure features annotation h).1 = Raise e
    end.
Proof.
  intros Hf Hcen Hlab Htop h Hin.
  unfold process_st, process.
  assert (Hfh : h !! features = Some (NdFloat2 f))
    by exact (lookup_weaken _ _ _ _ Hf Hin).
  rewrite (run_bind_Ok _ _ _ _ _ (run_load_float2 _ _ _ Hfh)).
  destruct (run_alloc h (PyGraph 0 ∅ [])) as (graph & Hfresh & Halloc).
  rewrite (run_bind_Ok _ _ _ _ _ Halloc).
  assert (Hunused : unused inputs graph).
  { unfold unused. destruct (inputs !! graph) eqn:Hig; [|reflexivity].
    eapply lookup_weaken in Hig; [|exact Hin]. congruence. }
  set (h1 := <[graph := PyGraph 0 ∅ []]> h).
  assert (Hin1 : inputs ⊆ h1).
  { etransitivity; [exact Hin|]. apply insert_subseteq. exact Hfresh. }
  (* add_nodes *)
  unfold add_nodes_st.
  rewrite (run_bind_Ok _ _ _ _ _
             (run_bind_Ok _ _ _ _ _ (run_load_graph h1 graph 0 ∅ [] (lookup_insert_eq _ _ _)))).
  change (0 + length f)%nat with (length f).
  set (h2 := <[graph := PyGraph (length f) ∅ []]> h1).
  assert (Hin2 : inputs ⊆ h2) by (apply insert_subseteq_r; assumption).
  assert (Hg2 : graph_at h2 graph (add_nodes (length f) DGLGraph_new)).
  { exists ∅. split; [apply lookup_insert_eq|]. intros key. rewrite !lookup_empty.
    reflexivity. }
  (* features *)
  assert (Hfh2 : h2 !! features = Some (NdFloat2 f))
    by exact (lookup_weaken _ _ _ _ Hf Hin2).
  pose proof (refines_ndata_set_st h2 FEATURES features graph _ _ (FloatTensor2 f)
                Hg2 Hfh2 eq_refl) as Hfeat.
  pose proof (graph_wf_new (length f)) as Hwf0.
  unfold _set_node_features_st.
  change (_set_node_features f (add_nodes (length f) DGLGraph_new))
    with (ndata_set FEATURES (FloatTensor2 f) (add_nodes (length f) DGLGraph_new)).
  destruct (ndata_set FEATURES (FloatTensor2 f) (add_nodes (length f) DGLGraph_new))
    as [g1|e] eqn:Hset1.
  2:{ rewrite (run_bind_Raise _ _ _ _ _ Hfeat). simpl. split; assumption || reflexivity. }
  destruct Hfeat as (h3 & Hrun3 & Hg3).
  rewrite (run_bind_Ok _ _ _ _ _ Hrun3).
  destruct (graph_wf_ndata_set _ _ _ _ Hwf0 Hset1) as (Hwf1 & _ & _).
  assert (Hin3 : inputs ⊆ h3).
  { pose proof (keeps_ndata_set_st inputs FEATURES features graph Hunused h2 Hin2) as [Hk _].
    rewrite Hrun3 in Hk. exact Hk. }
  simpl.
  (* centroids *)
  destruct (Hcen h3 graph g1 Hin3 Hunused Hwf1 Hg3) as [Hin4 Hc].
  destruct (_set_node_centroids_st self structure graph h3) as [r4 h4] eqn:Hrun4.
  simpl in Hin4, Hc.
  destruct (_set_node_centroids self s g1) as [g2|e]; simpl.
  2:{ subst r4. rewrite (run_bind_Raise _ _ _ _ _ Hrun4). split; assumption || reflexivity. }
  destruct Hc as (-> & Hg4 & Hwf2).
  rewrite (run_bind_Ok _ _ _ _ _ Hrun4).
  (* labels *)
  assert (Hlabels :
    ∃ r5 h5,
      (match annotation with
       | Some annotation => _set_node_labels_st self structure annotation graph
       | None => mret tt
       end) h4 = (r5, h5) ∧ inputs ⊆ h5 ∧
      match (match ann with
             | Some annotation => _set_node_labels self s annotation g2
             | None => Ok g2
             end) with
      | Ok g3 => r5 = Ok tt ∧ graph_at h5 graph g3 ∧ graph_wf g3
      | Raise e => r5 = Raise e
      end).
  { destruct annotation as [al|], ann as [a|]; try contradiction.
    - destruct (Hlab h4 graph g2 Hin4 Hunused Hwf2 Hg4) as [Hin5 Hl].
      destruct (_set_node_labels_st self structure al graph h4) as [r5 h5].
      exists r5, h5. split; [reflexivity|]. split; [exact Hin5|]. exact Hl.
    - exists (Ok tt), h4. split; [reflexivity|]. split; [exact Hin4|]. auto. }
  destruct Hlabels as (r5 & h5 & Hrun5 & Hin5 & Hl).
  destruct (match ann with
            | Some annotation => _set_node_labels self s annotation g2
            | None => Ok g2
            end) as [g3|e]; simpl.
  2:{ subst r5. rewrite (run_bind_Raise _ _ _ _ _ Hrun5). split; assumption || reflexivity. }
  destruct Hl as (-> & Hg5 & Hwf3).
  rewrite (run_bind_Ok _ _ _ _ _ Hrun5).
  (* topology *)
  destruct (Htop h5 graph g3 Hin5 Hunused Hwf3 Hg5) as [Hin6 Ht].
  destruct (_build_topology_st self structure graph h5) as [r6 h6] eqn:Hrun6.
  simpl in Hin6, Ht.
  destruct (_build_topology self s g3) as [g4|e]; simpl.
  2:{ subst r6. rewrite (run_bind_Raise _ _ _ _ _ Hrun6). split; assumption || reflexivity. }
  destruct Ht as (-> & Hg6 & _).
  rewrite (run_bind_Ok _ _ _ _ _ Hrun6). simpl.
  split; [exact Hin6|]. exists graph. split; [reflexivity | exact Hg6].
Qed.

(** Making a tensor and attaching it to the graph. *)
Lemma hook_refines_attach inputs (mk_st : St loc) (mk : result Tensor) key :
  (∀ h0, keeps h0 mk_st (fun _ => True)) →
  tensor_refines inputs mk_st mk →
  hook_refines inputs (fun graph => l ← mk_st; ndata_set_st key l graph)
    (fun g => t ← mk; ndata_set key t g).
Proof.
  intros Hkeeps Hmk h graph g Hin Hunused Hwf Hg.
  specialize (Hmk h Hin).
  destruct (Hkeeps h h (reflexivity h)) as [Hsub _].
  destruct (Hkeeps inputs h Hin) as [Hin_mid _].
  destruct (mk_st h) as [r hm] eqn:Hrun. simpl in *.
  destruct mk as [t|e]; simpl.
  - destruct Hmk as (l & o & -> & Ho & Ht).
    rewrite (run_bind_Ok _ _ _ _ _ Hrun).
    pose proof (refines_ndata_set_st hm key l graph g o t
                  (graph_at_weaken _ _ _ _ Hsub Hg) Ho Ht) as Hset.
    destruct (keeps_ndata_set_st inputs key l graph Hunused hm Hin_mid) as [Hin' _].
    split; [exact Hin'|].
    destruct (ndata_set key t g) as [g'|e] eqn:Hpure.
    + destruct Hset as (h' & Hrun' & Hg'). rewrite Hrun'. simpl.
      split; [reflexivity|]. split; [exact Hg'|].
      eapply graph_wf_ndata_set; eassumption.
    + rewrite Hset. reflexivity.
  - subst r. rewrite (run_bind_Raise _ _ _ _ _ Hrun). simpl. split; [exact Hin_mid | reflexivity].
Qed.

Lemma tensor_refines_FloatTensor2 inputs a v :
  inputs !! a = Some (NdFloat2 v) →
  tensor_refines inputs (torch_FloatTensor2_st a) (Ok (FloatTensor2 v)).
Proof.
  intros Ha h Hin. unfold torch_FloatTensor2_st.
  rewrite (run_bind_Ok _ _ _ _ _ (run_load_float2 _ _ _ (lookup_weaken _ _ _ _ Ha Hin))).
  destruct (run_alloc h (NdFloat2 v)) as (l & _ & ->). simpl.
  exists l, (NdFloat2 v). split; [reflexivity|]. split; [apply lookup_insert_eq | reflexivity].
Qed.

Lemma tensor_refines_KNN_labels inputs annotation ann :
  inputs !! annotation = Some (NdFloat1 ann) →
  tensor_refines inputs (KNN_labels_st annotation) (Ok (FloatTensor1 ann)).
Proof.
  intros Ha h Hin. unfold KNN_labels_st, torch_FloatTensor1_st.
  rewrite (run_bind_Ok _ _ _ _ _ (run_load_float1 _ _ _ (lookup_weaken _ _ _ _ Ha Hin))).
  destruct (run_alloc h (NdFloat1 ann)) as (a & _ & Ha1).
  rewrite (run_bind_Ok _ _ _ _ _ Ha1).
  rewrite (run_bind_Ok _ _ _ _ _ (run_load_float1 _ _ _ (lookup_insert_eq _ _ _))).
  destruct (run_alloc (<[a := NdFloat1 ann]> h) (NdFloat1 ann)) as (l & _ & ->). simpl.
  exists l, (NdFloat1 ann). split; [reflexivity|]. split; [apply lookup_insert_eq | reflexivity].
Qed.

Lemma hook_refines_KNN_build_topology inputs self centroids X :
  inputs !! centroids = Some (NdFloat2 X) →
  hook_refines inputs (KNN_build_topology_st self centroids) (KNN_build_topology self X).
Proof.
  intros HX h graph g Hin Hunused Hwf Hg.
  destruct (keeps_KNN_build_topology_st inputs self centroids graph Hunused h Hin) as [Hin' _].
  split; [exact Hin'|].
  unfold KNN_build_topology_st, KNN_build_topology.
  rewrite (run_bind_Ok _ _ _ _ _ (run_load_float2 _ _ _ (lookup_weaken _ _ _ _ HX Hin))).
  rewrite run_bind_lift.
  destruct (kneighbors_graph X (k self)) as [adj|e]; simpl; [|reflexivity].
  match goal with
  | |- context [add_edges ?us ?vs g] =>
      pose proof (refines_add_edges_st h us vs graph g Hg) as Hadd;
      destruct (add_edges us vs g) as [g'|e] eqn:Hpure
  end.
  - destruct Hadd as (h' & -> & Hg'). simpl. split; [reflexivity|]. split; [exact Hg'|].
    eapply graph_wf_add_edges; eassumption.
  - rewrite Hadd. reflexivity.
Qed.

(** The proximity builder on the store computes the graph that the builder
    on values computes, and raises when it raises. *)
Lemma KNN_process_st_refines (self : KNNGraphBuilder) h centroids features annotation
    X f ann :
  h !! centroids = Some (NdFloat2 X) →
  h !! features = Some (NdFloat2 f) →
  match annotation, ann with
  | Some al, Some a => h !! al = Some (NdFloat1 a)
  | None, None => True
  | _, _ => False
  end →
  match process self X f ann with
  | Ok g => ∃ graph,
      (process_st self centroids features annotation h).1 = Ok graph ∧
      read_graph (process_st self centroids features annotation h).2 graph = Some g
  | Raise e => (process_st self centroids features annotation h).1 = Raise e
  end.
Proof.
  intros HX Hf Hann.
  destruct (process_st_refines self h centroids features annotation X f ann) with (h := h)
    as [_ Href]; try assumption || reflexivity.
  - apply (hook_refines_attach h (torch_FloatTensor2_st centroids) (Ok (FloatTensor2 X))).
    + intros h0. eapply keeps_weaken; [apply keeps_torch_FloatTensor2_st | auto].
    + apply tensor_refines_FloatTensor2. exact HX.
  - destruct annotation as [al|], ann as [a|]; try contradiction; [|exact I].
    apply (hook_refines_attach h (KNN_labels_st al) (Ok (FloatTensor1 a))).
    + intros h0. eapply keeps_weaken; [apply keeps_KNN_labels_st | auto].
    + apply tensor_refines_KNN_labels. exact Hann.
  - apply hook_refines_KNN_build_topology. exact HX.
  - destruct (process self X f ann) as [g|e]; [|exact Href].
    destruct Href as (graph & Hr & Hg). exists graph. split; [exact Hr|].
    apply graph_at_read. exact Hg.
Qed.

(** *** The region-adjacency builder: centroids *)

Lemma run_np_set2_st h c rows i row j v :
  h !! c = Some (NdFloat2 rows) → rows !! i = Some row → (j < length row)%nat →
  np_set2_st c i j v h
  = (Ok tt, <[c := NdFloat2 (<[i := <[j := v]> row]> rows)]> h).
Proof.
  intros Hc Hi Hj. unfold np_set2_st.
  rewrite (run_bind_Ok _ _ _ _ _ (run_load_float2 _ _ _ Hc)), Hi.
  rewrite decide_True by exact Hj. reflexivity.
Qed.

(** The loop that fills [centroids] row by row. *)
Lemma centroid_loop c (l : list (Z * (Q * Q))) : ∀ pre h,
  h !! c = Some (NdFloat2 (pre ++ replicate (length l) [0; 0]%Q)) →
  let run :=
    for_each_st (imap (fun i r => ((length pre + i)%nat, r)) l)
      (fun ir : nat * (Z * (Q * Q)) =>
         let '(center_y, center_x) := ir.2.2 in
         let center_x := py_round center_x in
         let center_y := py_round center_y in
         _ ← np_set2_st c ir.1 0 (inject_Z center_x);
         np_set2_st c ir.1 1 (inject_Z center_y)) h in
  run.1 = Ok tt ∧ run.2 !! c = Some (NdFloat2 (pre ++ map centroid_row l)).
Proof.
  induction l as [|region l IH]; intros pre h Hc; simpl.
  - split; [reflexivity | exact Hc].
  - destruct region as [label [center_y center_x]]. simpl in *.
    assert (Hrow : (pre ++ [0; 0]%Q :: replicate (length l) [0; 0]%Q)%list
                     !! (length pre + 0)%nat = Some [0; 0]%Q).
    { rewrite lookup_app_r by lia. replace (length pre + 0 - length pre)%nat with 0%nat by lia.
      reflexivity. }
    set (row := [inject_Z (py_round center_x); inject_Z (py_round center_y)]).
    assert (Hbody :
      (_ ← np_set2_st c (length pre + 0) 0 (inject_Z (py_round center_x));
       np_set2_st c (length pre + 0) 1 (inject_Z (py_round center_y))) h
      = (Ok tt, <[c := NdFloat2 (pre ++ row :: replicate (length l) [0; 0]%Q)]> h)).
    { rewrite (run_bind_Ok _ _ _ _ _
                 (run_np_set2_st _ _ _ _ _ 0 _ Hc Hrow ltac:(simpl; lia))).
      rewrite insert_app_r. simpl.
      assert (Hrow1 : (pre ++ [inject_Z (py_round center_x); 0%Q]
                            :: replicate (length l) [0; 0]%Q)%list
                        !! (length pre + 0)%nat
                      = Some [inject_Z (py_round center_x); 0%Q]).
      { rewrite lookup_app_r by lia.
        replace (length pre + 0 - length pre)%nat with 0%nat by lia. reflexivity. }
      rewrite (run_np_set2_st _ c _ _ _ 1 (inject_Z (py_round center_y))
                 (lookup_insert_eq _ _ _) Hrow1 ltac:(simpl; lia)).
      rewrite insert_app_r. simpl. rewrite insert_insert_eq. reflexivity. }
    rewrite (run_bind_Ok _ _ _ _ _ Hbody).
    specialize (IH (pre ++ [row])%list
                  (<[c := NdFloat2 (pre ++ row :: replicate (length l) [0; 0]%Q)]> h)).
    rewrite length_app in IH. simpl in IH.
    rewrite (imap_ext _ (fun i r => ((length pre + 1 + i)%nat, r))).
    + rewrite <- !app_assoc in IH. simpl in IH. apply IH. apply lookup_insert_eq.
    + intros i x _. simpl. f_equal. lia.
Qed.

Lemma tensor_refines_RAG_centroids inputs instance_map im :
  inputs !! instance_map = Some (NdInt2 im) →
  tensor_refines inputs (RAG_centroids_st instance_map)
    (Ok (FloatTensor2 (map centroid_row (regionprops im)))).
Proof.
  intros Him h Hin. unfold RAG_centroids_st.
  rewrite (run_bind_Ok _ _ _ _ _ (run_load_int2 _ _ _ (lookup_weaken _ _ _ _ Him Hin))).
  destruct (run_alloc h (NdFloat2 (replicate (length (regionprops im)) [0; 0]%Q)))
    as (c & _ & Halloc).
  rewrite (run_bind_Ok _ _ _ _ _ Halloc).
  destruct (centroid_loop c (regionprops im) []
              (<[c := NdFloat2 (replicate (length (regionprops im)) [0; 0]%Q)]> h))
    as [Hr Hc]; [apply lookup_insert_eq|].
  simpl in Hr, Hc.
  match type of Hr with
  | (?m ?h1).1 = _ => destruct (m h1) as [r h2] eqn:Hrun
  end.
  simpl in Hr, Hc. subst r.
  rewrite (run_bind_Ok _ _ _ _ _ Hrun).
  unfold torch_FloatTensor2_st.
  rewrite (run_bind_Ok _ _ _ _ _ (run_load_float2 _ _ _ Hc)).
  destruct (run_alloc h2 (NdFloat2 (map centroid_row (regionprops im)))) as (t & _ & ->).
  simpl. eexists t, _. split; [reflexivity|]. split; [apply lookup_insert_eq | reflexivity].
Qed.

(** *** The region-adjacency builder: labels *)

Lemma run_bind_store {B} l o (f : unit → St B) h :
  (x ← store l o; f x) h = f tt (<[l := o]> h).
Proof. reflexivity. Qed.

Lemma run_bind_ret {A B} (a : A) (f : A → St B) h :
  (x ← mret a; f x) h = f a h.
Proof. reflexivity. Qed.

Lemma run_bind_assoc {A B C} (m : St A) (g : A → St B) (f : B → St C) h :
  (x ← (y ← m; g y); f x) h = (y ← m; x ← g y; f x) h.
Proof.
  unfold mbind, St_bind. destruct (m h) as [[a|e] h']; reflexivity.
Qed.

(** Lookups through the updates made since a store [h]: a location written
    since is found by [lookup_insert_eq], a location of [h] is not one of the
    new locations. *)
Ltac solve_lookup :=
  repeat first
    [ apply lookup_insert_eq
    | rewrite lookup_insert_ne by (first [assumption | intros ->; congruence]) ];
  try assumption.

Ltac load_int1_step l v :=
  match goal with
  | |- context [mbind _ (load_int1 l) ?hh] =>
      let Hh := fresh in
      assert (Hh : hh !! l = Some (NdInt1 v)) by solve_lookup;
      rewrite (run_bind_Ok _ _ _ _ _ (run_load_int1 _ _ _ Hh)); clear Hh
  end.

Ltac load_int2_step l v :=
  match goal with
  | |- context [mbind _ (load_int2 l) ?hh] =>
      let Hh := fresh in
      assert (Hh : hh !! l = Some (NdInt2 v)) by solve_lookup;
      rewrite (run_bind_Ok _ _ _ _ _ (run_load_int2 _ _ _ Hh)); clear Hh
  end.

Ltac load_byte_step l v :=
  match goal with
  | |- context [mbind _ (load_byte l) ?hh] =>
      let Hh := fresh in
      assert (Hh : hh !! l = Some (TByte v)) by solve_lookup;
      rewrite (run_bind_Ok _ _ _ _ _ (run_load_byte _ _ _ Hh)); clear Hh
  end.

Lemma run_RAG_label_region_st self h im_loc ann_loc labels im ann t r :
  h !! im_loc = Some (NdInt2 im) → h !! ann_loc = Some (NdInt2 ann) →
  h !! labels = Some (TByte t) →
  match (assignment ← region_assignment (rag_base self) im ann r;
         torch_set_uint8 t (r - 1) assignment) with
  | Ok t' =>
      (RAG_label_region_st self im_loc ann_loc labels r h).1 = Ok tt ∧
      (RAG_label_region_st self im_loc ann_loc labels r h).2 !! labels = Some (TByte t')
  | Raise e => (RAG_label_region_st self im_loc ann_loc labels r h).1 = Raise e
  end.
Proof.
  intros Him Hann Hlab. unfold RAG_label_region_st, region_assignment, label_of_histogram.
  match goal with |- match ?p with _ => _ end => remember p as res eqn:Hres end.
  rewrite (run_bind_Ok _ _ _ _ _ (run_load_int2 _ _ _ Hann)).
  rewrite (run_bind_Ok _ _ _ _ _ (run_load_int2 _ _ _ Him)).
  rewrite run_bind_lift.
  destruct (np_bool_index ann (np_eq_scalar im r)) as [pixels|e]; simpl in Hres;
    [|subst res; reflexivity].
  set (hist := fast_histogram pixels (nr_classes (rag_base self))) in *.
  destruct (run_alloc h (NdInt1 hist)) as (lh & Hlh & Ha1).
  rewrite (run_bind_Ok _ _ _ _ _ Ha1).
  rewrite (run_bind_Ok _ _ _ _ _ (run_load_int1 _ _ _ (lookup_insert_eq _ _ _))).
  destruct (run_alloc (<[lh := NdInt1 hist]> h) (NdBool1 (replicate (length hist) true)))
    as (lm & Hlm & Ha2).
  apply lookup_insert_None in Hlm as [Hlm Hne].
  rewrite (run_bind_Ok _ _ _ _ _ Ha2).
  rewrite (run_bind_Ok _ _ _ _ _ (run_load_bool1 _ _ _ (lookup_insert_eq _ _ _))).
  rewrite run_bind_lift.
  destruct (np_set (replicate (length hist) true) (background_class (rag_base self)) false)
    as [mask|e]; simpl in Hres; [|subst res; reflexivity].
  rewrite run_bind_store.
  rewrite (run_bind_Ok _ _ _ _ _ (run_load_bool1 _ _ _ (lookup_insert_eq _ _ _))).
  load_int1_step lh hist.
  destruct (np_sum (select_row hist mask) =? 0); simpl in Hres.
  - rewrite run_bind_ret.
    load_byte_step labels t.
    rewrite run_bind_lift.
    destruct (torch_set_uint8 t (r - 1) (background_class (rag_base self))) as [t'|e];
      subst res; [|reflexivity].
    split; [reflexivity | apply lookup_insert_eq].
  - rewrite run_bind_assoc, run_bind_lift.
    destruct (np_set hist (background_class (rag_base self)) 0) as [hist'|e];
      simpl in Hres; [|subst res; reflexivity].
    rewrite run_bind_assoc, run_bind_store.
    rewrite run_bind_assoc.
    load_int1_step lh hist'.
    rewrite run_bind_assoc, run_bind_lift.
    destruct (np_argmax hist') as [a|e]; simpl in Hres; [|subst res; reflexivity].
    rewrite run_bind_ret.
    load_byte_step labels t.
    rewrite run_bind_lift.
    destruct (torch_set_uint8 t (r - 1) (Z.of_nat a)) as [t'|e]; subst res; [|reflexivity].
    split; [reflexivity | apply lookup_insert_eq].
Qed.

Lemma labels_loop_refines self inputs im_loc ann_loc labels im ann :
  inputs !! im_loc = Some (NdInt2 im) → inputs !! ann_loc = Some (NdInt2 ann) →
  unused inputs labels →
  ∀ U h t, inputs ⊆ h → h !! labels = Some (TByte t) →
    match for_each U (fun region_label labels =>
              assignment ← region_assignment (rag_base self) im ann region_label;
              torch_set_uint8 labels (region_label - 1) assignment) t with
    | Ok t' =>
        (for_each_st U (RAG_label_region_st self im_loc ann_loc labels) h).1 = Ok tt ∧
        (for_each_st U (RAG_label_region_st self im_loc ann_loc labels) h).2 !! labels
        = Some (TByte t')
    | Raise e =>
        (for_each_st U (RAG_label_region_st self im_loc ann_loc labels) h).1 = Raise e
    end.
Proof.
  intros Him Hann Hunused U. induction U as [|r U IH]; intros h t Hin Hlab; simpl.
  - split; [reflexivity | exact Hlab].
  - pose proof (run_RAG_label_region_st self h im_loc ann_loc labels im ann t r
                  (lookup_weaken _ _ _ _ Him Hin) (lookup_weaken _ _ _ _ Hann Hin) Hlab)
      as Hbody.
    destruct (keeps_RAG_label_region_st inputs self im_loc ann_loc labels r Hunused h Hin)
      as [Hin1 _].
    destruct (RAG_label_region_st self im_loc ann_loc labels r h) as [r1 h1] eqn:Hrun.
    simpl in Hbody, Hin1.
    destruct (region_assignment (rag_base self) im ann r
              ≫= λ assignment, torch_set_uint8 t (r - 1) assignment) as [t1|e]; simpl.
    + destruct Hbody as [-> Hlab1]. rewrite (run_bind_Ok _ _ _ _ _ Hrun).
      apply IH; assumption.
    + subst r1. rewrite (run_bind_Raise _ _ _ _ _ Hrun). reflexivity.
Qed.

Lemma RAG_set_node_labels_attach self im ann g :
  RAG_set_node_labels self im ann g
  = (t ← RAG_labels_tensor self im ann; ndata_set LABEL t g).
Proof.
  unfold RAG_set_node_labels, RAG_labels_tensor.
  destruct (py_assert _ _); simpl; [|reflexivity].
  destruct (for_each _ _ _); reflexivity.
Qed.

Lemma tensor_refines_RAG_labels inputs self im_loc ann_loc im ann :
  inputs !! im_loc = Some (NdInt2 im) → inputs !! ann_loc = Some (NdInt2 ann) →
  tensor_refines inputs (RAG_labels_st self im_loc ann_loc) (RAG_labels_tensor self im ann).
Proof.
  intros Him Hann h Hin. unfold RAG_labels_st, RAG_labels_tensor.
  rewrite run_bind_lift.
  destruct (py_assert _ _) as [[]|e]; simpl; [|reflexivity].
  rewrite (run_bind_Ok _ _ _ _ _ (run_load_int2 _ _ _ (lookup_weaken _ _ _ _ Him Hin))).
  set (U := pd_unique (np_ravel im)).
  destruct (run_alloc h (TByte (torch_empty (length U)))) as (labels & Hfresh & Halloc).
  rewrite (run_bind_Ok _ _ _ _ _ Halloc).
  assert (Hunused : unused inputs labels).
  { unfold unused. destruct (inputs !! labels) eqn:Hil; [|reflexivity].
    eapply lookup_weaken in Hil; [|exact Hin]. congruence. }
  assert (Hin1 : inputs ⊆ <[labels := TByte (torch_empty (length U))]> h).
  { etransitivity; [exact Hin|]. apply insert_subseteq. exact Hfresh. }
  pose proof (labels_loop_refines self inputs im_loc ann_loc labels im ann Him Hann Hunused
                U (<[labels := TByte (torch_empty (length U))]> h) (torch_empty (length U))
                Hin1 (lookup_insert_eq _ _ _))
    as Hloop.
  destruct (for_each_st U (RAG_label_region_st self im_loc ann_loc labels)
              (<[labels := TByte (torch_empty (length U))]> h)) as [r1 h1] eqn:Hrun.
  simpl in Hloop.
  destruct (for_each U _ (torch_empty (length U))) as [t'|e]; simpl.
  - destruct Hloop as [-> Hlab].
    rewrite (run_bind_Ok _ _ _ _ _ Hrun). simpl.
    exists labels, (TByte t'). split; [reflexivity|]. split; [exact Hlab | reflexivity].
  - subst r1. rewrite (run_bind_Raise _ _ _ _ _ Hrun). reflexivity.
Qed.

Lemma hook_refines_ext inputs f_st (f f' : DGLGraph → result DGLGraph) :
  (∀ g, f g = f' g) → hook_refines inputs f_st f → hook_refines inputs f_st f'.
Proof.
  intros Heq Href h graph g Hin Hunused Hwf Hg. rewrite <- Heq. apply Href; assumption.
Qed.

(** *** The region-adjacency builder: topology *)

Lemma run_RAG_adjacency_row_st h im_loc adjacency im a ksize n instance_id :
  h !! im_loc = Some (NdInt2 im) → h !! adjacency = Some (NdInt2 a) →
  match np_set_row_cols a n (instance_id - 1)
          (map (fun i => i - 1) (ring_ids im ksize instance_id)) 1 with
  | Ok a' =>
      (RAG_adjacency_row_st im_loc adjacency ksize n instance_id h).1 = Ok tt ∧
      (RAG_adjacency_row_st im_loc adjacency ksize n instance_id h).2 !! adjacency
      = Some (NdInt2 a')
  | Raise e => (RAG_adjacency_row_st im_loc adjacency ksize n instance_id h).1 = Raise e
  end.
Proof.
  intros Him Hadj. unfold RAG_adjacency_row_st.
  rewrite (run_bind_Ok _ _ _ _ _ (run_load_int2 _ _ _ Him)).
  destruct (run_alloc h (NdInt1 (ring_ids im ksize instance_id))) as (idx & Hidx & Ha).
  rewrite (run_bind_Ok _ _ _ _ _ Ha).
  rewrite (run_bind_Ok _ _ _ _ _ (run_load_int1 _ _ _ (lookup_insert_eq _ _ _))).
  rewrite run_bind_store.
  load_int2_step adjacency a.
  rewrite (run_bind_Ok _ _ _ _ _ (run_load_int1 _ _ _ (lookup_insert_eq _ _ _))).
  rewrite run_bind_lift.
  destruct (np_set_row_cols a n (instance_id - 1)
              (map (fun i => i - 1) (ring_ids im ksize instance_id)) 1) as [a'|e];
    [|reflexivity].
  split; [reflexivity | apply lookup_insert_eq].
Qed.

Lemma adjacency_loop_refines inputs im_loc adjacency im ksize n :
  inputs !! im_loc = Some (NdInt2 im) → unused inputs adjacency →
  ∀ ids h a, inputs ⊆ h → h !! adjacency = Some (NdInt2 a) →
    match for_each ids (fun instance_id adjacency =>
              np_set_row_cols adjacency n (instance_id - 1)
                (map (fun i => i - 1) (ring_ids im ksize instance_id)) 1) a with
    | Ok a' =>
        (for_each_st ids (RAG_adjacency_row_st im_loc adjacency ksize n) h).1 = Ok tt ∧
        (for_each_st ids (RAG_adjacency_row_st im_loc adjacency ksize n) h).2 !! adjacency
        = Some (NdInt2 a')
    | Raise e =>
        (for_each_st ids (RAG_adjacency_row_st im_loc adjacency ksize n) h).1 = Raise e
    end.
Proof.
  intros Him Hunused ids. induction ids as [|id ids IH]; intros h a Hin Hadj; simpl.
  - split; [reflexivity | exact Hadj].
  - pose proof (run_RAG_adjacency_row_st h im_loc adjacency im a ksize n id
                  (lookup_weaken _ _ _ _ Him Hin) Hadj) as Hbody.
    destruct (keeps_RAG_adjacency_row_st inputs im_loc adjacency ksize n id Hunused h Hin)
      as [Hin1 _].
    destruct (RAG_adjacency_row_st im_loc adjacency ksize n id h) as [r1 h1] eqn:Hrun.
    simpl in Hbody, Hin1.
    destruct (np_set_row_cols a n (id - 1) (map (fun i => i - 1) (ring_ids im ksize id)) 1)
      as [a1|e]; simpl.
    + destruct Hbody as [-> Hadj1]. rewrite (run_bind_Ok _ _ _ _ _ Hrun).
      apply IH; assumption.
    + subst r1. rewrite (run_bind_Raise _ _ _ _ _ Hrun). reflexivity.
Qed.

Lemma RAG_adjacency_st_refines inputs im_loc im ksize h :
  inputs !! im_loc = Some (NdInt2 im) → inputs ⊆ h →
  (RAG_adjacency_st im_loc ksize h).1 = RAG_adjacency im ksize.
Proof.
  intros Him Hin. unfold RAG_adjacency_st, RAG_adjacency.
  rewrite (run_bind_Ok _ _ _ _ _ (run_load_int2 _ _ _ (lookup_weaken _ _ _ _ Him Hin))).
  set (ids := instance_ids_of im). set (n := length ids).
  destruct (run_alloc h (NdInt2 (np_zeros2 n n))) as (adjacency & Hfresh & Halloc).
  rewrite (run_bind_Ok _ _ _ _ _ Halloc).
  assert (Hunused : unused inputs adjacency).
  { unfold unused. destruct (inputs !! adjacency) eqn:Hil; [|reflexivity].
    eapply lookup_weaken in Hil; [|exact Hin]. congruence. }
  assert (Hin1 : inputs ⊆ <[adjacency := NdInt2 (np_zeros2 n n)]> h).
  { etransitivity; [exact Hin|]. apply insert_subseteq. exact Hfresh. }
  pose proof (adjacency_loop_refines inputs im_loc adjacency im ksize n Him Hunused ids
                _ (np_zeros2 n n) Hin1 (lookup_insert_eq _ _ _)) as Hloop.
  destruct (for_each_st ids (RAG_adjacency_row_st im_loc adjacency ksize n)
              (<[adjacency := NdInt2 (np_zeros2 n n)]> h)) as [r1 h1] eqn:Hrun.
  simpl in Hloop.
  match type of Hloop with
  | match ?p with _ => _ end => destruct p as [a'|e]
  end.
  - destruct Hloop as [-> Hadj]. rewrite (run_bind_Ok _ _ _ _ _ Hrun).
    rewrite (run_load_int2 _ _ _ Hadj). reflexivity.
  - subst r1. rewrite (run_bind_Raise _ _ _ _ _ Hrun). reflexivity.
Qed.

Lemma graph_at_ok h graph g :
  graph_at h graph g → graph_wf g → graph_ok h graph (number_of_nodes g).
Proof.
  intros (nd & Hg & Hnd) [Hwf _]. exists nd, (edges g). split; [exact Hg|].
  intros key l Hl. specialize (Hnd key). rewrite Hl in Hnd.
  destruct Hnd as (o & t & Ho & Ht & Hk). exists o. split; [exact Ho|].
  rewrite (shape0_obj_tensor _ _ Ht). f_equal. eapply Hwf, Hk.
Qed.

Lemma length_A_tilde n es :
  length (A_tilde_of (adjacency_matrix (mkGraph n ∅ es))) = n.
Proof.
  unfold A_tilde_of, matrix_add, matmul, adjacency_matrix. simpl.
  rewrite length_imap, length_zip_with, !length_map, length_seq. lia.
Qed.

Lemma copy_ndata_loop new n es' : ∀ kvs h nd_acc,
  h !! new = Some (PyGraph n nd_acc es') →
  (∀ kv, kv ∈ kvs → kv.2 ≠ new ∧ ∃ o, h !! kv.2 = Some o ∧ shape0_obj o = Ok n) →
  (∀ key l, nd_acc !! key = Some l →
            l ≠ new ∧ ∃ o, h !! l = Some o ∧ shape0_obj o = Ok n) →
  ∃ h', for_each_st kvs (fun kv : string * loc => ndata_set_st kv.1 kv.2 new) h
        = (Ok tt, h') ∧ graph_ok h' new n.
Proof.
  induction kvs as [|[key val] kvs IH]; intros h nd_acc Hnew Hkvs Hacc; simpl.
  - exists h. split; [reflexivity|]. exists nd_acc, es'. split; [exact Hnew|].
    intros key l Hl. destruct (Hacc key l Hl) as [_ Ho]. exact Ho.
  - destruct (Hkvs (key, val)) as (Hne & o & Ho & Hshape); [left|]. simpl in *.
    assert (Hstep : ndata_set_st key val new h
                    = (Ok tt, <[new := PyGraph n (<[key := val]> nd_acc) es']> h)).
    { unfold ndata_set_st.
      rewrite (run_bind_Ok _ _ _ _ _ (run_load_graph _ _ _ _ _ Hnew)).
      rewrite (run_bind_Ok _ _ _ _ _ (run_load _ _ _ Ho)).
      rewrite run_bind_lift, Hshape. rewrite decide_True by reflexivity. reflexivity. }
    rewrite (run_bind_Ok _ _ _ _ _ Hstep).
    apply (IH _ (<[key := val]> nd_acc)).
    + apply lookup_insert_eq.
    + intros kv Hkv. destruct (Hkvs kv) as (Hne' & o' & Ho' & Hs'); [right; exact Hkv|].
      split; [exact Hne'|]. exists o'. split; [|exact Hs'].
      rewrite lookup_insert_ne by auto. exact Ho'.
    + intros key' l Hl. destruct (decide (key = key')) as [<-|Hk].
      * rewrite lookup_insert_eq in Hl. injection Hl as <-. split; [exact Hne|].
        exists o. split; [|exact Hshape]. rewrite lookup_insert_ne by auto. exact Ho.
      * rewrite lookup_insert_ne in Hl by exact Hk.
        destruct (Hacc key' l Hl) as (Hne' & o' & Ho' & Hs'). split; [exact Hne'|].
        exists o'. split; [|exact Hs']. rewrite lookup_insert_ne by auto. exact Ho'.
Qed.

(** [two_hop_neighborhood] does not raise on such a graph and returns
    another one. *)
Lemma two_hop_neighborhood_st_ok h graph n :
  graph_ok h graph n →
  ∃ new h', two_hop_neighborhood_st graph h = (Ok new, h') ∧ graph_ok h' new n.
Proof.
  intros (nd & es & Hg & Hnd). unfold two_hop_neighborhood_st.
  rewrite (run_bind_Ok _ _ _ _ _ (run_load_graph _ _ _ _ _ Hg)).
  destruct (run_alloc h (PyGraph 0 ∅ [])) as (new & Hfresh & Halloc).
  rewrite (run_bind_Ok _ _ _ _ _ Halloc).
  rewrite run_bind_store, insert_insert_eq, length_A_tilde.
  set (es' := from_numpy_matrix_edges _).
  destruct (copy_ndata_loop new n es' (map_to_list nd)
              (<[new := PyGraph n ∅ es']> h) ∅) as (h' & Hloop & Hok).
  - apply lookup_insert_eq.
  - intros [key l] Hkv. apply elem_of_map_to_list in Hkv. simpl.
    destruct (Hnd key l Hkv) as (o & Ho & Hs).
    assert (l ≠ new) by (intros ->; congruence).
    split; [assumption|]. exists o. split; [|exact Hs].
    rewrite lookup_insert_ne by auto. exact Ho.
  - intros key l Hl. rewrite lookup_empty in Hl. discriminate.
  - rewrite (run_bind_Ok _ _ _ _ _ Hloop). exists new, h'. split; [reflexivity | exact Hok].
Qed.

Lemma hops_loop_ok count : ∀ h graph n,
  graph_ok h graph n →
  ∃ l h', Nat.iter count (fun acc : St loc => g ← acc; two_hop_neighborhood_st g)
            (mret graph) h = (Ok l, h') ∧ graph_ok h' l n.
Proof.
  induction count as [|count IH]; intros h graph n Hok; simpl.
  - exists graph, h. split; [reflexivity | exact Hok].
  - destruct (IH h graph n Hok) as (l & h1 & Hrun & Hok1).
    rewrite (run_bind_Ok _ _ _ _ _ Hrun).
    apply two_hop_neighborhood_st_ok. exact Hok1.
Qed.

Lemma hook_refines_RAG_build_topology inputs self im_loc im :
  inputs !! im_loc = Some (NdInt2 im) →
  hook_refines inputs (RAG_build_topology_st self im_loc) (RAG_build_topology self im).
Proof.
  intros Him h graph g Hin Hunused Hwf Hg.
  destruct (keeps_RAG_build_topology_st inputs self im_loc graph Hunused h Hin) as [Hin' _].
  split; [exact Hin'|].
  unfold RAG_build_topology_st, RAG_build_topology, RAG_build_topology_locals.
  rewrite run_bind_lift.
  destruct (np_ones_kernel (kernel_size self)) as [ksize|e]; simpl; [|reflexivity].
  pose proof (RAG_adjacency_st_refines inputs im_loc im ksize h Him Hin) as Hadj.
  destruct (keeps_RAG_adjacency_st h im_loc ksize h (reflexivity h)) as [Hsub1 _].
  destruct (RAG_adjacency_st im_loc ksize h) as [r1 h1] eqn:Hrun1. simpl in Hadj, Hsub1.
  destruct (RAG_adjacency im ksize) as [adj|e]; simpl; subst r1.
  2:{ rewrite (run_bind_Raise _ _ _ _ _ Hrun1). reflexivity. }
  rewrite (run_bind_Ok _ _ _ _ _ Hrun1).
  pose proof (refines_add_edges_st h1 (map fst (np_nonzero2 adj)) (map snd (np_nonzero2 adj))
                graph g (graph_at_weaken _ _ _ _ Hsub1 Hg)) as Hadd.
  destruct (add_edges (map fst (np_nonzero2 adj)) (map snd (np_nonzero2 adj)) g)
    as [g'|e] eqn:Hpure; simpl.
  2:{ rewrite (run_bind_Raise _ _ _ _ _ Hadd). reflexivity. }
  destruct Hadd as (h2 & Hrun2 & Hg2).
  rewrite (run_bind_Ok _ _ _ _ _ Hrun2).
  destruct (graph_wf_add_edges _ _ _ _ Hwf Hpure) as (Hwf' & _ & _).
  destruct (hops_loop_ok (Z.to_nat (hops self - 1)) h2 graph _ (graph_at_ok _ _ _ Hg2 Hwf'))
    as (l & h3 & Hrun3 & _).
  destruct (keeps_hops_loop h2 (Z.to_nat (hops self - 1)) graph h2 (reflexivity h2))
    as [Hsub3 _].
  rewrite Hrun3 in Hsub3. simpl in Hsub3.
  rewrite (run_bind_Ok _ _ _ _ _ Hrun3). simpl.
  split; [reflexivity|]. split; [|exact Hwf'].
  eapply graph_at_weaken; eassumption.
Qed.

(** The region-adjacency builder on the store computes the graph that the
    builder on values computes, and raises when it raises. *)
Lemma RAG_process_st_refines (self : RAGGraphBuilder) h instance_map features annotation
    im f ann :
  h !! instance_map = Some (NdInt2 im) →
  h !! features = Some (NdFloat2 f) →
  match annotation, ann with
  | Some al, Some a => h !! al = Some (NdInt2 a)
  | None, None => True
  | _, _ => False
  end →
  match process self im f ann with
  | Ok g => ∃ graph,
      (process_st self instance_map features annotation h).1 = Ok graph ∧
      read_graph (process_st self instance_map features annotation h).2 graph = Some g
  | Raise e => (process_st self instance_map features annotation h).1 = Raise e
  end.
Proof.
  intros Him Hf Hann.
  destruct (process_st_refines self h instance_map features annotation im f ann) with (h := h)
    as [_ Href]; try assumption || reflexivity.
  - apply (hook_refines_attach h (RAG_centroids_st instance_map)
             (Ok (FloatTensor2 (map centroid_row (regionprops im))))).
    + intros h0. eapply keeps_weaken; [apply keeps_RAG_centroids_st | auto].
    + apply tensor_refines_RAG_centroids. exact Him.
  - destruct annotation as [al|], ann as [a|]; try contradiction; [|exact I].
    apply (hook_refines_ext h _ (fun g => t ← RAG_labels_tensor self im a; ndata_set LABEL t g)).
    + intros g. symmetry. apply RAG_set_node_labels_attach.
    + apply (hook_refines_attach h (RAG_labels_st self instance_map al)).
      * intros h0. eapply keeps_weaken; [apply keeps_RAG_labels_st | auto].
      * apply tensor_refines_RAG_labels; assumption.
  - apply hook_refines_RAG_build_topology. exact Him.
  - destruct (process self im f ann) as [g|e]; [|exact Href].
    destruct Href as (graph & Hr & Hg). exists graph. split; [exact Hr|].
    apply graph_at_read. exact Hg.
Qed.

(** ** Where the self-loops of the region-adjacency builder come from *)

Lemma elem_of_mask_select {A} (a : list (list A)) (m : list (list bool)) (v : A) :
  v ∈ mask_select a m →
  ∃ y x row mrow, a !! y = Some row ∧ m !! y = Some mrow ∧
                  row !! x = Some v ∧ mrow !! x = Some true.
Proof.
  unfold mask_select. intros Hv. apply elem_of_concat in Hv as (l & Hl & Hv).
  apply elem_of_lookup_zip_with in Hl as (y & row & mrow & -> & Hrow & Hmrow).
  unfold select_row in Hv.
  apply list_elem_of_In, in_map_iff in Hv as ([v' b] & Hfst & Hin). simpl in Hfst. subst v'.
  apply filter_In in Hin as [Hin Hb]. simpl in Hb. subst b.
  apply list_elem_of_In, list_elem_of_lookup in Hin as (x & Hx).
  apply lookup_zip_Some in Hx as [Hx1 Hx2].
  exists y, x, row, mrow. repeat split; assumption.
Qed.

Lemma mask_select_values {A} (a : list (list A)) (m : list (list bool)) (v : A) :
  v ∈ mask_select a m → v ∈ np_ravel a.
Proof.
  intros Hv. apply elem_of_mask_select in Hv as (y & x & row & mrow & Hrow & _ & Hx & _).
  unfold np_ravel. apply elem_of_concat. exists row. split.
  - apply list_elem_of_lookup. exists y. exact Hrow.
  - apply list_elem_of_lookup. exists x. exact Hx.
Qed.

Lemma foldr_max_bounds (l : list Z) :
  (∀ v, v ∈ l → 0 ≤ v ≤ 1) →
  0 ≤ foldr Z.max 0 l ≤ 1 ∧ (1 ∈ l → foldr Z.max 0 l = 1).
Proof.
  induction l as [|v l IH]; intros Hall; simpl.
  - split; [lia|]. intros H. inversion H.
  - destruct IH as [Hb Hone]; [intros w Hw; apply Hall; right; exact Hw|].
    pose proof (Hall v ltac:(left)) as Hv. split; [lia|].
    intros H1. apply elem_of_cons in H1 as [<-|H1]; [lia|]. specialize (Hone H1). lia.
Qed.

Lemma kernel_offsets_zero ksize : (0 < ksize)%nat → 0 ∈ kernel_offsets ksize.
Proof.
  intros Hk. unfold kernel_offsets. apply list_elem_of_In, in_map_iff.
  exists (ksize / 2)%nat. split; [lia|]. apply in_seq.
  pose proof (Nat.div_lt ksize 2 Hk ltac:(lia)). lia.
Qed.

Lemma mask_lookup im r y x row v :
  im !! y = Some row → row !! x = Some v →
  pixel (astype_uint8 (np_eq_scalar im r)) (Z.of_nat y) (Z.of_nat x)
  = Some (if v =? r then 1 else 0).
Proof.
  intros Hrow Hv. unfold pixel, astype_uint8, np_eq_scalar.
  rewrite decide_True by lia. rewrite !Nat2Z.id.
  change (map ?f ?l) with (f <$> l). rewrite !list_lookup_fmap, Hrow. simpl.
  change (map ?f ?l) with (f <$> l). rewrite !list_lookup_fmap, Hv. reflexivity.
Qed.

Lemma pixel_mask_bounds im r y x v :
  pixel (astype_uint8 (np_eq_scalar im r)) y x = Some v → 0 ≤ v ≤ 1.
Proof.
  unfold pixel, astype_uint8, np_eq_scalar. case_decide; [|discriminate].
  change (map ?f ?l) with (f <$> l). rewrite !list_lookup_fmap.
  destruct (im !! Z.to_nat y) as [row|]; simpl; [|discriminate].
  change (map ?f ?l) with (f <$> l). rewrite !list_lookup_fmap.
  destruct (row !! Z.to_nat x) as [w|]; simpl; [|discriminate].
  intros [= <-]. destruct (w =? r); lia.
Qed.

(** The ring of a region never covers a pixel of the region itself: the
    kernel contains its anchor, so the dilation is one wherever the mask
    is. *)
Lemma ring_ids_not_self im ksize r :
  (0 < ksize)%nat → r ∉ ring_ids im ksize r.
Proof.
  intros Hk Hr. unfold ring_ids in Hr. rewrite elem_of_pd_unique in Hr.
  apply elem_of_mask_select in Hr as (y & x & row & brow & Hrow & Hbrow & Hx & Hb).
  set (mask := astype_uint8 (np_eq_scalar im r)) in *.
  unfold astype_bool, np_sub_uint8 in Hbrow.
  change (map ?f ?l) with (f <$> l) in Hbrow.
  apply list_lookup_fmap_Some in Hbrow as (srow & -> & Hsrow).
  change (map ?f ?l) with (f <$> l) in Hb.
  apply list_lookup_fmap_Some in Hb as (s & Hs & Hsx).
  apply lookup_zip_with_Some in Hsrow as (drow & mrow & -> & Hdrow & Hmrow).
  apply lookup_zip_with_Some in Hsx as (d & mk & -> & Hd & Hmk).
  unfold cv2_dilate in Hdrow. rewrite list_lookup_imap in Hdrow.
  destruct (mask !! y) as [mrow'|] eqn:Hmy; [|discriminate].
  injection Hmrow as <-. simpl in Hdrow. injection Hdrow as <-.
  rewrite list_lookup_imap, Hmk in Hd. simpl in Hd. injection Hd as <-.
  pose proof (mask_lookup im r y x row r Hrow Hx) as Hcentre.
  rewrite Z.eqb_refl in Hcentre. fold mask in Hcentre.
  assert (Hmk1 : mk = 1).
  { unfold pixel in Hcentre. rewrite decide_True in Hcentre by lia.
    rewrite !Nat2Z.id, Hmy in Hcentre. simpl in Hcentre. congruence. }
  destruct (foldr_max_bounds (window mask ksize y x)) as [_ Hone].
  { intros v Hv. unfold window in Hv.
    apply list_elem_of_bind in Hv as (dy & Hv & _).
    apply list_elem_of_bind in Hv as (dx & Hv & _).
    destruct (pixel mask (Z.of_nat y + dy) (Z.of_nat x + dx)) as [w|] eqn:Hw;
      simpl in Hv; [|inversion Hv].
    apply list_elem_of_singleton in Hv as ->. eapply pixel_mask_bounds. exact Hw. }
  rewrite Hone in Hs.
  - subst mk. simpl in Hs. discriminate.
  - unfold window. apply list_elem_of_bind. exists 0. split; [|apply kernel_offsets_zero, Hk].
    apply list_elem_of_bind. exists 0. split; [|apply kernel_offsets_zero, Hk].
    rewrite !Z.add_0_r, Hcentre. simpl. left.
Qed.

Lemma set_cols_lookup_inv v cs row j w :
  set_cols v cs row !! j = Some w → (w = v ∧ j ∈ cs) ∨ row !! j = Some w.
Proof.
  induction cs as [|c cs IH]; simpl; [auto|]. intros H.
  apply list_lookup_insert_Some in H as [(-> & -> & _)|[Hne H]].
  - left. split; [reflexivity | left].
  - destruct (IH H) as [[-> Hin]|Hrow]; [left; split; [reflexivity | right; exact Hin] | auto].
Qed.

Lemma np_set_row_cols_written a n i idx a' x y :
  square n a → np_set_row_cols a n i idx 1 = Ok a' →
  matrix_entry a' x y ≠ 0 →
  matrix_entry a x y ≠ 0 ∨
  (np_index n i = Ok x ∧ ∃ c, c ∈ idx ∧ np_index n c = Ok y).
Proof.
  intros [Hlen _] H Hentry. unfold np_set_row_cols in H. inv_bind H.
  injection H as <-. rename a0 into ri. rename a1 into cs. rewrite Hlen in Hstep.
  apply map_result_Ok in Hstep0. fold (set_cols 1 cs) in Hentry.
  unfold matrix_entry in *. destruct (decide (ri = x)) as [->|Hne].
  - rewrite list_lookup_alter_eq in Hentry.
    destruct (a !! x) as [row|]; simpl in *; [|contradiction].
    destruct (set_cols 1 cs row !! y) as [w|] eqn:Hw; simpl in Hentry; [|contradiction].
    apply set_cols_lookup_inv in Hw as [[-> Hin]|Hrow].
    + right. split; [exact Hstep|].
      apply list_elem_of_lookup in Hin as (pos & Hpos).
      destruct (Forall2_lookup_r _ _ _ _ _ Hstep0 Hpos) as (c & Hc & Hf).
      exists c. split; [|exact Hf]. apply list_elem_of_lookup. exists pos. exact Hc.
    + left. rewrite Hrow. exact Hentry.
  - rewrite list_lookup_alter_ne in Hentry by exact Hne. left. exact Hentry.
Qed.

(** Every non-zero entry of the adjacency matrix was written for some region
    and some id under its ring. *)
Lemma RAG_adjacency_loop_written im ksize n ids : ∀ a a',
  square n a →
  for_each ids (fun instance_id adjacency =>
      np_set_row_cols adjacency n (instance_id - 1)
        (map (fun i => i - 1) (ring_ids im ksize instance_id)) 1) a = Ok a' →
  ∀ x y, matrix_entry a' x y ≠ 0 →
    matrix_entry a x y ≠ 0 ∨
    ∃ r c, r ∈ ids ∧ c ∈ ring_ids im ksize r ∧
           np_index n (r - 1) = Ok x ∧ np_index n (c - 1) = Ok y.
Proof.
  induction ids as [|id ids IH]; intros a a' Hsq H x y Hentry; simpl in H.
  - injection H as <-. left. exact Hentry.
  - inv_bind H. rename a0 into a1.
    destruct (np_set_row_cols_Ok _ _ _ _ _ Hsq Hstep) as (Hsq1 & _ & _).
    destruct (IH _ _ Hsq1 H x y Hentry) as [Hold|(r & c & Hr & Hc & Hx & Hy)].
    + destruct (np_set_row_cols_written _ _ _ _ _ _ _ Hsq Hstep Hold)
        as [Hzero|(Hx & c' & Hc' & Hy)]; [left; exact Hzero|].
      right. apply list_elem_of_In, in_map_iff in Hc' as (c & <- & Hc).
      exists id, c. split; [left|]. split; [apply list_elem_of_In; exact Hc|]. auto.
    + right. exists r, c. split; [right; exact Hr|]. auto.
Qed.

Lemma matrix_entry_zeros n m x y : matrix_entry (np_zeros2 n m) x y = 0.
Proof.
  unfold matrix_entry, np_zeros2.
  destruct (replicate n (replicate m 0) !! x) as [row|] eqn:Hrow; simpl; [|reflexivity].
  apply lookup_replicate in Hrow as [-> _].
  destruct (replicate m 0 !! y) as [v|] eqn:Hv; simpl; [|reflexivity].
  apply lookup_replicate in Hv as [-> _]. reflexivity.
Qed.

(** On a map without negative ids, the only self-loop a returned graph can
    have is the one of the last node, and it is there only if the ring of
    the last region covers a background pixel. *)
Lemma RAG_self_loop_only_from_background (self : RAGGraphBuilder) im features ann g i :
  (∀ v, v ∈ np_ravel im → 0 ≤ v) →
  process self im features ann = Ok g →
  (i, i) ∈ edges g →
  i = (number_of_nodes g - 1)%nat ∧
  ∃ ksize, np_ones_kernel (kernel_size self) = Ok ksize ∧
           0 ∈ ring_ids im ksize (Z.of_nat (number_of_nodes g)).
Proof.
  intros Hnonneg Hp Hin.
  apply process_Ok in Hp as (g2 & g3 & Hc & Hl & Ht). simpl in Hc, Hl, Ht.
  apply ndata_set_Ok in Hc as [Hcs ->]. simpl in Hcs.
  assert (Hg3 : number_of_nodes g3 = length features ∧ edges g3 = []).
  { destruct ann as [ann|]; [|subst g3; split; reflexivity].
    apply RAG_set_node_labels_Ok in Hl as (labels & _ & Hl).
    apply ndata_set_Ok in Hl as [_ ->]. split; reflexivity. }
  destruct Hg3 as [HN3 He3].
  apply RAG_build_topology_Ok in Ht as (ksize & adj & Hk & Hadj & _ & ->).
  simpl in *. rewrite He3 in Hin. simpl in Hin. rewrite HN3.
  set (N := length features) in *.
  (* the numbers of regions and of instance ids agree *)
  rewrite length_map in Hcs. unfold regionprops in Hcs. rewrite length_map in Hcs.
  assert (Hids : instance_ids_of im
                 = List.filter (fun v => 0 <? v) (np_sort (pd_unique (np_ravel im)))).
  { rewrite instance_ids_of_filter. apply filter_ext_in. intros v Hv.
    apply list_elem_of_In in Hv. unfold np_sort in Hv.
    rewrite merge_sort_Permutation, elem_of_pd_unique in Hv.
    specialize (Hnonneg v Hv). destruct (Z.eqb_spec v 0), (Z.ltb_spec 0 v); simpl; lia. }
  unfold RAG_adjacency in Hadj.
  set (n := length (instance_ids_of im)) in *.
  assert (HnN : n = N) by (unfold n; rewrite Hids; exact Hcs).
  (* the entry was written for a region r and an id c under its ring *)
  apply elem_of_np_nonzero2 in Hin as (row & v & Hrow & Hv & Hv0).
  assert (Hentry : matrix_entry adj i i ≠ 0).
  { rewrite (matrix_entry_Some _ _ _ _ _ Hrow Hv). exact Hv0. }
  destruct (RAG_adjacency_loop_written im ksize n _ _ _ (square_zeros n) Hadj i i Hentry)
    as [Hzero|(r & c & Hr & Hc & Hri & Hci)].
  { rewrite matrix_entry_zeros in Hzero. contradiction. }
  assert (Hksize : (0 < ksize)%nat).
  { unfold np_ones_kernel in Hk. repeat case_decide; try discriminate;
      injection Hk as <-; lia. }
  assert (Hrpos : 0 < r).
  { rewrite Hids in Hr. apply elem_of_List_filter in Hr as [_ Hr]. lia. }
  assert (Hcne : c ≠ r).
  { intros ->. exact (ring_ids_not_self im ksize r Hksize Hc). }
  assert (Hcnonneg : 0 ≤ c).
  { apply Hnonneg. unfold ring_ids in Hc. rewrite elem_of_pd_unique in Hc.
    eapply mask_select_values. exact Hc. }
  pose proof (np_index_Ok _ _ _ Hri) as Hilt.
  unfold np_index in Hri, Hci.
  repeat case_decide; try discriminate; injection Hri as Hri; injection Hci as Hci;
    try lia.
  assert (c = 0) by lia. subst c.
  assert (Hrn : r = Z.of_nat N) by lia.
  split; [lia|]. exists ksize. split; [exact Hk|]. rewrite <- Hrn. exact Hc.
Qed.

(** In particular a map without background pixels and without negative ids
    gives a graph without self-loops. *)
Lemma RAG_no_self_loop_without_background (self : RAGGraphBuilder) im features ann g i :
  (∀ v, v ∈ np_ravel im → 0 < v) →
  process self im features ann = Ok g → (i, i) ∉ edges g.
Proof.
  intros Hpos Hp Hin.
  destruct (RAG_self_loop_only_from_background self im features ann g i) as (_ & ksize & _ & H0);
    [intros v Hv; specialize (Hpos v Hv); lia | exact Hp | exact Hin |].
  unfold ring_ids in H0. rewrite elem_of_pd_unique in H0.
  apply mask_select_values in H0. specialize (Hpos 0 H0). lia.
Qed.

(** ** The proximity builder: which edges, and when the build returns *)

(** The pieces of a successful build of the proximity builder. *)
Lemma KNN_process_Ok (self : KNNGraphBuilder) X features ann g :
  process self X features ann = Ok g →
  ∃ adj,
    KNN_shapes_agree X features ann ∧
    kneighbors_graph X (k self) = Ok adj ∧
    number_of_nodes g = length features ∧
    ndata g = KNN_node_data X features ann ∧
    edges g = match thresh self with
              | Some t =>
                  List.filter (fun x : nat * nat =>
                                 l2_distance_lt (default [] (X !! x.1))
                                                (default [] (X !! x.2)) t)
                              (sparse_nonzero adj)
              | None => sparse_nonzero adj
              end.
Proof.
  intros Hp. apply process_Ok in Hp as (g2 & g3 & Hc & Hl & Ht).
  simpl in Hc, Hl, Ht. apply ndata_set_Ok in Hc as [Hlen ->]. simpl in Hlen.
  assert (g3 = mkGraph (length features) (KNN_node_data X features ann) []
          ∧ KNN_shapes_agree X features ann) as [-> Hshape].
  { unfold KNN_shapes_agree, KNN_node_data. destruct ann as [a|].
    - apply ndata_set_Ok in Hl as [Hla ->]. simpl in Hla. simpl. auto.
    - subst g3. simpl. auto. }
  unfold KNN_build_topology in Ht. inv_bind Ht.
  apply add_edges_list_Ok in Ht as [_ ->]. simpl.
  exists a. repeat split; try assumption; try reflexivity; apply Hshape.
Qed.

Lemma Forall_List_filter {A} (P : A → Prop) (f : A → bool) (l : list A) :
  Forall P l → Forall P (List.filter f l).
Proof.
  induction 1 as [|x l Hx _ IH]; simpl; [constructor|].
  destruct (f x); [constructor|]; assumption.
Qed.

Lemma sparse_nonzero_in_range X n_neighbors adj :
  kneighbors_graph X n_neighbors = Ok adj →
  Forall (edge_in_range (length X)) (sparse_nonzero adj).
Proof.
  intros Hadj. apply Forall_forall. intros [i j] Hin.
  apply elem_of_sparse_nonzero in Hin as (row & d & Hrow & Hjd & _).
  destruct (kneighbors_graph_row _ _ _ _ _ Hadj Hrow) as (p & Hp & ->).
  apply elem_of_knn_row, elem_of_candidates in Hjd as (_ & q & Hq & _).
  split; simpl; eapply lookup_lt_Some; eassumption.
Qed.

Lemma add_edges_list_in_range (l : list (nat * nat)) g :
  Forall (edge_in_range (number_of_nodes g)) l →
  add_edges (map fst l) (map snd l) g
  = Ok (mkGraph (number_of_nodes g) (ndata g) (edges g ++ l)).
Proof.
  intros Hr. unfold add_edges. rewrite dgl_pair_up_unzip. simpl.
  rewrite decide_True by exact Hr. reflexivity.
Qed.

(** The build up to the neighbour search, when the shapes agree. *)
Lemma KNN_process_topology (self : KNNGraphBuilder) X features ann :
  KNN_shapes_agree X features ann →
  process self X features ann
  = KNN_build_topology self X
      (mkGraph (length features) (KNN_node_data X features ann) []).
Proof.
  intros [HX Hann]. unfold process. rewrite set_node_features_new. simpl.
  unfold KNN_set_node_centroids, ndata_set. simpl.
  rewrite decide_True by exact HX. simpl.
  destruct ann as [a|]; simpl; [|reflexivity].
  unfold KNN_set_node_labels, ndata_set. simpl.
  rewrite decide_True by exact Hann. reflexivity.
Qed.

(** X5 — the threshold only removes edges.  The graph built with a
    threshold [t] has exactly those edges of the graph built without
    threshold (same [k], same inputs) whose end points lie at a distance
    below [t]. *)
Theorem KNN_threshold_filters_edges (self : KNNGraphBuilder) (t : Q)
    (centroids features : list (list Q)) (annotation : option (list Q))
    (g : DGLGraph) :
  thresh self = Some t →
  process self centroids features annotation = Ok g →
  ∃ g0,
    process (mkKNN (knn_base self) (k self) None) centroids features annotation = Ok g0 ∧
    ∀ i j, (i, j) ∈ edges g ↔
           (i, j) ∈ edges g0 ∧
           ∃ p q, centroids !! i = Some p ∧ centroids !! j = Some q ∧
                  (0 < t)%Q ∧ (sqdist p q < t * t)%Q.
Proof.
  intros Hth Hp.
  destruct (KNN_process_Ok _ _ _ _ _ Hp) as (adj & Hshape & Hadj & Hn & _ & He).
  rewrite Hth in He.
  exists (mkGraph (length features) (KNN_node_data centroids features annotation)
            (sparse_nonzero adj)).
  split.
  - rewrite (KNN_process_topology _ _ _ _ Hshape). unfold KNN_build_topology. simpl.
    rewrite Hadj. simpl. apply add_edges_list_in_range. simpl.
    destruct Hshape as [<- _]. eapply sparse_nonzero_in_range, Hadj.
  - intros i j. simpl. rewrite He, elem_of_List_filter. simpl.
    split.
    + intros [Hin Hlt]. split; [exact Hin|].
      apply elem_of_sparse_nonzero in Hin as (row & d & Hrow & Hjd & _).
      destruct (kneighbors_graph_row _ _ _ _ _ Hadj Hrow) as (p & Hi & ->).
      apply elem_of_knn_row, elem_of_candidates in Hjd as (_ & q & Hj & _).
      exists p, q. rewrite Hi, Hj in Hlt. simpl in Hlt.
      unfold l2_distance_lt in Hlt. apply andb_true_iff in Hlt as [H0 Hd].
      apply negb_true_iff in H0, Hd.
      repeat split; try assumption.
      * apply Qnot_le_lt. intros Hle. apply Qle_bool_iff in Hle. congruence.
      * apply Qnot_le_lt. intros Hle. apply Qle_bool_iff in Hle. congruence.
    + intros [Hin (p & q & Hi & Hj & H0 & Hd)]. split; [exact Hin|].
      rewrite Hi, Hj. simpl. unfold l2_distance_lt. apply andb_true_iff.
      split; apply negb_true_iff.
      * destruct (Qle_bool t 0) eqn:Hb; [|reflexivity].
        apply Qle_bool_iff in Hb. exfalso. exact (Qlt_not_le _ _ H0 Hb).
      * destruct (Qle_bool (t * t) (sqdist p q)) eqn:Hb; [|reflexivity].
        apply Qle_bool_iff in Hb. exfalso. exact (Qlt_not_le _ _ Hd Hb).
Qed.

Lemma KNN_threshold_filters_edges_witness :
  ∃ g g0,
    process (KNN__init__ 2 (Some 2%Q) 6 4 None (mkPipelineStep None ""))
      [[0; 0]; [1; 0]; [0; 3]; [10; 10]]%Q [[]; []; []; []] None = Ok g ∧
    process (KNN__init__ 2 None 6 4 None (mkPipelineStep None ""))
      [[0; 0]; [1; 0]; [0; 3]; [10; 10]]%Q [[]; []; []; []] None = Ok g0 ∧
    ((0, 2)%nat ∈ edges g ↔
     (0, 2)%nat ∈ edges g0 ∧
     ∃ p q, [[0; 0]; [1; 0]; [0; 3]; [10; 10]]%Q !! 0%nat = Some p ∧
            [[0; 0]; [1; 0]; [0; 3]; [10; 10]]%Q !! 2%nat = Some q ∧
            (0 < 2)%Q ∧ (sqdist p q < 2 * 2)%Q).
Proof.
  eexists.
  destruct (KNN_threshold_filters_edges
              (KNN__init__ 2 (Some 2%Q) 6 4 None (mkPipelineStep None "")) 2%Q
              [[0; 0]; [1; 0]; [0; 3]; [10; 10]]%Q [[]; []; []; []] None
              (mkGraph 4 (KNN_node_data [[0; 0]; [1; 0]; [0; 3]; [10; 10]]%Q
                            [[]; []; []; []] None)
                 [(0, 1); (1, 0)]%nat)
              eq_refl eq_refl) as (g0 & Hg0 & Hedges).
  exists g0. split; [reflexivity|]. split; [exact Hg0|]. apply Hedges.
Defined.

(** X6 — too few points.  When the shapes of the inputs agree, a build of
    the proximity builder with [k <= 0], or with no more than [k] points,
    raises the [ValueError] of the neighbour search. *)
Theorem KNN_too_few_points (self : KNNGraphBuilder)
    (centroids features : list (list Q)) (annotation : option (list Q)) :
  KNN_shapes_agree centroids features annotation →
  k self ≤ 0 ∨ Z.of_nat (length centroids) ≤ k self →
  process self centroids features annotation = Raise ValueError.
Proof.
  intros Hshape Hk. rewrite (KNN_process_topology _ _ _ _ Hshape).
  unfold KNN_build_topology, kneighbors_graph.
  destruct (decide (k self ≤ 0)); [reflexivity|].
  rewrite decide_True by lia. reflexivity.
Qed.

Lemma KNN_too_few_points_witness :
  process (KNN__init__ 3 None 6 4 None (mkPipelineStep None ""))
    [[0; 0]; [1; 0]; [0; 3]]%Q [[]; []; []] (Some [1; 0; 1]%Q) = Raise ValueError.
Proof.
  apply (KNN_too_few_points (KNN__init__ 3 None 6 4 None (mkPipelineStep None ""))
           [[0; 0]; [1; 0]; [0; 3]]%Q [[]; []; []] (Some [1; 0; 1]%Q)).
  - split; reflexivity.
  - right. simpl. lia.
Defined.

(** X7 — when the proximity builder returns.  With a centroid array of at
    least one column, one centroid per feature row (and one annotation per
    row when given) and [1 <= k <= N - 1], the build returns a graph: it has
    one node per row, carries the feature tensor it was given, a centroid
    tensor of one row per node, a label tensor of one entry per node when an
    annotation was given and no label attribute otherwise, and all its edges
    join nodes of the graph. *)
Theorem KNN_build_returns (self : KNNGraphBuilder)
    (centroids features : list (list Q)) (annotation : option (list Q)) :
  (∃ d, (0 < d)%nat ∧ ∀ row, row ∈ centroids → length row = d) →
  KNN_shapes_agree centroids features annotation →
  1 ≤ k self ≤ Z.of_nat (length centroids) - 1 →
  ∃ g, process self centroids features annotation = Ok g ∧
       number_of_nodes g = length features ∧
       ndata g !! FEATURES = Some (FloatTensor2 features) ∧
       (∃ c, ndata g !! CENTROID = Some c ∧ shape0 c = number_of_nodes g) ∧
       match annotation with
       | Some _ => ∃ l, ndata g !! LABEL = Some l ∧ shape0 l = number_of_nodes g
       | None => ndata g !! LABEL = None
       end ∧
       Forall (edge_in_range (number_of_nodes g)) (edges g).
Proof.
  intros _ Hshape Hk. rewrite (KNN_process_topology _ _ _ _ Hshape).
  unfold KNN_build_topology.
  destruct (kneighbors_graph centroids (k self)) as [adj|e] eqn:Hadj.
  - simpl.
    assert (Hr : Forall (edge_in_range (length features))
                   match thresh self with
                   | Some t =>
                       List.filter (fun x : nat * nat =>
                                      l2_distance_lt (default [] (centroids !! x.1))
                                                     (default [] (centroids !! x.2)) t)
                                   (sparse_nonzero adj)
                   | None => sparse_nonzero adj
                   end).
    { destruct Hshape as [<- _].
      destruct (thresh self); [apply Forall_List_filter|];
        eapply sparse_nonzero_in_range, Hadj. }
    eexists. split; [apply add_edges_list_in_range; exact Hr|].
    simpl. split; [reflexivity|]. unfold KNN_node_data.
    destruct Hshape as [HX Hann].
    destruct annotation as [a|]; simpl.
    + split; [repeat (rewrite lookup_insert_ne by discriminate); apply lookup_singleton_eq|].
      split; [eexists; split;
              [rewrite lookup_insert_ne by discriminate; apply lookup_insert_eq | exact HX]|].
      split; [eexists; split; [apply lookup_insert_eq | exact Hann]|].
      exact Hr.
    + split; [repeat (rewrite lookup_insert_ne by discriminate); apply lookup_singleton_eq|].
      split; [eexists; split; [apply lookup_insert_eq | exact HX]|].
      split; [|exact Hr].
      repeat (rewrite lookup_insert_ne by discriminate).
      apply lookup_singleton_ne. discriminate.
  - exfalso. unfold kneighbors_graph in Hadj.
    repeat case_decide; try discriminate; lia.
Qed.

Lemma KNN_build_returns_witness :
  ∃ g, process (KNN__init__ 2 (Some 2%Q) 6 4 None (mkPipelineStep None ""))
         [[0; 0]; [1; 0]; [0; 3]]%Q [[]; []; []] (Some [1; 0; 2]%Q) = Ok g ∧
       number_of_nodes g = 3%nat ∧
       ndata g !! FEATURES = Some (FloatTensor2 [[]; []; []]) ∧
       (∃ c, ndata g !! CENTROID = Some c ∧ shape0 c = number_of_nodes g) ∧
       (∃ l, ndata g !! LABEL = Some l ∧ shape0 l = number_of_nodes g) ∧
       Forall (edge_in_range (number_of_nodes g)) (edges g).
Proof.
  apply (KNN_build_returns (KNN__init__ 2 (Some 2%Q) 6 4 None (mkPipelineStep None ""))
           [[0; 0]; [1; 0]; [0; 3]]%Q [[]; []; []] (Some [1; 0; 2]%Q)).
  - exists 2%nat. split; [lia|]. intros row Hrow.
    apply list_elem_of_In in Hrow. simpl in Hrow.
    destruct Hrow as [<-|[<-|[<-|[]]]]; reflexivity.
  - split; reflexivity.
  - simpl. lia.
Defined.

(** X8 — mismatched shapes.  A build of the proximity builder whose
    centroid array has not one row per feature row, or whose annotation has
    not one entry per feature row, raises DGL's error before any neighbour
    is searched, whatever [k] is. *)
Theorem KNN_shape_mismatch (self : KNNGraphBuilder)
    (centroids features : list (list Q)) (annotation : option (list Q)) :
  ¬ KNN_shapes_agree centroids features annotation →
  process self centroids features annotation = Raise DGLError.
Proof.
  intros Hshape. unfold process. rewrite set_node_features_new. simpl.
  unfold KNN_set_node_centroids, ndata_set. simpl.
  destruct (decide (length centroids = length features)) as [HX|HX]; [|reflexivity].
  simpl. destruct annotation as [a|]; simpl.
  - unfold KNN_set_node_labels, ndata_set. simpl.
    destruct (decide (length a = length features)) as [Ha|Ha]; [|reflexivity].
    exfalso. apply Hshape. split; assumption.
  - exfalso. apply Hshape. split; [assumption | exact I].
Qed.

Lemma KNN_shape_mismatch_witness :
  process (KNN__init__ 1 None 6 4 None (mkPipelineStep None ""))
    [[0; 0]; [1; 0]; [0; 3]]%Q [[]; []] None = Raise DGLError.
Proof.
  apply (KNN_shape_mismatch (KNN__init__ 1 None 6 4 None (mkPipelineStep None ""))
           [[0; 0]; [1; 0]; [0; 3]]%Q [[]; []] None).
  intros [Hlen _]. discriminate Hlen.
Defined.

(** ** [two_hop_neighborhood] *)

Lemma count_edges_nonneg es u v : 0 ≤ count_edges es u v.
Proof. unfold count_edges. lia. Qed.

Lemma count_edges_pos es u v : 1 ≤ count_edges es u v ↔ (u, v) ∈ es.
Proof.
  unfold count_edges. induction es as [|[a b] es IH]; simpl.
  - split; [lia | intros H; inversion H].
  - destruct (Nat.eqb_spec a u) as [->|Ha]; simpl.
    + destruct (Nat.eqb_spec b v) as [->|Hb]; simpl.
      * split; [intros _; left | lia].
      * rewrite IH. split; [intros H; right; exact H|].
        intros H. apply elem_of_cons in H as [[= ?]|H]; [congruence | exact H].
    + rewrite IH. split; [intros H; right; exact H|].
      intros H. apply elem_of_cons in H as [[= ? ?]|H]; [congruence | exact H].
Qed.

Lemma sum_map_pos {A} (f : A → Z) (l : list A) :
  (∀ x, x ∈ l → 0 ≤ f x) →
  (1 ≤ foldr Z.add 0 (map f l) ↔ ∃ x, x ∈ l ∧ 1 ≤ f x).
Proof.
  induction l as [|a l IH]; intros Hnn; simpl.
  - split; [lia | intros (x & Hx & _); inversion Hx].
  - assert (0 ≤ f a) as Ha by (apply Hnn; left).
    assert (∀ x, x ∈ l → 0 ≤ f x) as Hl by (intros x Hx; apply Hnn; right; exact Hx).
    assert (0 ≤ foldr Z.add 0 (map f l)) as Hs.
    { clear IH Hnn Ha. induction l as [|b l IH]; simpl; [lia|].
      assert (0 ≤ f b) by (apply Hl; left).
      assert (0 ≤ foldr Z.add 0 (map f l)) by (apply IH; intros x Hx; apply Hl; right; exact Hx).
      lia. }
    split.
    + intros Hsum. destruct (decide (1 ≤ f a)) as [H1|H1].
      * exists a. split; [left | exact H1].
      * destruct (proj1 (IH Hl)) as (x & Hx & Hfx); [lia|].
        exists x. split; [right; exact Hx | exact Hfx].
    + intros (x & Hx & Hfx). apply elem_of_cons in Hx as [->|Hx]; [lia|].
      assert (1 ≤ foldr Z.add 0 (map f l)); [|lia].
      apply IH; [exact Hl|]. exists x. split; assumption.
Qed.

Lemma dot_map {A} (f h : A → Z) (l : list A) :
  dot (map f l) (map h l) = foldr Z.add 0 (map (fun x => f x * h x) l).
Proof.
  unfold dot. induction l as [|a l IH]; simpl; [reflexivity|]. rewrite IH. reflexivity.
Qed.

Lemma lookup_tabulate {A} (f : nat → A) (n i : nat) :
  (i < n)%nat → map f (seq 0 n) !! i = Some (f i).
Proof.
  intros Hi. rewrite list_lookup_fmap, lookup_seq_lt by exact Hi. reflexivity.
Qed.

Lemma length_adjacency_matrix g : length (adjacency_matrix g) = number_of_nodes g.
Proof. unfold adjacency_matrix. rewrite length_map, length_seq. reflexivity. Qed.

Lemma column_adjacency_matrix g j :
  (j < number_of_nodes g)%nat →
  column (adjacency_matrix g) j
  = map (fun m => count_edges (edges g) j m) (seq 0 (number_of_nodes g)).
Proof.
  intros Hj. unfold column, adjacency_matrix. rewrite map_map.
  apply map_ext. intros m. rewrite lookup_tabulate by exact Hj. reflexivity.
Qed.

(** The entry at row [dst], column [src] of the adjacency matrix is the
    number of edges from [src] to [dst]. *)
Lemma adjacency_matrix_entry g dst src :
  (dst < number_of_nodes g)%nat → (src < number_of_nodes g)%nat →
  matrix_entry (adjacency_matrix g) dst src = count_edges (edges g) src dst.
Proof.
  intros Hd Hs. unfold matrix_entry, adjacency_matrix.
  rewrite (lookup_tabulate
             (fun dst => map (fun src => count_edges (edges g) src dst)
                           (seq 0 (number_of_nodes g))) _ _ Hd).
  simpl. rewrite (lookup_tabulate (fun src => count_edges (edges g) src dst) _ _ Hs).
  reflexivity.
Qed.

(** The entry at row [dst], column [src] of [A.matmul(A)] is the number of
    two-step walks from [src] to [dst], each counted with the multiplicity
    of its two edges. *)
Lemma matmul_adjacency_matrix_entry g dst src :
  (dst < number_of_nodes g)%nat → (src < number_of_nodes g)%nat →
  matrix_entry (matmul (adjacency_matrix g) (adjacency_matrix g)) dst src
  = foldr Z.add 0
      (map (fun m => count_edges (edges g) m dst * count_edges (edges g) src m)
           (seq 0 (number_of_nodes g))).
Proof.
  intros Hd Hs. unfold matrix_entry, matmul.
  rewrite list_lookup_fmap.
  assert (Hrow : adjacency_matrix g !! dst
                 = Some (map (fun src => count_edges (edges g) src dst)
                           (seq 0 (number_of_nodes g)))).
  { unfold adjacency_matrix.
    exact (lookup_tabulate
             (fun dst => map (fun src => count_edges (edges g) src dst)
                           (seq 0 (number_of_nodes g))) _ _ Hd). }
  rewrite Hrow. simpl. rewrite length_adjacency_matrix.
  rewrite (lookup_tabulate
             (fun j0 => dot (map (fun src => count_edges (edges g) src dst)
                               (seq 0 (number_of_nodes g)))
                          (column (adjacency_matrix g) j0)) _ _ Hs).
  simpl. rewrite column_adjacency_matrix by exact Hs. rewrite dot_map. reflexivity.
Qed.

(** On a multigraph with the edge [0 -> 2] twice and the edge [2 -> 1]
    once, the matrix holds the count [2] at row [2], column [0], and the
    product counts the two walks [0 -> 2 -> 1] at row [1], column [0]. *)
Lemma adjacency_matrix_counts_parallel_edges :
  adjacency_matrix (mkGraph 3 ∅ [(0, 2); (0, 2); (2, 1)]%nat)
  = [[0; 0; 0]; [0; 0; 1]; [2; 0; 0]] ∧
  matmul (adjacency_matrix (mkGraph 3 ∅ [(0, 2); (0, 2); (2, 1)]%nat))
         (adjacency_matrix (mkGraph 3 ∅ [(0, 2); (0, 2); (2, 1)]%nat))
  = [[0; 0; 0]; [2; 0; 0]; [0; 0; 0]].
Proof. split; reflexivity. Qed.

(** The entries of the matrix from which [two_hop_neighborhood] rebuilds
    the graph. *)
Lemma A_tilde_entry g i j :
  (i < number_of_nodes g)%nat → (j < number_of_nodes g)%nat →
  matrix_entry (A_tilde_of (adjacency_matrix g)) i j
  = (if 1 <=? count_edges (edges g) j i
             + foldr Z.add 0
                 (map (fun m => count_edges (edges g) m i * count_edges (edges g) j m)
                      (seq 0 (number_of_nodes g)))
     then 1 else 0)
    - (if (i =? j)%nat then 1 else 0).
Proof.
  intros Hi Hj. unfold matrix_entry, A_tilde_of, matrix_add.
  rewrite list_lookup_imap, lookup_zip_with.
  assert (Hrow : adjacency_matrix g !! i
                 = Some (map (fun src => count_edges (edges g) src i)
                           (seq 0 (number_of_nodes g)))).
  { unfold adjacency_matrix.
    exact (lookup_tabulate
             (fun dst => map (fun src => count_edges (edges g) src dst)
                           (seq 0 (number_of_nodes g))) _ _ Hi). }
  rewrite Hrow. simpl.
  unfold matmul at 1. rewrite list_lookup_fmap, Hrow. simpl.
  rewrite list_lookup_imap, lookup_zip_with, length_adjacency_matrix.
  rewrite (lookup_tabulate (fun src => count_edges (edges g) src i) _ _ Hj).
  rewrite (lookup_tabulate
             (fun j0 => dot (map (fun src => count_edges (edges g) src i)
                               (seq 0 (number_of_nodes g)))
                          (column (adjacency_matrix g) j0)) _ _ Hj).
  simpl. rewrite column_adjacency_matrix by exact Hj. rewrite dot_map. reflexivity.
Qed.

Lemma length_A_tilde_of g :
  length (A_tilde_of (adjacency_matrix g)) = number_of_nodes g.
Proof.
  unfold A_tilde_of, matrix_add, matmul.
  rewrite length_imap, length_zip_with, length_map, length_adjacency_matrix. lia.
Qed.

(** When an entry of that matrix is not zero. *)
Lemma A_tilde_nonzero g i j :
  Forall (edge_in_range (number_of_nodes g)) (edges g) →
  (i < number_of_nodes g)%nat → (j < number_of_nodes g)%nat →
  matrix_entry (A_tilde_of (adjacency_matrix g)) i j ≠ 0 ↔
  (if decide (i = j) then ¬ within_two_hops g i i else within_two_hops g j i).
Proof.
  intros Hwf Hi Hj. rewrite A_tilde_entry by assumption.
  set (s := foldr Z.add 0 _).
  assert (0 ≤ count_edges (edges g) j i) as Hc by apply count_edges_nonneg.
  assert (Hs : 1 ≤ s ↔ ∃ m, (j, m) ∈ edges g ∧ (m, i) ∈ edges g).
  { unfold s. rewrite sum_map_pos.
    - split.
      + intros (m & _ & Hm).
        pose proof (count_edges_nonneg (edges g) m i).
        pose proof (count_edges_nonneg (edges g) j m).
        exists m. rewrite <- !count_edges_pos. nia.
      + intros (m & Hjm & Hmi). exists m. split.
        * rewrite Forall_forall in Hwf. destruct (Hwf _ Hmi) as [Hm _]. simpl in Hm.
          apply elem_of_seq. lia.
        * apply count_edges_pos in Hjm, Hmi. nia.
    - intros m _.
      pose proof (count_edges_nonneg (edges g) m i).
      pose proof (count_edges_nonneg (edges g) j m). nia. }
  assert (0 ≤ s) as Hs0.
  { destruct (decide (1 ≤ s)); [lia|]. unfold s in *.
    clear Hs. induction (seq 0 (number_of_nodes g)) as [|m l IH]; simpl in *; [lia|].
    pose proof (count_edges_nonneg (edges g) m i).
    pose proof (count_edges_nonneg (edges g) j m).
    assert (0 ≤ count_edges (edges g) m i * count_edges (edges g) j m) by nia.
    destruct (decide (1 ≤ foldr Z.add 0
                            (map (λ m0, count_edges (edges g) m0 i * count_edges (edges g) j m0) l)));
      [lia|]. specialize (IH ltac:(assumption)). lia. }
  assert (Hw : within_two_hops g j i ↔ 1 ≤ count_edges (edges g) j i + s).
  { unfold within_two_hops. rewrite <- count_edges_pos. split.
    - intros [H1|H2]; [lia|]. apply Hs in H2. lia.
    - intros Hsum. destruct (decide (1 ≤ count_edges (edges g) j i)); [left; assumption|].
      right. apply Hs. lia. }
  destruct (decide (i = j)) as [->|Hne].
  - rewrite Nat.eqb_refl. rewrite Hw.
    destruct (Z.leb_spec 1 (count_edges (edges g) j j + s)); split; lia.
  - destruct (Nat.eqb_spec i j) as [|_]; [contradiction|]. rewrite Hw.
    destruct (Z.leb_spec 1 (count_edges (edges g) j i + s)); split; lia.
Qed.

Lemma elem_of_from_numpy_matrix_edges m u v :
  (u, v) ∈ from_numpy_matrix_edges m ↔
  (u < length m)%nat ∧ (v < length m)%nat ∧
  (matrix_entry m u v ≠ 0 ∨ matrix_entry m v u ≠ 0).
Proof.
  unfold from_numpy_matrix_edges. rewrite elem_of_List_filter. simpl.
  rewrite orb_true_iff, !negb_true_iff, !Z.eqb_neq.
  rewrite list_elem_of_bind. split.
  - intros [(u' & Hv & Hu) Hnz]. apply list_elem_of_bind in Hv as (v' & Hv & Hv').
    apply list_elem_of_singleton in Hv as [= -> ->].
    apply elem_of_seq in Hu, Hv'. repeat split; [lia | lia | exact Hnz].
  - intros (Hu & Hv & Hnz). split; [|exact Hnz].
    exists u. split; [|apply elem_of_seq; lia].
    apply list_elem_of_bind. exists v. split; [left | apply elem_of_seq; lia].
Qed.

Lemma within_two_hops_in_range g i j :
  Forall (edge_in_range (number_of_nodes g)) (edges g) →
  within_two_hops g i j → (i < number_of_nodes g)%nat ∧ (j < number_of_nodes g)%nat.
Proof.
  intros Hwf Hw. rewrite Forall_forall in Hwf. destruct Hw as [H1|(m & H1 & H2)].
  - apply Hwf in H1. exact H1.
  - apply Hwf in H1, H2. destruct H1, H2. split; assumption.
Qed.

(** X9 — [two_hop_neighborhood] joins the nodes that are within two hops.
    The graph may be a multigraph: the adjacency matrix counts parallel
    edges, the product counts two-step walks, and the threshold [>= 1] only
    asks for a positive count.  For two distinct nodes of a graph whose
    edges stay inside its node set, the new graph has an edge from [i] to
    [j] exactly when one of them can be reached from the other along one or
    two edges of the old graph; in particular the new edge set is symmetric
    and contains the old edges between distinct nodes. *)
Theorem two_hop_neighborhood_edges (graph : DGLGraph) (i j : nat) :
  Forall (edge_in_range (number_of_nodes graph)) (edges graph) →
  i ≠ j →
  ((i, j) ∈ edges (two_hop_neighborhood graph) ↔
   within_two_hops graph i j ∨ within_two_hops graph j i).
Proof.
  intros Hwf Hne. unfold two_hop_neighborhood. simpl.
  rewrite elem_of_from_numpy_matrix_edges, length_A_tilde_of. split.
  - intros (Hi & Hj & [Hnz|Hnz]).
    + apply A_tilde_nonzero in Hnz; try assumption.
      rewrite decide_False in Hnz by exact Hne. right. exact Hnz.
    + apply A_tilde_nonzero in Hnz; try assumption.
      rewrite decide_False in Hnz by congruence. left. exact Hnz.
  - intros [Hw|Hw].
    + destruct (within_two_hops_in_range _ _ _ Hwf Hw) as [Hi Hj].
      split; [exact Hi|]. split; [exact Hj|]. right.
      apply A_tilde_nonzero; try assumption. rewrite decide_False by congruence. exact Hw.
    + destruct (within_two_hops_in_range _ _ _ Hwf Hw) as [Hj Hi].
      split; [exact Hi|]. split; [exact Hj|]. left.
      apply A_tilde_nonzero; try assumption. rewrite decide_False by exact Hne. exact Hw.
Qed.

Lemma two_hop_neighborhood_edges_witness :
  (0, 1)%nat ∈ edges (two_hop_neighborhood (mkGraph 3 ∅ [(0, 2); (0, 2); (2, 1)]%nat)) ∧
  (1, 0)%nat ∈ edges (two_hop_neighborhood (mkGraph 3 ∅ [(0, 2); (0, 2); (2, 1)]%nat)).
Proof.
  assert (Forall (edge_in_range 3) [(0, 2); (0, 2); (2, 1)]%nat) as Hwf
    by repeat constructor.
  assert (within_two_hops (mkGraph 3 ∅ [(0, 2); (0, 2); (2, 1)]%nat) 0 1) as Hw.
  { right. exists 2%nat. split; apply list_elem_of_In; simpl; tauto. }
  split.
  - apply (two_hop_neighborhood_edges (mkGraph 3 ∅ [(0, 2); (0, 2); (2, 1)]%nat) 0 1 Hwf);
      [discriminate | left; exact Hw].
  - apply (two_hop_neighborhood_edges (mkGraph 3 ∅ [(0, 2); (0, 2); (2, 1)]%nat) 1 0 Hwf);
      [discriminate | right; exact Hw].
Defined.

(** X10 — [two_hop_neighborhood] and self-loops.  The diagonal of the
    thresholded matrix has the identity subtracted, so a node gets a
    self-loop in the new graph exactly when it had none in the old graph
    and no edge leaving it comes back in one step: a self-loop or a pair of
    opposite edges removes it, an isolated node gains one.  Parallel edges
    make no difference: the diagonal entry is thresholded before the
    identity is subtracted. *)
Theorem two_hop_neighborhood_self_loops (graph : DGLGraph) (i : nat) :
  Forall (edge_in_range (number_of_nodes graph)) (edges graph) →
  ((i, i) ∈ edges (two_hop_neighborhood graph) ↔
   (i < number_of_nodes graph)%nat ∧ ¬ within_two_hops graph i i).
Proof.
  intros Hwf. unfold two_hop_neighborhood. simpl.
  rewrite elem_of_from_numpy_matrix_edges, length_A_tilde_of. split.
  - intros (Hi & _ & Hnz). split; [exact Hi|].
    assert (matrix_entry (A_tilde_of (adjacency_matrix graph)) i i ≠ 0) as Hnz'
      by (destruct Hnz; assumption).
    apply A_tilde_nonzero in Hnz'; try assumption.
    rewrite decide_True in Hnz' by reflexivity. exact Hnz'.
  - intros [Hi Hw]. split; [exact Hi|]. split; [exact Hi|]. left.
    apply A_tilde_nonzero; try assumption. rewrite decide_True by reflexivity. exact Hw.
Qed.

Lemma two_hop_neighborhood_self_loops_witness :
  (2, 2)%nat ∈ edges (two_hop_neighborhood (mkGraph 3 ∅ [(0, 1); (0, 1); (1, 0)]%nat)) ∧
  (0, 0)%nat ∉ edges (two_hop_neighborhood (mkGraph 3 ∅ [(0, 1); (0, 1); (1, 0)]%nat)).
Proof.
  assert (Forall (edge_in_range 3) [(0, 1); (0, 1); (1, 0)]%nat) as Hwf
    by repeat constructor.
  split.
  - apply (two_hop_neighborhood_self_loops
             (mkGraph 3 ∅ [(0, 1); (0, 1); (1, 0)]%nat) 2 Hwf).
    split; [simpl; lia|].
    intros [H|(m & H & _)]; apply list_elem_of_In in H; simpl in H;
      destruct H as [[= ]|[[= ]|[[= ]|[]]]].
  - intros Hin.
    apply (two_hop_neighborhood_self_loops
             (mkGraph 3 ∅ [(0, 1); (0, 1); (1, 0)]%nat) 0 Hwf) in Hin
      as [_ Hno].
    apply Hno. right. exists 1%nat. split; apply list_elem_of_In; simpl; tauto.
Defined.

(** X11 — [two_hop_neighborhood] keeps the nodes and their data.  The new
    graph has the same number of nodes and the same node data as the old
    one, and all its edges join nodes of the graph. *)
Theorem two_hop_neighborhood_wf (graph : DGLGraph) :
  graph_wf graph →
  number_of_nodes (two_hop_neighborhood graph) = number_of_nodes graph ∧
  ndata (two_hop_neighborhood graph) = ndata graph ∧
  graph_wf (two_hop_neighborhood graph).
Proof.
  intros [Hn He]. unfold two_hop_neighborhood.
  split; [apply length_A_tilde_of|]. split; [reflexivity|].
  split; simpl; rewrite length_A_tilde_of.
  - exact Hn.
  - apply Forall_forall. intros [u v] Hin.
    apply elem_of_from_numpy_matrix_edges in Hin as (Hu & Hv & _).
    rewrite length_A_tilde_of in Hu, Hv. split; assumption.
Qed.

Lemma two_hop_neighborhood_wf_witness :
  graph_wf (two_hop_neighborhood
              (mkGraph 2 {[ FEATURES := FloatTensor2 [[1]; [2]]%Q ]} [(0, 1)]%nat)).
Proof.
  apply (two_hop_neighborhood_wf
           (mkGraph 2 {[ FEATURES := FloatTensor2 [[1]; [2]]%Q ]} [(0, 1)]%nat)).
  split; simpl.
  - intros key t Hk. apply lookup_singleton_Some in Hk as [_ <-]. reflexivity.
  - repeat constructor.
Defined.

(** ** The region-adjacency builder: which regions are joined *)

Lemma pixel_Some im (y x : nat) v :
  pixel im (Z.of_nat y) (Z.of_nat x) = Some v ↔
  ∃ row, im !! y = Some row ∧ row !! x = Some v.
Proof.
  unfold pixel. rewrite decide_True by lia. rewrite !Nat2Z.id.
  destruct (im !! y) as [row|]; simpl.
  - split; [intros H; exists row; auto | intros (row' & [= <-] & H); exact H].
  - split; [discriminate | intros (row' & [=] & _)].
Qed.

Lemma pixel_mask im r y x :
  pixel (astype_uint8 (np_eq_scalar im r)) y x
  = (fun v => if v =? r then 1 else 0) <$> pixel im y x.
Proof.
  unfold pixel, astype_uint8, np_eq_scalar. case_decide; [|reflexivity].
  change (map ?f ?l) with (f <$> l). rewrite !list_lookup_fmap.
  destruct (im !! Z.to_nat y) as [row|]; simpl; [|reflexivity].
  change (map ?f ?l) with (f <$> l). rewrite !list_lookup_fmap.
  destruct (row !! Z.to_nat x) as [w|]; reflexivity.
Qed.

Lemma elem_of_window src ksize y x v :
  v ∈ window src ksize y x ↔
  ∃ dy dx, dy ∈ kernel_offsets ksize ∧ dx ∈ kernel_offsets ksize ∧
           pixel src (Z.of_nat y + dy) (Z.of_nat x + dx) = Some v.
Proof.
  unfold window. rewrite list_elem_of_bind. split.
  - intros (dy & Hv & Hdy). apply list_elem_of_bind in Hv as (dx & Hv & Hdx).
    destruct (pixel src (Z.of_nat y + dy) (Z.of_nat x + dx)) as [w|] eqn:Hw;
      simpl in Hv; [|inversion Hv].
    apply list_elem_of_singleton in Hv as ->. exists dy, dx. auto.
  - intros (dy & dx & Hdy & Hdx & Hp). exists dy. split; [|exact Hdy].
    apply list_elem_of_bind. exists dx. split; [|exact Hdx]. rewrite Hp. simpl. left.
Qed.

Lemma foldr_max_one (l : list Z) :
  (∀ v, v ∈ l → 0 ≤ v ≤ 1) → foldr Z.max 0 l ≠ 0 → 1 ∈ l.
Proof.
  induction l as [|v l IH]; intros Hall Hnz; simpl in *; [contradiction|].
  pose proof (Hall v ltac:(left)) as Hv.
  destruct (decide (v = 1)) as [->|Hv1]; [left|].
  right. apply IH; [intros w Hw; apply Hall; right; exact Hw|]. lia.
Qed.

(** The value of the dilated mask of region [r] at a pixel. *)
Lemma dilated_mask_value im ksize r y x :
  let d := foldr Z.max 0 (window (astype_uint8 (np_eq_scalar im r)) ksize y x) in
  0 ≤ d ≤ 1 ∧
  (d ≠ 0 ↔ ∃ dy dx, dy ∈ kernel_offsets ksize ∧ dx ∈ kernel_offsets ksize ∧
                    pixel im (Z.of_nat y + dy) (Z.of_nat x + dx) = Some r).
Proof.
  intros d. set (mask := astype_uint8 (np_eq_scalar im r)) in *.
  assert (Hb : ∀ v, v ∈ window mask ksize y x → 0 ≤ v ≤ 1).
  { intros v Hv. apply elem_of_window in Hv as (dy & dx & _ & _ & Hp).
    eapply pixel_mask_bounds. exact Hp. }
  destruct (foldr_max_bounds _ Hb) as [Hd Hone]. split; [exact Hd|]. split.
  - intros Hnz. apply (foldr_max_one _ Hb) in Hnz.
    apply elem_of_window in Hnz as (dy & dx & Hdy & Hdx & Hp).
    exists dy, dx. split; [exact Hdy|]. split; [exact Hdx|].
    unfold mask in Hp. rewrite pixel_mask in Hp.
    destruct (pixel im (Z.of_nat y + dy) (Z.of_nat x + dx)) as [w|]; [|discriminate].
    simpl in Hp. destruct (Z.eqb_spec w r) as [Heq|]; [congruence | discriminate].
  - intros (dy & dx & Hdy & Hdx & Hp). unfold d. rewrite Hone; [lia|].
    apply elem_of_window. exists dy, dx. split; [exact Hdy|]. split; [exact Hdx|].
    unfold mask. rewrite pixel_mask, Hp. simpl. rewrite Z.eqb_refl. reflexivity.
Qed.

(** The boundary mask of region [r] at a pixel of the map. *)
Lemma boundary_lookup im ksize r y x row v :
  im !! y = Some row → row !! x = Some v →
  ∃ brow,
    astype_bool (np_sub_uint8 (cv2_dilate (astype_uint8 (np_eq_scalar im r)) ksize)
                   (astype_uint8 (np_eq_scalar im r))) !! y = Some brow ∧
    brow !! x
    = Some (negb ((foldr Z.max 0 (window (astype_uint8 (np_eq_scalar im r)) ksize y x)
                   - (if v =? r then 1 else 0)) mod 256 =? 0)).
Proof.
  intros Hrow Hv. set (mask := astype_uint8 (np_eq_scalar im r)).
  set (mrow := map (fun b : bool => if b then 1 else 0) (map (fun w => w =? r) row)).
  assert (Hmy : mask !! y = Some mrow).
  { unfold mask, astype_uint8, np_eq_scalar.
    change (map ?f ?l) with (f <$> l). rewrite !list_lookup_fmap, Hrow. reflexivity. }
  assert (Hmx : mrow !! x = Some (if v =? r then 1 else 0)).
  { unfold mrow. change (map ?f ?l) with (f <$> l).
    rewrite !list_lookup_fmap, Hv. reflexivity. }
  eexists. split.
  - unfold astype_bool, np_sub_uint8, cv2_dilate.
    change (map ?f ?l) with (f <$> l).
    rewrite list_lookup_fmap, lookup_zip_with, list_lookup_imap, Hmy. simpl. reflexivity.
  - change (map ?f ?l) with (f <$> l).
    rewrite list_lookup_fmap, lookup_zip_with, list_lookup_imap, Hmx. simpl. reflexivity.
Qed.

Lemma elem_of_mask_select_2 {A} (a : list (list A)) (m : list (list bool))
    (y x : nat) row mrow (v : A) :
  a !! y = Some row → m !! y = Some mrow → row !! x = Some v → mrow !! x = Some true →
  v ∈ mask_select a m.
Proof.
  intros Hrow Hmrow Hx Hb. unfold mask_select. apply elem_of_concat.
  exists (select_row row mrow). split.
  - apply elem_of_lookup_zip_with. exists y, row, mrow. auto.
  - unfold select_row. apply list_elem_of_In, in_map_iff. exists (v, true).
    split; [reflexivity|]. apply filter_In. split; [|reflexivity].
    apply list_elem_of_In, list_elem_of_lookup. exists x.
    apply lookup_zip_Some. auto.
Qed.

(** The ids under the ring of a region are those of the other regions that
    touch it. *)
Lemma elem_of_ring_ids im ksize r c :
  (0 < ksize)%nat →
  c ∈ ring_ids im ksize r ↔ c ≠ r ∧ touches im ksize r c.
Proof.
  intros Hk. split.
  - intros Hc. assert (c ≠ r) as Hne.
    { intros ->. exact (ring_ids_not_self im ksize r Hk Hc). }
    split; [exact Hne|].
    unfold ring_ids in Hc. rewrite elem_of_pd_unique in Hc.
    apply elem_of_mask_select in Hc as (y & x & row & brow & Hrow & Hbrow & Hx & Hb).
    destruct (boundary_lookup im ksize r y x row c Hrow Hx) as (brow' & Hbrow' & Hb').
    rewrite Hbrow in Hbrow'. injection Hbrow' as <-. rewrite Hb in Hb'.
    injection Hb' as Hb'. symmetry in Hb'. apply negb_true_iff, Z.eqb_neq in Hb'.
    destruct (dilated_mask_value im ksize r y x) as [Hd Hiff].
    destruct (Z.eqb_spec c r) as [|_]; [contradiction|].
    destruct Hiff as [Hiff _]. destruct Hiff as (dy & dx & Hdy & Hdx & Hp).
    { intros Hz. rewrite Hz in Hb'. apply Hb'. reflexivity. }
    exists y, x, dy, dx. split; [exact Hdy|]. split; [exact Hdx|]. split; [|exact Hp].
    apply pixel_Some. exists row. auto.
  - intros (Hne & y & x & dy & dx & Hdy & Hdx & Hc & Hp).
    apply pixel_Some in Hc as (row & Hrow & Hx).
    unfold ring_ids. rewrite elem_of_pd_unique.
    destruct (boundary_lookup im ksize r y x row c Hrow Hx) as (brow & Hbrow & Hb).
    eapply (elem_of_mask_select_2 _ _ y x); [exact Hrow | exact Hbrow | exact Hx|].
    rewrite Hb. f_equal. apply negb_true_iff, Z.eqb_neq.
    destruct (dilated_mask_value im ksize r y x) as [Hd Hiff].
    destruct (Z.eqb_spec c r) as [|_]; [contradiction|].
    destruct Hiff as [_ Hiff]. specialize (Hiff ltac:(eauto 10)).
    assert (foldr Z.max 0 (window (astype_uint8 (np_eq_scalar im r)) ksize y x) = 1) as ->
      by lia.
    discriminate.
Qed.

Lemma np_ones_kernel_pos ks ksize : np_ones_kernel ks = Ok ksize → (0 < ksize)%nat.
Proof.
  unfold np_ones_kernel. repeat case_decide; try discriminate; intros [= <-]; lia.
Qed.

Lemma elem_of_instance_ids_of im v :
  v ∈ instance_ids_of im ↔ v ∈ np_ravel im ∧ v ≠ 0.
Proof.
  rewrite instance_ids_of_filter, elem_of_List_filter. unfold np_sort.
  rewrite merge_sort_Permutation, elem_of_pd_unique.
  destruct (Z.eqb_spec v 0); simpl; intuition congruence.
Qed.

Lemma touches_in_map im ksize a b :
  touches im ksize a b → a ∈ np_ravel im ∧ b ∈ np_ravel im.
Proof.
  intros (y & x & dy & dx & _ & _ & Hb & Ha).
  assert (∀ (y x : Z) v, pixel im y x = Some v → v ∈ np_ravel im) as Hin.
  { intros y' x' v. unfold pixel. case_decide; [|discriminate].
    destruct (im !! Z.to_nat y') as [row|] eqn:Hrow; simpl; [|discriminate].
    intros Hv. unfold np_ravel. apply elem_of_concat. exists row. split.
    - apply list_elem_of_lookup. eauto.
    - apply list_elem_of_lookup. eauto. }
  split; eapply Hin; eassumption.
Qed.

(** The pieces of a successful build of the region-adjacency builder. *)
Lemma RAG_process_Ok (self : RAGGraphBuilder) im features ann g :
  process self im features ann = Ok g →
  ∃ ksize adj,
    np_ones_kernel (kernel_size self) = Ok ksize ∧
    RAG_adjacency im ksize = Ok adj ∧
    nr_regions im = length features ∧
    number_of_nodes g = length features ∧
    edges g = np_nonzero2 adj ∧
    ndata g !! FEATURES = Some (FloatTensor2 features) ∧
    ndata g !! CENTROID = Some (FloatTensor2 (map centroid_row (regionprops im))).
Proof.
  intros Hp.
  apply process_Ok in Hp as (g2 & g3 & Hc & Hl & Ht). simpl in Hc, Hl, Ht.
  apply ndata_set_Ok in Hc as [Hcs ->]. simpl in Hcs. rewrite length_map in Hcs.
  assert (Hg3 : number_of_nodes g3 = length features ∧ edges g3 = [] ∧
                ndata g3 !! FEATURES = Some (FloatTensor2 features) ∧
                ndata g3 !! CENTROID
                = Some (FloatTensor2 (map centroid_row (regionprops im)))).
  { destruct ann as [ann|].
    - apply RAG_set_node_labels_Ok in Hl as (labels & _ & Hl).
      apply ndata_set_Ok in Hl as [_ ->]. simpl. split; [reflexivity|].
      split; [reflexivity|].
      split; repeat (rewrite lookup_insert_ne by discriminate);
        [apply lookup_singleton_eq | apply lookup_insert_eq].
    - subst g3. simpl. split; [reflexivity|]. split; [reflexivity|].
      split; repeat (rewrite lookup_insert_ne by discriminate);
        [apply lookup_singleton_eq | apply lookup_insert_eq]. }
  destruct Hg3 as (HN3 & He3 & Hf3 & Hc3).
  apply RAG_build_topology_Ok in Ht as (ksize & adj & Hk & Hadj & _ & ->).
  simpl. rewrite He3. exists ksize, adj. repeat split; assumption.
Qed.

(** On a map without background and without negative ids, the non-zero
    entries of the adjacency matrix are the pairs of distinct regions that
    touch. *)
Lemma RAG_adjacency_entries im ksize adj i j :
  (0 < ksize)%nat →
  (∀ v, v ∈ np_ravel im → 1 ≤ v) →
  RAG_adjacency im ksize = Ok adj →
  ((i, j) ∈ np_nonzero2 adj ↔
   i ≠ j ∧ touches im ksize (Z.of_nat i + 1) (Z.of_nat j + 1)).
Proof.
  intros Hk Hpos Hadj. unfold RAG_adjacency in Hadj.
  set (n := length (instance_ids_of im)) in *.
  destruct (RAG_adjacency_loop im ksize n _ _ _ (square_zeros n) Hadj)
    as (Hsq & _ & Hwritten).
  split.
  - intros Hin. apply elem_of_np_nonzero2 in Hin as (row & v & Hrow & Hv & Hv0).
    assert (Hentry : matrix_entry adj i j ≠ 0).
    { rewrite (matrix_entry_Some _ _ _ _ _ Hrow Hv). exact Hv0. }
    destruct (RAG_adjacency_loop_written im ksize n _ _ _ (square_zeros n) Hadj i j Hentry)
      as [Hzero|(r & c & Hr & Hc & Hri & Hci)].
    { rewrite matrix_entry_zeros in Hzero. contradiction. }
    apply elem_of_ring_ids in Hc as [Hne Ht]; [|exact Hk].
    destruct (touches_in_map _ _ _ _ Ht) as [Hr1 Hc1].
    apply Hpos in Hr1, Hc1.
    unfold np_index in Hri, Hci.
    repeat case_decide; try discriminate; try lia.
    injection Hri as <-. injection Hci as <-.
    split; [lia|]. rewrite !Z2Nat.id by lia.
    replace (r - 1 + 1) with r by lia. replace (c - 1 + 1) with c by lia. exact Ht.
  - intros [Hne Ht]. destruct (touches_in_map _ _ _ _ Ht) as [Hr1 Hc1].
    destruct (Hwritten (Z.of_nat i + 1) (Z.of_nat j + 1)) as (ri & ci & Hri & Hci & He).
    { apply elem_of_instance_ids_of. split; [exact Hr1 | lia]. }
    { apply elem_of_ring_ids; [exact Hk|]. split; [lia | exact Ht]. }
    unfold np_index in Hri, Hci.
    repeat case_decide; try discriminate; try lia.
    injection Hri as <-. injection Hci as <-.
    replace (Z.to_nat (Z.of_nat i + 1 - 1)) with i in He by lia.
    replace (Z.to_nat (Z.of_nat j + 1 - 1)) with j in He by lia.
    apply elem_of_np_nonzero2. unfold matrix_entry in He.
    destruct (adj !! i) as [row|]; simpl in He; [|discriminate].
    destruct (row !! j) as [v|] eqn:Hv; simpl in He; [|discriminate].
    exists row, v. split; [reflexivity|]. split; [exact Hv | lia].
Qed.

(** X12 — the edges of the region-adjacency builder.  On a map without
    background pixels (all ids at least 1), a returned graph has an edge
    from node [i] to node [j] exactly when the regions [i + 1] and [j + 1]
    are distinct and region [j + 1] has a pixel whose kernel window covers a
    pixel of region [i + 1]. *)
Theorem RAG_edges_join_touching_regions (self : RAGGraphBuilder)
    (instance_map : list (list Z)) (features : list (list Q))
    (annotation : option (list (list Z))) (g : DGLGraph) :
  (∀ v, v ∈ np_ravel instance_map → 1 ≤ v) →
  process self instance_map features annotation = Ok g →
  ∃ ksize, np_ones_kernel (kernel_size self) = Ok ksize ∧
    ∀ i j, (i, j) ∈ edges g ↔
           i ≠ j ∧ touches instance_map ksize (Z.of_nat i + 1) (Z.of_nat j + 1).
Proof.
  intros Hpos Hp.
  destruct (RAG_process_Ok _ _ _ _ _ Hp) as (ksize & adj & Hk & Hadj & _ & _ & He & _).
  exists ksize. split; [exact Hk|]. intros i j. rewrite He.
  apply RAG_adjacency_entries; [eapply np_ones_kernel_pos, Hk | exact Hpos | exact Hadj].
Qed.

Lemma RAG_edges_join_touching_regions_witness :
  ∃ g, process (mkRAG (Base__init__ 6 4 None (mkPipelineStep None "")) 3 1)
         [[1; 2; 3]] [[]; []; []] None = Ok g ∧
       (0, 1)%nat ∈ edges g ∧ (0, 2)%nat ∉ edges g.
Proof.
  eexists. split; [vm_compute; reflexivity|].
  destruct (RAG_edges_join_touching_regions
              (mkRAG (Base__init__ 6 4 None (mkPipelineStep None "")) 3 1)
              [[1; 2; 3]] [[]; []; []] None
              (mkGraph 3
                 (<[CENTROID := FloatTensor2 [[0; 0]; [1; 0]; [2; 0]]%Q]>
                    {[ FEATURES := FloatTensor2 [[]; []; []] ]})
                 [(0, 1); (1, 0); (1, 2); (2, 1)]%nat))
    as (ksize & Hk & Hedges).
  - intros v Hv. apply list_elem_of_In in Hv. simpl in Hv. lia.
  - vm_compute. reflexivity.
  - injection Hk as <-. split.
    + apply list_elem_of_In. simpl. tauto.
    + intros Hin. apply list_elem_of_In in Hin. simpl in Hin.
      repeat destruct Hin as [[=]|Hin]. exact Hin.
Defined.

Lemma elem_of_kernel_offsets ksize d :
  d ∈ kernel_offsets ksize ↔
  - Z.of_nat (ksize / 2) ≤ d < Z.of_nat ksize - Z.of_nat (ksize / 2).
Proof.
  unfold kernel_offsets. rewrite list_elem_of_In, in_map_iff. split.
  - intros (k & <- & Hk). apply in_seq in Hk. lia.
  - intros Hd. exists (Z.to_nat (d + Z.of_nat (ksize / 2))). split; [lia|].
    apply in_seq. lia.
Qed.

Lemma kernel_offsets_opp ksize d :
  Nat.odd ksize = true → d ∈ kernel_offsets ksize → - d ∈ kernel_offsets ksize.
Proof.
  intros Hodd. rewrite !elem_of_kernel_offsets.
  apply Nat.odd_spec in Hodd as [h ->].
  replace ((2 * h + 1) / 2)%nat with h.
  - lia.
  - apply Nat.div_unique with 1%nat; lia.
Qed.

Lemma pixel_Some_nonneg im y x v : pixel im y x = Some v → 0 ≤ y ∧ 0 ≤ x.
Proof. unfold pixel. case_decide; [auto | discriminate]. Qed.

(** With a kernel of odd size, touching is symmetric. *)
Lemma touches_sym im ksize a b :
  Nat.odd ksize = true → touches im ksize a b → touches im ksize b a.
Proof.
  intros Hodd (y & x & dy & dx & Hdy & Hdx & Hb & Ha).
  destruct (pixel_Some_nonneg _ _ _ _ Ha) as [Hy Hx].
  exists (Z.to_nat (Z.of_nat y + dy)), (Z.to_nat (Z.of_nat x + dx)), (- dy), (- dx).
  split; [apply kernel_offsets_opp; assumption|].
  split; [apply kernel_offsets_opp; assumption|].
  rewrite !Z2Nat.id by lia. split; [exact Ha|].
  replace (Z.of_nat y + dy + - dy) with (Z.of_nat y) by lia.
  replace (Z.of_nat x + dx + - dx) with (Z.of_nat x) by lia. exact Hb.
Qed.

(** X13 — an odd kernel gives a symmetric graph.  With a kernel of odd size,
    on a map without background pixels, every edge of a returned graph has
    its opposite edge. *)
Theorem RAG_edges_symmetric (self : RAGGraphBuilder)
    (instance_map : list (list Z)) (features : list (list Q))
    (annotation : option (list (list Z))) (g : DGLGraph) (i j : nat) :
  Z.odd (kernel_size self) = true →
  (∀ v, v ∈ np_ravel instance_map → 1 ≤ v) →
  process self instance_map features annotation = Ok g →
  (i, j) ∈ edges g → (j, i) ∈ edges g.
Proof.
  intros Hodd Hpos Hp Hin.
  destruct (RAG_process_Ok _ _ _ _ _ Hp) as (ksize & adj & Hk & Hadj & _ & _ & He & _).
  assert (Hkodd : Nat.odd ksize = true).
  { unfold np_ones_kernel in Hk. repeat case_decide; try discriminate.
    - injection Hk as <-. reflexivity.
    - injection Hk as <-. apply Z.odd_spec in Hodd as [h Hh].
      apply Nat.odd_spec. exists (Z.to_nat h). lia. }
  rewrite He in Hin. rewrite He.
  pose proof (np_ones_kernel_pos _ _ Hk) as Hk0.
  destruct (proj1 (RAG_adjacency_entries _ _ _ i j Hk0 Hpos Hadj) Hin) as [Hne Htouch].
  apply (RAG_adjacency_entries _ _ _ j i Hk0 Hpos Hadj).
  split; [congruence|]. apply touches_sym; assumption.
Qed.

Lemma RAG_edges_symmetric_witness :
  ∃ g, process (mkRAG (Base__init__ 6 4 None (mkPipelineStep None "")) 3 1)
         [[1; 2]; [3; 3]] [[]; []; []] None = Ok g ∧
       (2, 0)%nat ∈ edges g ∧ (0, 2)%nat ∈ edges g.
Proof.
  eexists. split; [vm_compute; reflexivity|].
  assert ((2, 0)%nat ∈ [(0, 1); (0, 2); (1, 0); (1, 2); (2, 0); (2, 1)]%nat) as Hin.
  { apply list_elem_of_In. simpl. tauto. }
  split; [exact Hin|].
  apply (RAG_edges_symmetric
           (mkRAG (Base__init__ 6 4 None (mkPipelineStep None "")) 3 1)
           [[1; 2]; [3; 3]] [[]; []; []] None _ 2%nat 0%nat eq_refl).
  - intros v Hv. apply list_elem_of_In in Hv. simpl in Hv. lia.
  - vm_compute. reflexivity.
  - exact Hin.
Defined.

(** ** The region-adjacency builder: when the build returns *)

Lemma length_regionprops im :
  nr_regions im
  = length (List.filter (fun v => 0 <? v) (np_sort (pd_unique (np_ravel im)))).
Proof. unfold nr_regions, regionprops. apply length_map. Qed.

Lemma instance_ids_of_nonneg im :
  (∀ v, v ∈ np_ravel im → 0 ≤ v) →
  instance_ids_of im
  = List.filter (fun v => 0 <? v) (np_sort (pd_unique (np_ravel im))).
Proof.
  intros Hnonneg. rewrite instance_ids_of_filter. apply filter_ext_in. intros v Hv.
  apply list_elem_of_In in Hv. unfold np_sort in Hv.
  rewrite merge_sort_Permutation, elem_of_pd_unique in Hv.
  specialize (Hnonneg v Hv). destruct (Z.eqb_spec v 0), (Z.ltb_spec 0 v); simpl; lia.
Qed.

(** The build up to the topology, when there is one region per feature
    row and no annotation. *)
Lemma RAG_process_topology (self : RAGGraphBuilder) im features :
  nr_regions im = length features →
  process self im features None
  = RAG_build_topology self im
      (mkGraph (length features)
         (<[CENTROID := FloatTensor2 (map centroid_row (regionprops im))]>
            {[ FEATURES := FloatTensor2 features ]}) []).
Proof.
  intros Hn. unfold process. rewrite set_node_features_new. simpl.
  unfold RAG_set_node_centroids, ndata_set. simpl.
  rewrite decide_True; [reflexivity|]. rewrite length_map. exact Hn.
Qed.

(** X14 — one region per feature row.  A build of the region-adjacency
    builder whose feature matrix has not one row per region of the map (per
    distinct positive id) raises DGL's error when the centroids are
    attached, with or without annotation. *)
Theorem RAG_region_count_mismatch (self : RAGGraphBuilder)
    (instance_map : list (list Z)) (features : list (list Q))
    (annotation : option (list (list Z))) :
  nr_regions instance_map ≠ length features →
  process self instance_map features annotation = Raise DGLError.
Proof.
  intros Hn. unfold process. rewrite set_node_features_new. simpl.
  unfold RAG_set_node_centroids, ndata_set. simpl.
  rewrite decide_False; [reflexivity|]. rewrite length_map. exact Hn.
Qed.

Lemma RAG_region_count_mismatch_witness :
  process (mkRAG (Base__init__ 6 4 None (mkPipelineStep None "")) 3 1)
    [[1; 2]; [0; 2]] [[]; []; []] None = Raise DGLError.
Proof.
  apply (RAG_region_count_mismatch
           (mkRAG (Base__init__ 6 4 None (mkPipelineStep None "")) 3 1)
           [[1; 2]; [0; 2]] [[]; []; []] None).
  vm_compute. discriminate.
Defined.

Lemma np_index_raises n i e : np_index n i = Raise e → e = IndexError.
Proof. unfold np_index. repeat case_decide; try discriminate. intros [= <-]. reflexivity. Qed.

Lemma map_result_np_index_raises n idx e :
  map_result (np_index n) idx = Raise e → e = IndexError.
Proof.
  induction idx as [|c idx IH]; simpl; [discriminate|].
  destruct (np_index n c) as [j|e'] eqn:Hc; simpl.
  - destruct (map_result (np_index n) idx); simpl; [discriminate | exact IH].
  - intros [= <-]. eapply np_index_raises, Hc.
Qed.

Lemma np_set_row_cols_raises a n i idx v e :
  np_set_row_cols a n i idx v = Raise e → e = IndexError.
Proof.
  unfold np_set_row_cols.
  destruct (np_index (length a) i) as [j|e'] eqn:Hi; simpl.
  - destruct (map_result (np_index n) idx) eqn:Hm; simpl; [discriminate|].
    intros [= <-]. eapply map_result_np_index_raises, Hm.
  - intros [= <-]. eapply np_index_raises, Hi.
Qed.

(** The loop over the instances stops with [IndexError] as soon as one id
    has no row in the matrix. *)
Lemma RAG_adjacency_loop_raises im ksize n ids : ∀ a,
  square n a →
  (∃ r, r ∈ ids ∧ np_index n (r - 1) = Raise IndexError) →
  for_each ids (fun instance_id adjacency =>
      np_set_row_cols adjacency n (instance_id - 1)
        (map (fun i => i - 1) (ring_ids im ksize instance_id)) 1) a
  = Raise IndexError.
Proof.
  induction ids as [|id ids IH]; intros a Hsq (r & Hr & Hbad); [inversion Hr|].
  simpl.
  destruct (np_set_row_cols a n (id - 1) (map (fun i => i - 1) (ring_ids im ksize id)) 1)
    as [a1|e] eqn:Hstep; simpl.
  - destruct (np_set_row_cols_Ok _ _ _ _ _ Hsq Hstep) as (Hsq1 & _ & ri & Hri & _).
    apply IH; [exact Hsq1|]. apply elem_of_cons in Hr as [->|Hr].
    + congruence.
    + exists r. auto.
  - f_equal. eapply np_set_row_cols_raises, Hstep.
Qed.

(** X15 — a gap in the ids.  On a map without negative ids that has one
    region per feature row, a build without annotation raises [IndexError]
    when some id is larger than the number of regions: the matrix has one
    row per region and the id, less one, indexes it. *)
Theorem RAG_id_beyond_region_count (self : RAGGraphBuilder)
    (instance_map : list (list Z)) (features : list (list Q)) (v : Z) :
  0 ≤ kernel_size self →
  (∀ w, w ∈ np_ravel instance_map → 0 ≤ w) →
  nr_regions instance_map = length features →
  v ∈ np_ravel instance_map → Z.of_nat (nr_regions instance_map) < v →
  process self instance_map features None = Raise IndexError.
Proof.
  intros Hks Hnonneg Hn Hv Hbig. rewrite (RAG_process_topology _ _ _ Hn).
  unfold RAG_build_topology, RAG_build_topology_locals.
  assert (∃ ksize, np_ones_kernel (kernel_size self) = Ok ksize) as [ksize ->].
  { unfold np_ones_kernel. repeat case_decide; try lia; eexists; reflexivity. }
  simpl. unfold RAG_adjacency.
  rewrite (RAG_adjacency_loop_raises instance_map ksize); [reflexivity | apply square_zeros |].
  exists v. split.
  - apply elem_of_instance_ids_of. split; [exact Hv | lia].
  - rewrite (instance_ids_of_nonneg _ Hnonneg), <- length_regionprops.
    unfold np_index. repeat case_decide; try reflexivity; lia.
Qed.

Lemma RAG_id_beyond_region_count_witness :
  process (mkRAG (Base__init__ 6 4 None (mkPipelineStep None "")) 3 1)
    [[1; 3]; [1; 3]] [[]; []] None = Raise IndexError.
Proof.
  apply (RAG_id_beyond_region_count
           (mkRAG (Base__init__ 6 4 None (mkPipelineStep None "")) 3 1)
           [[1; 3]; [1; 3]] [[]; []] 3).
  - simpl. lia.
  - intros w Hw. apply list_elem_of_In in Hw. simpl in Hw. lia.
  - vm_compute. reflexivity.
  - apply list_elem_of_In. simpl. tauto.
  - vm_compute. reflexivity.
Defined.

Lemma NoDup_in_range_length (l : list Z) (n : nat) :
  NoDup l → (∀ v, v ∈ l ↔ 1 ≤ v ≤ Z.of_nat n) → length l = n.
Proof.
  intros Hnd Hiff.
  assert (l ≡ₚ Z.of_nat <$> seq 1 n) as ->.
  { apply NoDup_Permutation; [exact Hnd | |].
    - apply NoDup_fmap; [apply _ | apply NoDup_seq].
    - intros v. rewrite Hiff, list_elem_of_fmap. split.
      + intros Hv. exists (Z.to_nat v). split; [lia|]. apply elem_of_seq. lia.
      + intros (k & -> & Hk). apply elem_of_seq in Hk. lia. }
  rewrite length_fmap, length_seq. reflexivity.
Qed.

(** A list without repetition of [n] values in [1 .. n] holds all of them. *)
Lemma NoDup_in_range_all (l : list Z) (n : nat) :
  NoDup l → (∀ v, v ∈ l → 1 ≤ v ≤ Z.of_nat n) → length l = n →
  ∀ v, 1 ≤ v ≤ Z.of_nat n → v ∈ l.
Proof.
  intros Hnd Hin Hlen v Hv.
  assert (l ≡ₚ Z.of_nat <$> seq 1 n) as ->.
  { apply submseteq_length_Permutation.
    - apply NoDup_submseteq; [exact Hnd|]. intros x Hx. apply Hin in Hx.
      apply list_elem_of_fmap. exists (Z.to_nat x). split; [lia|]. apply elem_of_seq. lia.
    - rewrite length_fmap, length_seq. lia. }
  apply list_elem_of_fmap. exists (Z.to_nat v). split; [lia|]. apply elem_of_seq. lia.
Qed.

Lemma ids_are_1_to_counts n im :
  ids_are_1_to n im →
  length (pd_unique (np_ravel im)) = n ∧ nr_regions im = n ∧
  length (instance_ids_of im) = n.
Proof.
  intros Hids.
  assert (Hu : length (pd_unique (np_ravel im)) = n).
  { apply NoDup_in_range_length; [apply NoDup_pd_unique|].
    intros v. rewrite elem_of_pd_unique. apply Hids. }
  assert (Hpos : List.filter (fun v => 0 <? v) (np_sort (pd_unique (np_ravel im)))
                 = np_sort (pd_unique (np_ravel im))).
  { apply List_filter_all. intros v Hv. unfold np_sort in Hv.
    rewrite merge_sort_Permutation, elem_of_pd_unique in Hv. apply Hids in Hv.
    apply Z.ltb_lt. lia. }
  assert (Hs : length (np_sort (pd_unique (np_ravel im))) = n).
  { unfold np_sort. rewrite (Permutation_length (merge_sort_Permutation Z.le _)). exact Hu. }
  split; [exact Hu|]. split.
  - rewrite length_regionprops, Hpos. exact Hs.
  - rewrite instance_ids_of_nonneg, Hpos; [exact Hs|].
    intros v Hv. apply Hids in Hv. lia.
Qed.

Lemma np_index_in_range n c :
  0 ≤ c < Z.of_nat n → np_index n c = Ok (Z.to_nat c).
Proof. intros Hc. unfold np_index. rewrite decide_True by exact Hc. reflexivity. Qed.

Lemma map_result_np_index_in_range n idx :
  (∀ c, c ∈ idx → 0 ≤ c < Z.of_nat n) → is_Ok (map_result (np_index n) idx).
Proof.
  induction idx as [|c idx IH]; intros Hall; [eexists; reflexivity|].
  destruct IH as [cs Hcs]; [intros c' Hc'; apply Hall; right; exact Hc'|].
  exists (Z.to_nat c :: cs). cbn [map_result].
  rewrite np_index_in_range by (apply Hall; left). rewrite Hcs. reflexivity.
Qed.

Lemma ring_ids_in_map im ksize r c : c ∈ ring_ids im ksize r → c ∈ np_ravel im.
Proof.
  unfold ring_ids. rewrite elem_of_pd_unique. apply mask_select_values.
Qed.

(** The loop over the instances runs to its end when every id has a row. *)
Lemma RAG_adjacency_loop_total im ksize n ids : ∀ a,
  square n a →
  (∀ v, v ∈ np_ravel im → 1 ≤ v ≤ Z.of_nat n) →
  (∀ r, r ∈ ids → r ∈ np_ravel im) →
  ∃ a', for_each ids (fun instance_id adjacency =>
            np_set_row_cols adjacency n (instance_id - 1)
              (map (fun i => i - 1) (ring_ids im ksize instance_id)) 1) a = Ok a' ∧
        square n a'.
Proof.
  induction ids as [|id ids IH]; intros a Hsq Hrange Hids; simpl.
  - exists a. split; [reflexivity | exact Hsq].
  - assert (is_Ok (np_set_row_cols a n (id - 1)
                     (map (fun i => i - 1) (ring_ids im ksize id)) 1)) as [a1 Hstep].
    { unfold np_set_row_cols. destruct Hsq as [Hlen _]. rewrite Hlen.
      pose proof (Hrange id (Hids id ltac:(left))) as Hid.
      rewrite np_index_in_range by lia. simpl.
      destruct (map_result_np_index_in_range n
                  (map (fun i => i - 1) (ring_ids im ksize id))) as [cs ->].
      - intros c Hc. apply list_elem_of_In, in_map_iff in Hc as (c' & <- & Hc').
        apply list_elem_of_In, ring_ids_in_map, Hrange in Hc'. lia.
      - simpl. eexists. reflexivity. }
    rewrite Hstep. simpl.
    destruct (np_set_row_cols_Ok _ _ _ _ _ Hsq Hstep) as (Hsq1 & _).
    apply IH; [exact Hsq1 | exact Hrange|]. intros r Hr. apply Hids. right. exact Hr.
Qed.

Lemma np_nonzero2_in_range n a :
  square n a → Forall (edge_in_range n) (np_nonzero2 a).
Proof.
  intros [Hlen Hrows]. apply Forall_forall. intros [i j] Hin.
  apply elem_of_np_nonzero2 in Hin as (row & v & Hrow & Hv & _).
  split; simpl.
  - rewrite <- Hlen. eapply lookup_lt_Some, Hrow.
  - rewrite Forall_forall in Hrows.
    rewrite <- (Hrows row); [eapply lookup_lt_Some, Hv|].
    apply list_elem_of_lookup. eauto.
Qed.

(** The topology step returns on a graph with one node per id. *)
Lemma RAG_build_topology_total (self : RAGGraphBuilder) im g :
  0 ≤ kernel_size self → ids_are_1_to (number_of_nodes g) im →
  ∃ es, RAG_build_topology self im g
        = Ok (mkGraph (number_of_nodes g) (ndata g) (edges g ++ es)).
Proof.
  intros Hks Hids. unfold RAG_build_topology, RAG_build_topology_locals.
  assert (∃ ksize, np_ones_kernel (kernel_size self) = Ok ksize) as [ksize ->].
  { unfold np_ones_kernel. repeat case_decide; try lia; eexists; reflexivity. }
  simpl. unfold RAG_adjacency.
  destruct (ids_are_1_to_counts _ _ Hids) as (_ & _ & Hn). rewrite Hn.
  destruct (RAG_adjacency_loop_total im ksize (number_of_nodes g) (instance_ids_of im)
              (np_zeros2 (number_of_nodes g) (number_of_nodes g)))
    as (adj & -> & Hsq).
  - apply square_zeros.
  - intros v Hv. apply Hids, Hv.
  - intros r Hr. apply elem_of_instance_ids_of in Hr as [Hr _]. exact Hr.
  - simpl. rewrite add_edges_list_in_range by (apply np_nonzero2_in_range, Hsq).
    simpl. eexists. reflexivity.
Qed.

(** X16 — when the region-adjacency builder returns.  When the ids of the
    map are exactly [1 .. N] for the number [N] of feature rows, and the
    kernel size is not negative, a build without annotation returns a graph:
    it has [N] nodes, carries the features as given and has no label
    attribute. *)
Theorem RAG_build_returns (self : RAGGraphBuilder)
    (instance_map : list (list Z)) (features : list (list Q)) :
  0 ≤ kernel_size self →
  ids_are_1_to (length features) instance_map →
  ∃ g, process self instance_map features None = Ok g ∧
       number_of_nodes g = length features ∧
       ndata g !! FEATURES = Some (FloatTensor2 features) ∧
       ndata g !! LABEL = None.
Proof.
  intros Hks Hids. destruct (ids_are_1_to_counts _ _ Hids) as (_ & Hn & _).
  rewrite (RAG_process_topology _ _ _ Hn).
  destruct (RAG_build_topology_total self instance_map
              (mkGraph (length features)
                 (<[CENTROID := FloatTensor2 (map centroid_row (regionprops instance_map))]>
                    {[ FEATURES := FloatTensor2 features ]}) []) Hks Hids) as [es ->].
  eexists. split; [reflexivity|]. simpl. split; [reflexivity|].
  split; repeat (rewrite lookup_insert_ne by discriminate).
  - apply lookup_singleton_eq.
  - apply lookup_singleton_ne. discriminate.
Qed.

Lemma RAG_build_returns_witness :
  ∃ g, process (mkRAG (Base__init__ 6 4 None (mkPipelineStep None "")) 0 1)
         [[1; 1; 2]; [3; 3; 2]] [[1]; [2]; [3]]%Q None = Ok g ∧
       number_of_nodes g = 3%nat ∧
       ndata g !! FEATURES = Some (FloatTensor2 [[1]; [2]; [3]]%Q) ∧
       ndata g !! LABEL = None.
Proof.
  apply (RAG_build_returns (mkRAG (Base__init__ 6 4 None (mkPipelineStep None "")) 0 1)
           [[1; 1; 2]; [3; 3; 2]] [[1]; [2]; [3]]%Q).
  - simpl. lia.
  - intros v. rewrite list_elem_of_In. simpl. lia.
Defined.

(** ** The region-adjacency builder: labels *)

Lemma length_fast_histogram values nr_values :
  length (fast_histogram values nr_values) = Z.to_nat nr_values.
Proof. unfold fast_histogram. rewrite length_map, length_seq. reflexivity. Qed.

Lemma np_argmax_lt l m : np_argmax l = Ok m → (m < length l)%nat.
Proof.
  intros H. apply np_argmax_spec in H as (v & Hv & _). eapply lookup_lt_Some, Hv.
Qed.

(** A computed assignment is the background class or a bin of the
    histogram. *)
Lemma label_of_histogram_range bg hist a :
  label_of_histogram bg hist = Ok a →
  (a = bg ∧ is_Ok (np_index (length hist) bg)) ∨ 0 ≤ a < Z.of_nat (length hist).
Proof.
  unfold label_of_histogram. intros H. inv_bind H.
  apply np_set_Ok in Hstep as (j & Hj & _ & ->). rewrite length_replicate in Hj.
  destruct (np_sum _ =? 0).
  - injection H as <-. left. split; [reflexivity | eexists; exact Hj].
  - inv_bind H. injection H as <-. right.
    apply np_set_Ok in Hstep as (j' & _ & _ & ->).
    apply np_argmax_lt in Hstep0. rewrite length_insert in Hstep0. lia.
Qed.

Lemma region_assignment_range (self : BaseGraphBuilder) im ann r a :
  region_assignment self im ann r = Ok a → 0 ≤ background_class self →
  0 ≤ a < nr_classes self.
Proof.
  unfold region_assignment. intros H Hbg. inv_bind H.
  apply label_of_histogram_range in H. rewrite length_fast_histogram in H.
  destruct H as [[-> [j Hj]]|H]; [|lia].
  apply np_index_Ok in Hj as Hlt. unfold np_index in Hj.
  repeat case_decide; try discriminate; lia.
Qed.

(** The pieces of a successful annotated build. *)
Lemma RAG_annotated_process_Ok (self : RAGGraphBuilder) im features ann g :
  process self im features (Some ann) = Ok g →
  ∃ labels,
    ndata g !! LABEL = Some (ByteTensor labels) ∧
    number_of_nodes g = length features ∧
    length labels = length features ∧
    length (pd_unique (np_ravel im)) = length features ∧
    nr_classes (rag_base self) < 256.
Proof.
  intros Hp. apply process_Ok in Hp as (g2 & g3 & Hc & Hl & Ht). simpl in Hc, Hl, Ht.
  apply ndata_set_Ok in Hc as [Hcs ->].
  unfold RAG_set_node_labels in Hl. inv_bind Hl. rename a0 into labels.
  apply py_assert_Ok, Z.ltb_lt in Hstep.
  apply ndata_set_Ok in Hl as [Hls ->]. simpl in Hls.
  apply RAG_build_topology_Ok in Ht as (ksize & adj & _ & _ & _ & ->). simpl.
  destruct (labels_loop_spec _ _ _ _ _ _ Hstep0) as (Hlen & _).
  unfold torch_empty in Hlen. rewrite length_replicate in Hlen.
  exists labels. split; [apply lookup_insert_eq|]. split; [reflexivity|].
  split; [exact Hls|]. split; [congruence | exact Hstep].
Qed.

(** C6 — label background rule.  In every graph returned by an annotated
    build of the region-adjacency builder, the label tensor has one cell per
    node, and for every region [r] of the map the cell of its node [r - 1]
    holds the assignment of the region (modulo 256, as a [uint8] tensor
    stores it; the assignment itself when the background class is not
    negative), where the assignment follows the rule: when the histogram of
    the annotation pixels of the region sums to zero outside the background
    bin, it is the background class; otherwise it is a bin other than the
    background bin that holds the largest count among the non-background
    bins, and the first such bin. *)
Theorem label_background_rule (self : RAGGraphBuilder)
    (instance_map : list (list Z)) (features : list (list Q))
    (annotation : list (list Z)) (g : DGLGraph) :
  process self instance_map features (Some annotation) = Ok g →
  ∃ labels,
    ndata g !! LABEL = Some (ByteTensor labels) ∧
    length labels = number_of_nodes g ∧
    ∀ region_label, region_label ∈ np_ravel instance_map →
      1 ≤ region_label ≤ Z.of_nat (number_of_nodes g) ∧
      ∃ pixels bg assignment,
        np_bool_index annotation (np_eq_scalar instance_map region_label) = Ok pixels ∧
        labels !! Z.to_nat (region_label - 1) = Some (Some (assignment mod 256)) ∧
        (0 ≤ background_class (rag_base self) → assignment mod 256 = assignment) ∧
        let histogram := fast_histogram pixels (nr_classes (rag_base self)) in
        np_index (length histogram) (background_class (rag_base self)) = Ok bg ∧
        (np_sum (delete bg histogram) = 0 →
         assignment = background_class (rag_base self)) ∧
        (np_sum (delete bg histogram) ≠ 0 →
         ∃ m c, assignment = Z.of_nat m ∧ m ≠ bg ∧ histogram !! m = Some c ∧
                ∀ j c', j ≠ bg → histogram !! j = Some c' →
                        c' ≤ c ∧ ((j < m)%nat → c' < c)).
Proof.
  intros Hp.
  destruct (RAG_annotated_build_labels _ _ _ _ _ Hp) as (labels & Hl & Hall).
  destruct (RAG_annotated_process_Ok _ _ _ _ _ Hp) as (labels' & Hl' & HN & Hlen & _ & Hnr).
  rewrite Hl in Hl'. injection Hl' as <-.
  exists labels. split; [exact Hl|]. split; [congruence|].
  intros r Hr. destruct (Hall r Hr) as (Hrange & a & Ha & Hcell).
  split; [exact Hrange|].
  destruct (region_assignment_rule _ _ _ _ _ Ha) as (pixels & bg & Hpix & Hrule).
  exists pixels, bg, a. split; [exact Hpix|]. split; [exact Hcell|]. split; [|exact Hrule].
  intros Hbg. pose proof (region_assignment_range _ _ _ _ _ Ha Hbg). apply Z.mod_small. lia.
Qed.

Lemma label_background_rule_witness :
  ∃ g labels,
    process (mkRAG (Base__init__ 6 4 None (mkPipelineStep None "")) 3 1)
      [[1; 2; 2]; [3; 3; 2]] [[]; []; []] (Some [[4; 4; 1]; [4; 2; 1]]) = Ok g ∧
    ndata g !! LABEL = Some (ByteTensor labels) ∧
    labels = [Some 4; Some 1; Some 2] ∧
    ∃ pixels bg assignment,
      np_bool_index [[4; 4; 1]; [4; 2; 1]] (np_eq_scalar [[1; 2; 2]; [3; 3; 2]] 3)
      = Ok pixels ∧
      labels !! 2%nat = Some (Some (assignment mod 256)) ∧
      np_index (length (fast_histogram pixels 6)) 4 = Ok bg ∧
      (np_sum (delete bg (fast_histogram pixels 6)) ≠ 0 →
       ∃ m c, assignment = Z.of_nat m ∧ m ≠ bg ∧ fast_histogram pixels 6 !! m = Some c ∧
              ∀ j c', j ≠ bg → fast_histogram pixels 6 !! j = Some c' →
                      c' ≤ c ∧ ((j < m)%nat → c' < c)).
Proof.
  eexists.
  destruct (label_background_rule
              (mkRAG (Base__init__ 6 4 None (mkPipelineStep None "")) 3 1)
              [[1; 2; 2]; [3; 3; 2]] [[]; []; []] [[4; 4; 1]; [4; 2; 1]]
              (mkGraph 3
                 (<[LABEL := ByteTensor [Some 4; Some 1; Some 2]]>
                    (<[CENTROID := FloatTensor2 [[0; 0]; [2; 0]; [0; 1]]%Q]>
                       {[ FEATURES := FloatTensor2 [[]; []; []] ]}))
                 [(0, 1); (0, 2); (1, 0); (1, 2); (2, 0); (2, 1)]%nat)
              eq_refl) as (labels & Hl & _ & Hcells).
  exists labels. split; [reflexivity|]. split; [exact Hl|].
  split; [pose proof (eq_trans (eq_sym Hl) (lookup_insert_eq _ _ _)); congruence|].
  destruct (Hcells 3) as (_ & pixels & bg & assignment & Hpix & Hcell & _ & Hbg & _ & Hrule).
  { apply list_elem_of_In. simpl. tauto. }
  exists pixels, bg, assignment. auto.
Defined.

(** X17 — which maps an annotated build accepts.  An annotated build of the
    region-adjacency builder returns a graph only when the ids of the map
    are exactly [1 .. N] for the number [N] of nodes: the label tensor has
    one cell per distinct id, cell [id - 1] is written for each, and DGL
    wants [N] cells.  In particular a map with a background pixel, or with a
    gap in its ids, makes the annotated build fail. *)
Theorem RAG_annotated_build_ids (self : RAGGraphBuilder)
    (instance_map : list (list Z)) (features : list (list Q))
    (annotation : list (list Z)) (g : DGLGraph) :
  process self instance_map features (Some annotation) = Ok g →
  ids_are_1_to (number_of_nodes g) instance_map.
Proof.
  intros Hp.
  destruct (RAG_annotated_build_labels _ _ _ _ _ Hp) as (labels & _ & Hall).
  destruct (RAG_annotated_process_Ok _ _ _ _ _ Hp) as (labels' & _ & HN & _ & HU & _).
  intros v. split; [intros Hv; apply Hall, Hv|]. intros Hv.
  rewrite <- elem_of_pd_unique.
  apply (NoDup_in_range_all _ (number_of_nodes g)); [apply NoDup_pd_unique | | congruence
                                                       | exact Hv].
  intros w Hw. rewrite elem_of_pd_unique in Hw. apply Hall, Hw.
Qed.

Lemma RAG_annotated_build_ids_witness :
  ∃ g, process (mkRAG (Base__init__ 6 4 None (mkPipelineStep None "")) 3 1)
         [[1; 2]; [3; 3]] [[]; []; []] (Some [[0; 1]; [4; 2]]) = Ok g ∧
       ids_are_1_to 3 [[1; 2]; [3; 3]].
Proof.
  eexists. split; [vm_compute; reflexivity|].
  exact (RAG_annotated_build_ids
           (mkRAG (Base__init__ 6 4 None (mkPipelineStep None "")) 3 1)
           [[1; 2]; [3; 3]] [[]; []; []] [[0; 1]; [4; 2]]
           (mkGraph 3
              (<[LABEL := ByteTensor [Some 0; Some 1; Some 2]]>
                 (<[CENTROID := FloatTensor2 [[0; 0]; [1; 0]; [0; 1]]%Q]>
                    {[ FEATURES := FloatTensor2 [[]; []; []] ]}))
              [(0, 1); (0, 2); (1, 0); (1, 2); (2, 0); (2, 1)]%nat)
           eq_refl).
Defined.

(** X18 — the labels of an annotated build.  In a graph returned by an
    annotated build, the label tensor has one cell per node and every cell
    has been written: the cell of node [i] holds, modulo 256 as a [uint8]
    tensor stores it, the assignment computed for region [i + 1].  When the
    background class is not negative the assignment is a class index below
    the class count and the cell holds it as it is. *)
Theorem RAG_annotated_build_label_cells (self : RAGGraphBuilder)
    (instance_map : list (list Z)) (features : list (list Q))
    (annotation : list (list Z)) (g : DGLGraph) :
  process self instance_map features (Some annotation) = Ok g →
  ∃ labels,
    ndata g !! LABEL = Some (ByteTensor labels) ∧
    length labels = number_of_nodes g ∧
    ∀ i, (i < number_of_nodes g)%nat →
      ∃ a, region_assignment (rag_base self) instance_map annotation (Z.of_nat i + 1)
           = Ok a ∧
           labels !! i = Some (Some (a mod 256)) ∧
           (0 ≤ background_class (rag_base self) →
            0 ≤ a < nr_classes (rag_base self) ∧ labels !! i = Some (Some a)).
Proof.
  intros Hp.
  destruct (RAG_annotated_build_labels _ _ _ _ _ Hp) as (labels & Hl & Hall).
  destruct (RAG_annotated_process_Ok _ _ _ _ _ Hp) as (labels' & Hl' & HN & Hlen & HU & Hnr).
  rewrite Hl in Hl'. injection Hl' as <-.
  exists labels. split; [exact Hl|]. split; [congruence|]. intros i Hi.
  assert (Hin : Z.of_nat i + 1 ∈ np_ravel instance_map).
  { rewrite <- elem_of_pd_unique.
    apply (NoDup_in_range_all _ (number_of_nodes g));
      [apply NoDup_pd_unique | | congruence | lia].
    intros w Hw. rewrite elem_of_pd_unique in Hw. apply Hall, Hw. }
  destruct (Hall _ Hin) as (_ & a & Ha & Hcell).
  replace (Z.to_nat (Z.of_nat i + 1 - 1)) with i in Hcell by lia.
  exists a. split; [exact Ha|]. split; [exact Hcell|]. intros Hbg.
  pose proof (region_assignment_range _ _ _ _ _ Ha Hbg) as Hr.
  split; [exact Hr|]. rewrite Hcell, Z.mod_small by lia. reflexivity.
Qed.

Lemma RAG_annotated_build_label_cells_witness :
  ∃ g labels,
    process (mkRAG (Base__init__ 6 4 None (mkPipelineStep None "")) 3 1)
      [[1; 2]; [3; 3]] [[]; []; []] (Some [[0; 1]; [4; 2]]) = Ok g ∧
    ndata g !! LABEL = Some (ByteTensor labels) ∧
    ∃ a, labels !! 2%nat = Some (Some a) ∧ 0 ≤ a < 6.
Proof.
  eexists.
  destruct (RAG_annotated_build_label_cells
              (mkRAG (Base__init__ 6 4 None (mkPipelineStep None "")) 3 1)
              [[1; 2]; [3; 3]] [[]; []; []] [[0; 1]; [4; 2]]
              (mkGraph 3
                 (<[LABEL := ByteTensor [Some 0; Some 1; Some 2]]>
                    (<[CENTROID := FloatTensor2 [[0; 0]; [1; 0]; [0; 1]]%Q]>
                       {[ FEATURES := FloatTensor2 [[]; []; []] ]}))
                 [(0, 1); (0, 2); (1, 0); (1, 2); (2, 0); (2, 1)]%nat)
              eq_refl) as (labels & Hl & _ & Hcells).
  exists labels. split; [reflexivity|]. split; [exact Hl|].
  destruct (Hcells 2%nat ltac:(simpl; lia)) as (a & _ & _ & Hr).
  destruct (Hr ltac:(simpl; lia)) as [Hrange Hcell].
  exists a. split; [exact Hcell | exact Hrange].
Defined.

Lemma shape_np_eq_scalar im r : shape (np_eq_scalar im r) = shape im.
Proof.
  unfold shape, np_eq_scalar. rewrite map_map. apply map_ext. intros row.
  apply length_map.
Qed.

Lemma label_of_histogram_total bg hist :
  0 ≤ bg < Z.of_nat (length hist) →
  ∃ a, label_of_histogram bg hist = Ok a ∧ 0 ≤ a < Z.of_nat (length hist).
Proof.
  intros Hbg. unfold label_of_histogram, np_set.
  rewrite length_replicate, np_index_in_range by exact Hbg. simpl.
  destruct (np_sum _ =? 0); [exists bg; split; [reflexivity | exact Hbg]|].
  destruct (np_argmax (<[Z.to_nat bg := 0]> hist)) as [m|e] eqn:Hm; simpl.
  - exists (Z.of_nat m). split; [reflexivity|].
    apply np_argmax_lt in Hm. rewrite length_insert in Hm. lia.
  - exfalso. destruct hist as [|x hist]; [simpl in Hbg; lia|].
    destruct (Z.to_nat bg); discriminate Hm.
Qed.

Lemma region_assignment_total (self : BaseGraphBuilder) im ann r :
  shape ann = shape im →
  0 ≤ background_class self < nr_classes self →
  ∃ a, region_assignment self im ann r = Ok a ∧ 0 ≤ a < nr_classes self.
Proof.
  intros Hshape Hbg. unfold region_assignment, np_bool_index.
  rewrite decide_True by (rewrite shape_np_eq_scalar; exact Hshape). simpl.
  destruct (label_of_histogram_total (background_class self)
              (fast_histogram (mask_select ann (np_eq_scalar im r)) (nr_classes self)))
    as (a & Ha & Hr).
  - rewrite length_fast_histogram. lia.
  - rewrite length_fast_histogram in Hr. exists a. split; [exact Ha | lia].
Qed.

(** The loop of [_set_node_labels] runs to its end when every id has a
    cell. *)
Lemma labels_loop_total (self : BaseGraphBuilder) im ann (U : list Z) : ∀ t0,
  shape ann = shape im →
  0 ≤ background_class self < nr_classes self → nr_classes self < 256 →
  (∀ r, r ∈ U → 1 ≤ r ≤ Z.of_nat (length t0)) →
  ∃ t, for_each U (fun region_label labels =>
           assignment ← region_assignment self im ann region_label;
           torch_set_uint8 labels (region_label - 1) assignment) t0 = Ok t ∧
       length t = length t0.
Proof.
  intros t0 Hshape Hbg Hnr. revert t0.
  induction U as [|r U IH]; intros t0 HU; simpl.
  - exists t0. split; reflexivity.
  - destruct (region_assignment_total self im ann r Hshape Hbg) as (a & -> & Ha). simpl.
    unfold torch_set_uint8, np_set.
    pose proof (HU r ltac:(left)) as Hr.
    rewrite np_index_in_range by lia. simpl.
    destruct (IH (<[Z.to_nat (r - 1) := Some (a mod 256)]> t0)) as (t & Ht & Hlen).
    + intros r' Hr'. rewrite length_insert. apply HU. right. exact Hr'.
    + exists t. split; [exact Ht|]. rewrite Hlen. apply length_insert.
Qed.

(** X19 — when an annotated build returns.  When the ids of the map are
    exactly [1 .. N] for the number [N] of feature rows, the annotation has
    the shape of the map, the class count is below 256, the background class
    is one of the classes and the kernel size is not negative, the annotated
    build returns a graph of [N] nodes. *)
Theorem RAG_annotated_build_returns (self : RAGGraphBuilder)
    (instance_map : list (list Z)) (features : list (list Q))
    (annotation : list (list Z)) :
  0 ≤ kernel_size self →
  ids_are_1_to (length features) instance_map →
  shape annotation = shape instance_map →
  nr_classes (rag_base self) < 256 →
  0 ≤ background_class (rag_base self) < nr_classes (rag_base self) →
  ∃ g, process self instance_map features (Some annotation) = Ok g ∧
       number_of_nodes g = length features.
Proof.
  intros Hks Hids Hshape Hnr Hbg.
  destruct (ids_are_1_to_counts _ _ Hids) as (HU & Hn & _).
  unfold process. rewrite set_node_features_new. simpl.
  unfold RAG_set_node_centroids, ndata_set. simpl.
  rewrite decide_True by (rewrite length_map; exact Hn). simpl.
  unfold RAG_set_node_labels. unfold py_assert.
  destruct (Z.ltb_spec (nr_classes (rag_base self)) 256) as [_|]; [|lia]. simpl.
  destruct (labels_loop_total (rag_base self) instance_map annotation
              (pd_unique (np_ravel instance_map))
              (torch_empty (length (pd_unique (np_ravel instance_map))))
              Hshape Hbg Hnr) as (labels & -> & Hlen).
  { intros r Hr. rewrite elem_of_pd_unique in Hr. apply Hids in Hr.
    unfold torch_empty. rewrite length_replicate, HU. exact Hr. }
  simpl. unfold torch_empty in Hlen. rewrite length_replicate, HU in Hlen.
  unfold ndata_set. simpl. rewrite decide_True by exact Hlen. simpl.
  match goal with
  | |- ∃ g, RAG_build_topology self instance_map ?g3 = Ok g ∧ _ =>
      destruct (RAG_build_topology_total self instance_map g3 Hks Hids) as [es ->]
  end.
  eexists. split; reflexivity.
Qed.

Lemma RAG_annotated_build_returns_witness :
  ∃ g, process (mkRAG (Base__init__ 6 4 None (mkPipelineStep None "")) 3 1)
         [[1; 2]; [3; 3]] [[]; []; []] (Some [[0; 1]; [4; 2]]) = Ok g ∧
       number_of_nodes g = 3%nat.
Proof.
  apply (RAG_annotated_build_returns
           (mkRAG (Base__init__ 6 4 None (mkPipelineStep None "")) 3 1)
           [[1; 2]; [3; 3]] [[]; []; []] [[0; 1]; [4; 2]]).
  - simpl. lia.
  - intros v. rewrite list_elem_of_In. simpl. lia.
  - reflexivity.
  - simpl. lia.
  - simpl. lia.
Defined.

(** ** The region-adjacency builder: centroids *)

Lemma elem_of_coords_of im v y x :
  (y, x) ∈ coords_of im v ↔ pixel im (Z.of_nat y) (Z.of_nat x) = Some v.
Proof.
  unfold coords_of. rewrite elem_of_concat, pixel_Some. split.
  - intros (l & Hl & Hin). apply elem_of_lookup_imap in Hl as (y' & row & -> & Hrow).
    apply list_elem_of_omap in Hin as ([x' w] & Hin & Hf). simpl in Hf.
    apply elem_of_lookup_imap in Hin as (x2 & w2 & [= -> ->] & Hw).
    destruct (Z.eqb_spec w2 v) as [->|]; [|discriminate]. injection Hf as <- <-.
    exists row. auto.
  - intros (row & Hrow & Hx). eexists. split.
    + apply (elem_of_lookup_imap_2 _ im row y). exact Hrow.
    + apply list_elem_of_omap. exists (x, v). split.
      * apply (elem_of_lookup_imap_2 pair). exact Hx.
      * simpl. rewrite Z.eqb_refl. reflexivity.
Qed.

(** A mean lies between two of the values it is taken of. *)
Lemma mean_between (l : list nat) :
  l ≠ [] →
  ∃ a b, a ∈ l ∧ b ∈ l ∧
         (inject_Z (Z.of_nat a) <= mean l)%Q ∧ (mean l <= inject_Z (Z.of_nat b))%Q.
Proof.
  intros Hne.
  assert (∃ a b, a ∈ l ∧ b ∈ l ∧
                 (a * length l ≤ foldr Nat.add 0 l)%nat ∧
                 (foldr Nat.add 0 l ≤ b * length l)%nat) as (a & b & Ha & Hb & Hlo & Hhi).
  { induction l as [|x l IH]; [contradiction|].
    destruct l as [|x' l].
    - exists x, x. simpl. repeat split; try left; lia.
    - destruct IH as (a & b & Ha & Hb & Hlo & Hhi); [discriminate|].
      set (l' := x' :: l) in *.
      change (foldr Nat.add 0%nat (x :: l')) with (x + foldr Nat.add 0%nat l')%nat.
      change (length (x :: l')) with (S (length l')).
      exists (if decide (x ≤ a)%nat then x else a), (if decide (b ≤ x)%nat then x else b).
      split; [|split; [|split]].
      + destruct (decide (x ≤ a)%nat); [left | right; exact Ha].
      + destruct (decide (b ≤ x)%nat); [left | right; exact Hb].
      + destruct (decide (x ≤ a)%nat); nia.
      + destruct (decide (b ≤ x)%nat); nia. }
  exists a, b. split; [exact Ha|]. split; [exact Hb|].
  assert (Hlen : Z.pos (Pos.of_nat (length l)) = Z.of_nat (length l)).
  { rewrite <- positive_nat_Z, Nat2Pos.id; [reflexivity|]. destruct l; [contradiction | discriminate]. }
  unfold mean, Qle. simpl. rewrite Hlen. split; nia.
Qed.

(** Rounding stays between the integers that bound its argument. *)
Lemma py_round_between (q : Q) (a b : Z) :
  (inject_Z a <= q)%Q → (q <= inject_Z b)%Q → a ≤ py_round q ≤ b.
Proof.
  intros Ha Hb.
  pose proof (Qfloor_resp_le _ _ Ha) as Hfa. rewrite Qfloor_Z in Hfa.
  pose proof (Qfloor_resp_le _ _ Hb) as Hfb. rewrite Qfloor_Z in Hfb.
  pose proof (Qfloor_le q) as Hfq.
  assert (Hup : (inject_Z (Qfloor q) < q)%Q → Qfloor q + 1 ≤ b).
  { intros Hlt. assert (inject_Z (Qfloor q) < inject_Z b)%Q as Hlt'
      by (eapply Qlt_le_trans; eassumption).
    rewrite <- Zlt_Qlt in Hlt'. lia. }
  unfold py_round.
  destruct (Qcompare (q - inject_Z (Qfloor q)) (1 # 2)) eqn:Hc.
  - apply Qeq_alt in Hc.
    assert (inject_Z (Qfloor q) < q)%Q as Hlt.
    { apply Qlt_minus_iff. rewrite Hc. reflexivity. }
    destruct (Z.even (Qfloor q)); [lia|]. specialize (Hup Hlt). lia.
  - lia.
  - apply Qgt_alt in Hc.
    assert (inject_Z (Qfloor q) < q)%Q as Hlt.
    { apply Qlt_minus_iff. eapply Qlt_trans; [|exact Hc]. reflexivity. }
    specialize (Hup Hlt). lia.
Qed.

Lemma Qfloor_mean_bounds (l : list nat) :
  l ≠ [] →
  let n := Z.of_nat (length l) in
  let s := Z.of_nat (foldr Nat.add 0%nat l) in
  Qfloor (mean l) * n ≤ s < (Qfloor (mean l) + 1) * n.
Proof.
  intros Hne n s.
  assert (Hlen : Z.pos (Pos.of_nat (length l)) = n).
  { unfold n. rewrite <- positive_nat_Z, Nat2Pos.id; [reflexivity|].
    destruct l; [contradiction | discriminate]. }
  assert (0 < n) by lia.
  unfold mean, Qfloor. fold s. rewrite Hlen.
  pose proof (Z.mul_div_le s n ltac:(lia)).
  pose proof (Z.mul_succ_div_gt s n ltac:(lia)). lia.
Qed.

(** [round] of a mean is the nearest integer, the even one of a tie. *)
Lemma py_round_mean_nearest (l : list nat) :
  l ≠ [] → nearest_integer_to_mean l (py_round (mean l)).
Proof.
  intros Hne. pose proof (Qfloor_mean_bounds l Hne) as Hf. cbv zeta in Hf.
  assert (Hlen : Z.pos (Pos.of_nat (length l)) = Z.of_nat (length l)).
  { rewrite <- positive_nat_Z, Nat2Pos.id; [reflexivity|].
    destruct l; [contradiction | discriminate]. }
  unfold nearest_integer_to_mean, py_round.
  set (f := Qfloor (mean l)) in *.
  set (n := Z.of_nat (length l)) in *.
  set (s := Z.of_nat (foldr Nat.add 0%nat l)) in *.
  assert (Hcmp : (mean l - inject_Z f ?= 1 # 2)%Q = (2 * (s - f * n) ?= n)).
  { unfold Qcompare, mean. simpl. fold s. rewrite Hlen. fold n.
    f_equal; lia. }
  rewrite Hcmp. clear Hcmp.
  assert (0 < n) by (unfold n; destruct l; [contradiction | simpl; lia]).
  assert (Hf1 : f * n ≤ s) by lia. assert (Hf2 : s < f * n + n) by lia.
  clear Hf Hlen. clearbody f n s.
  destruct (Z.compare_spec (2 * (s - f * n)) n) as [Hc|Hc|Hc].
  - destruct (Z.even f) eqn:He.
    + split; [lia|]. intros _. exact He.
    + split; [lia|]. intros _. rewrite Z.even_add, He. reflexivity.
  - split; lia.
  - split; lia.
Qed.

(** The nearest integer with ties to even is one integer: the predicate
    determines the coordinate. *)
Lemma nearest_integer_to_mean_unique (l : list nat) (c c' : Z) :
  l ≠ [] → nearest_integer_to_mean l c → nearest_integer_to_mean l c' → c = c'.
Proof.
  intros Hne [Hc Hce] [Hc' Hce'].
  set (n := Z.of_nat (length l)) in *.
  set (s := Z.of_nat (foldr Nat.add 0%nat l)) in *.
  assert (0 < n) by (unfold n; destruct l; [contradiction | simpl; lia]).
  clearbody n s.
  destruct (Z.lt_trichotomy c c') as [Hlt|[Heq|Hgt]]; [|exact Heq|]; exfalso.
  - assert (c' = c + 1) by nia. subst c'.
    assert (Z.abs (2 * (c * n - s)) = n) as H1 by nia.
    assert (Z.abs (2 * ((c + 1) * n - s)) = n) as H2 by nia.
    specialize (Hce H1). specialize (Hce' H2).
    rewrite Z.even_add, Hce in Hce'. discriminate.
  - assert (c = c' + 1) by nia. subst c.
    assert (Z.abs (2 * (c' * n - s)) = n) as H1 by nia.
    assert (Z.abs (2 * ((c' + 1) * n - s)) = n) as H2 by nia.
    specialize (Hce H2). specialize (Hce' H1).
    rewrite Z.even_add, Hce' in Hce. discriminate.
Qed.

(** X20 — the centroids of the region-adjacency builder.  On a map of
    fewer than [2^24] pixels (every coordinate is then an integer that the
    [float32] centroid tensor holds as it is), in a returned graph the
    centroid tensor has one row per node, and the row of the [i]-th region
    found in the map (the [i]-th positive id in ascending order, [v]) is
    [[cx; cy]] where [cx] is the integer nearest to the mean column of the
    pixels of region [v] and [cy] the integer nearest to their mean row, the
    even one of a tie; this point lies within the bounding box of the
    region. *)
Theorem RAG_centroids_in_bounding_box (self : RAGGraphBuilder)
    (instance_map : list (list Z)) (features : list (list Q))
    (annotation : option (list (list Z))) (g : DGLGraph) :
  Z.of_nat (length (np_ravel instance_map)) < 2 ^ 24 →
  process self instance_map features annotation = Ok g →
  ∃ centroids,
    ndata g !! CENTROID = Some (FloatTensor2 centroids) ∧
    length centroids = number_of_nodes g ∧
    ∀ i v, map fst (regionprops instance_map) !! i = Some v →
      0 < v ∧
      ∃ cx cy, centroids !! i = Some [inject_Z cx; inject_Z cy] ∧
               nearest_integer_to_mean (map snd (coords_of instance_map v)) cx ∧
               nearest_integer_to_mean (map fst (coords_of instance_map v)) cy ∧
               in_bounding_box instance_map v cx cy.
Proof.
  intros _ Hp.
  destruct (RAG_process_Ok _ _ _ _ _ Hp) as (ksize & adj & _ & _ & Hn & HN & _ & _ & Hc).
  exists (map centroid_row (regionprops instance_map)). split; [exact Hc|].
  split; [rewrite length_map; unfold nr_regions in Hn; congruence|].
  intros i v Hi. change (map ?f ?l) with (f <$> l) in Hi.
  apply list_lookup_fmap_Some in Hi as ([v' [my mx]] & -> & Hreg). simpl.
  pose proof Hreg as Hreg'. unfold regionprops in Hreg'.
  change (map ?f ?l) with (f <$> l) in Hreg'.
  apply list_lookup_fmap_Some in Hreg' as (v2 & [= <- -> ->] & Hv).
  assert (Hvin : v' ∈ List.filter (fun v => 0 <? v)
                        (np_sort (pd_unique (np_ravel instance_map)))).
  { apply list_elem_of_lookup. eauto. }
  apply elem_of_List_filter in Hvin as [Hvin Hpos]. unfold np_sort in Hvin.
  rewrite merge_sort_Permutation, elem_of_pd_unique in Hvin.
  split; [lia|].
  set (cs := coords_of instance_map v') in *.
  assert (Hne : cs ≠ []).
  { unfold np_ravel in Hvin. apply elem_of_concat in Hvin as (row & Hrow & Hx).
    apply list_elem_of_lookup in Hrow as (y & Hrow).
    apply list_elem_of_lookup in Hx as (x & Hx).
    assert ((y, x) ∈ cs) as Hin.
    { apply elem_of_coords_of, pixel_Some. exists row. auto. }
    intros Hnil. rewrite Hnil in Hin. inversion Hin. }
  assert (Hnex : map snd cs ≠ []) by (destruct cs; [contradiction | discriminate]).
  assert (Hney : map fst cs ≠ []) by (destruct cs; [contradiction | discriminate]).
  destruct (mean_between (map snd cs) Hnex) as (x1 & x2 & Hx1 & Hx2 & Hlox & Hhix).
  destruct (mean_between (map fst cs) Hney) as (y1 & y2 & Hy1 & Hy2 & Hloy & Hhiy).
  exists (py_round (mean (map snd cs))), (py_round (mean (map fst cs))).
  split; [|split; [|split]].
  - change (map ?f ?l) with (f <$> l). rewrite list_lookup_fmap, Hreg. reflexivity.
  - apply py_round_mean_nearest, Hnex.
  - apply py_round_mean_nearest, Hney.
  - pose proof (py_round_between _ _ _ Hlox Hhix) as Hx.
    pose proof (py_round_between _ _ _ Hloy Hhiy) as Hy.
    apply list_elem_of_In, in_map_iff in Hx1 as ([ya xa] & <- & Hina).
    apply list_elem_of_In, in_map_iff in Hx2 as ([yb xb] & <- & Hinb).
    apply list_elem_of_In, in_map_iff in Hy1 as ([yc xc] & <- & Hinc).
    apply list_elem_of_In, in_map_iff in Hy2 as ([yd xd] & <- & Hind).
    apply list_elem_of_In, elem_of_coords_of in Hina, Hinb, Hinc, Hind.
    simpl in *. repeat split.
    + exists ya, xa. split; [exact Hina | lia].
    + exists yb, xb. split; [exact Hinb | lia].
    + exists yc, xc. split; [exact Hinc | lia].
    + exists yd, xd. split; [exact Hind | lia].
Qed.

Lemma RAG_centroids_in_bounding_box_witness :
  ∃ g centroids,
    process (mkRAG (Base__init__ 6 4 None (mkPipelineStep None "")) 3 1)
      [[1; 2; 2]; [3; 3; 2]] [[]; []; []] None = Ok g ∧
    ndata g !! CENTROID = Some (FloatTensor2 centroids) ∧
    ∃ cx cy, centroids !! 1%nat = Some [inject_Z cx; inject_Z cy] ∧
             nearest_integer_to_mean [1; 2; 2]%nat cx ∧
             nearest_integer_to_mean [0; 0; 1]%nat cy ∧
             in_bounding_box [[1; 2; 2]; [3; 3; 2]] 2 cx cy.
Proof.
  eexists.
  destruct (RAG_centroids_in_bounding_box
              (mkRAG (Base__init__ 6 4 None (mkPipelineStep None "")) 3 1)
              [[1; 2; 2]; [3; 3; 2]] [[]; []; []] None
              (mkGraph 3
                 (<[CENTROID := FloatTensor2 [[0; 0]; [2; 0]; [0; 1]]%Q]>
                    {[ FEATURES := FloatTensor2 [[]; []; []] ]})
                 [(0, 1); (0, 2); (1, 0); (1, 2); (2, 0); (2, 1)]%nat)
              ltac:(vm_compute; reflexivity)
              eq_refl) as (centroids & Hc & _ & Hrows).
  exists centroids. split; [reflexivity|]. split; [exact Hc|].
  destruct (Hrows 1%nat 2 eq_refl) as (_ & cx & cy & Hrow & Hx & Hy & Hbox).
  exists cx, cy. split; [exact Hrow|]. split; [exact Hx|]. split; [exact Hy | exact Hbox].
Defined.

(** ** [ConfigGenerator._get_number_classes] *)

Lemma pop_loop_lookup (bl : list string) : ∀ (labels : gmap string Z) key,
  foldl (fun labels i => delete (default "" (bl !! i)) labels) labels
        (seq 0 (length bl)) !! key
  = if decide (key ∈ bl) then None else labels !! key.
Proof.
  assert (Hgen : ∀ (ks : list nat) (labels : gmap string Z) key,
             foldl (fun labels i => delete (default "" (bl !! i)) labels) labels ks !! key
             = if decide (key ∈ map (fun i => default "" (bl !! i)) ks) then None
               else labels !! key).
  { induction ks as [|i ks IH]; intros labels key.
    - simpl. destruct (decide (key ∈ [])) as [H|]; [inversion H | reflexivity].
    - change (foldl ?f labels (i :: ks)) with (foldl f (f labels i) ks). rewrite IH.
      change (map ?f (i :: ks)) with (f i :: map f ks). cbv beta.
      destruct (decide (key ∈ map (fun i => default "" (bl !! i)) ks)) as [Hin|Hnin];
        destruct (decide (key ∈ default "" (bl !! i)
                                :: map (fun i => default "" (bl !! i)) ks))
          as [Hin'|Hnin'].
      + reflexivity.
      + exfalso. apply Hnin'. right. exact Hin.
      + apply elem_of_cons in Hin' as [->|?]; [apply lookup_delete_eq | contradiction].
      + apply lookup_delete_ne. intros Heq. apply Hnin'. rewrite <- Heq. left. }
  intros labels key. rewrite Hgen.
  assert (map (fun i => default "" (bl !! i)) (seq 0 (length bl)) = bl) as ->;
    [|reflexivity].
  apply list_eq. intros i. change (map ?f ?l) with (f <$> l).
  rewrite list_lookup_fmap. destruct (bl !! i) as [s|] eqn:Hi.
  - rewrite lookup_seq_lt by (eapply lookup_lt_Some, Hi). simpl. rewrite Hi. reflexivity.
  - rewrite lookup_seq_ge; [reflexivity|]. apply lookup_ge_None. exact Hi.
Qed.

Lemma elem_of_np_unique l v : v ∈ np_unique l ↔ v ∈ l.
Proof.
  unfold np_unique, np_sort. rewrite merge_sort_Permutation. apply elem_of_pd_unique.
Qed.

Lemma NoDup_np_unique l : NoDup (np_unique l).
Proof.
  unfold np_unique, np_sort. rewrite merge_sort_Permutation. apply NoDup_pd_unique.
Qed.

Lemma elem_of_map_values (m : gmap string Z) v :
  v ∈ map snd (map_to_list m) ↔ ∃ key, m !! key = Some v.
Proof.
  rewrite list_elem_of_In, in_map_iff. split.
  - intros ([key v'] & <- & Hin). exists key.
    apply list_elem_of_In, elem_of_map_to_list in Hin. exact Hin.
  - intros (key & Hk). exists (key, v). split; [reflexivity|].
    apply list_elem_of_In, elem_of_map_to_list. exact Hk.
Qed.

(** X21 — counting the classes.  [_get_number_classes] never fails on a
    blacklisted type that is not in the dictionary; it returns the number
    of distinct classes of the types that are not blacklisted, and it
    leaves the caller's dictionary without the blacklisted types and
    otherwise unchanged. *)
Theorem get_number_classes_counts (blacklist : list string) (labels : gmap string Z) :
  ∃ classes,
    (_get_number_classes blacklist labels).1 = [length classes] ∧
    NoDup classes ∧
    (∀ v, v ∈ classes ↔ ∃ key, (key ∉ blacklist) ∧ labels !! key = Some v) ∧
    ∀ key, (_get_number_classes blacklist labels).2 !! key
           = (if decide (key ∈ blacklist) then None else labels !! key).
Proof.
  unfold _get_number_classes. simpl.
  eexists. split; [reflexivity|]. split; [apply NoDup_np_unique|].
  split; [|apply pop_loop_lookup].
  intros v. rewrite elem_of_np_unique, elem_of_map_values. split.
  - intros (key & Hk). rewrite pop_loop_lookup in Hk.
    destruct (decide (key ∈ blacklist)); [discriminate|]. exists key. auto.
  - intros (key & Hnin & Hk). exists key. rewrite pop_loop_lookup.
    rewrite decide_False by exact Hnin. exact Hk.
Qed.

(** X22 — a longer blacklist never gives more classes. *)
Theorem get_number_classes_monotone (blacklist more : list string)
    (labels : gmap string Z) (n n' : nat) :
  (_get_number_classes blacklist labels).1 = [n] →
  (_get_number_classes (blacklist ++ more)%list labels).1 = [n'] →
  (n' ≤ n)%nat.
Proof.
  unfold _get_number_classes. simpl. intros [= <-] [= <-].
  apply submseteq_length, NoDup_submseteq; [apply NoDup_np_unique|].
  intros v. rewrite !elem_of_np_unique, !elem_of_map_values.
  intros (key & Hk). exists key. rewrite pop_loop_lookup in *.
  destruct (decide (key ∈ (blacklist ++ more)%list)) as [|Hnin]; [discriminate|].
  rewrite decide_False; [exact Hk|]. intros Hin. apply Hnin, elem_of_app. left. exact Hin.
Qed.

Lemma get_number_classes_monotone_witness :
  ∃ n n',
    (_get_number_classes ["adh"]
       (<["benign" := 0]> (<["adh" := 1]> (<["fea" := 1]> (<["dcis" := 2]> ∅))))).1 = [n] ∧
    (_get_number_classes (["adh"] ++ ["dcis"; "udh"])%list
       (<["benign" := 0]> (<["adh" := 1]> (<["fea" := 1]> (<["dcis" := 2]> ∅))))).1 = [n'] ∧
    (n' ≤ n)%nat.
Proof.
  exists 3%nat, 2%nat. split; [vm_compute; reflexivity|]. split; [vm_compute; reflexivity|].
  apply (get_number_classes_monotone ["adh"] ["dcis"; "udh"]
           (<["benign" := 0]> (<["adh" := 1]> (<["fea" := 1]> (<["dcis" := 2]> ∅)))));
    vm_compute; reflexivity.
Defined.

(** ** The region-adjacency builder of [experiments/histo-seg] *)

(** X23 — the earlier builder keeps the background as a region.  In
    [experiments/histo-seg] the id 0 is not removed from the instance ids:
    on a map without negative ids, the edges that [_build_topology] adds to
    a graph without edges join the nodes of the distinct regions that touch,
    the region of id [r > 0] being node [r - 1] and the region of id 0 the
    last node. *)
Theorem hseg_RAG_edges (kernel_size : Z) (instances : list (list Z))
    (graph g : DGLGraph) :
  (∀ v, v ∈ np_ravel instances → 0 ≤ v) →
  edges graph = [] →
  hseg_RAG_build_topology kernel_size instances graph = Ok g →
  ∃ ksize, np_ones_kernel kernel_size = Ok ksize ∧
    ∀ i j, (i, j) ∈ edges g ↔
           ∃ r c, r ≠ c ∧ touches instances ksize r c ∧
                  node_of_id (length (pd_unique (np_ravel instances))) r = i ∧
                  node_of_id (length (pd_unique (np_ravel instances))) c = j.
Proof.
  intros Hnonneg Hempty H. unfold hseg_RAG_build_topology in H. inv_bind H.
  rename a into ksize. rename a0 into adj.
  apply add_edges_list_Ok in H as [_ ->]. simpl. rewrite Hempty. simpl.
  exists ksize. split; [exact Hstep|].
  pose proof (np_ones_kernel_pos _ _ Hstep) as Hk.
  unfold hseg_RAG_adjacency in Hstep0.
  assert (Hn : length (np_sort (pd_unique (np_ravel instances)))
               = length (pd_unique (np_ravel instances))).
  { unfold np_sort. apply Permutation_length, merge_sort_Permutation. }
  rewrite Hn in Hstep0.
  set (n := length (pd_unique (np_ravel instances))) in *.
  assert (Hids : ∀ r, r ∈ np_sort (pd_unique (np_ravel instances)) ↔ r ∈ np_ravel instances).
  { intros r. unfold np_sort. rewrite merge_sort_Permutation. apply elem_of_pd_unique. }
  assert (Hnode : ∀ r x, 0 ≤ r → np_index n (r - 1) = Ok x → x = node_of_id n r).
  { intros r x Hr Hx. unfold node_of_id. unfold np_index in Hx.
    repeat case_decide; try discriminate; injection Hx as <-; lia. }
  destruct (RAG_adjacency_loop instances ksize n _ _ _ (square_zeros n) Hstep0)
    as (Hsq & _ & Hwritten).
  intros i j. split.
  - intros Hin. apply elem_of_np_nonzero2 in Hin as (row & v & Hrow & Hv & Hv0).
    assert (Hentry : matrix_entry adj i j ≠ 0).
    { rewrite (matrix_entry_Some _ _ _ _ _ Hrow Hv). exact Hv0. }
    destruct (RAG_adjacency_loop_written instances ksize n _ _ _ (square_zeros n)
                Hstep0 i j Hentry) as [Hzero|(r & c & Hr & Hc & Hri & Hci)].
    { rewrite matrix_entry_zeros in Hzero. contradiction. }
    apply elem_of_ring_ids in Hc as [Hne Ht]; [|exact Hk].
    destruct (touches_in_map _ _ _ _ Ht) as [Hr1 Hc1].
    exists r, c. split; [congruence|]. split; [exact Ht|].
    split; symmetry; apply Hnode; auto.
  - intros (r & c & Hne & Ht & <- & <-).
    destruct (touches_in_map _ _ _ _ Ht) as [Hr1 Hc1].
    destruct (Hwritten r c) as (ri & ci & Hri & Hci & He).
    { apply Hids, Hr1. }
    { apply elem_of_ring_ids; [exact Hk|]. split; [congruence | exact Ht]. }
    rewrite <- (Hnode r ri (Hnonneg r Hr1) Hri), <- (Hnode c ci (Hnonneg c Hc1) Hci).
    apply elem_of_np_nonzero2. unfold matrix_entry in He.
    destruct (adj !! ri) as [row|]; simpl in He; [|discriminate].
    destruct (row !! ci) as [v|] eqn:Hv; simpl in He; [|discriminate].
    exists row, v. split; [reflexivity|]. split; [exact Hv | lia].
Qed.

Lemma hseg_RAG_edges_witness :
  ∃ g, hseg_RAG_build_topology 3 [[1; 0]] (mkGraph 2 ∅ []) = Ok g ∧
       (0, 1)%nat ∈ edges g ∧ (1, 0)%nat ∈ edges g.
Proof.
  eexists. split; [vm_compute; reflexivity|].
  destruct (hseg_RAG_edges 3 [[1; 0]] (mkGraph 2 ∅ []) (mkGraph 2 ∅ [(0, 1); (1, 0)]%nat))
    as (ksize & Hk & Hedges).
  - intros v Hv. apply list_elem_of_In in Hv. simpl in Hv. lia.
  - reflexivity.
  - vm_compute. reflexivity.
  - injection Hk as <-. split; [apply list_elem_of_In; simpl; tauto|].
    apply Hedges. exists 0, 1. split; [discriminate|]. split; [|split; reflexivity].
    exists 0%nat, 0%nat, 0, 1. unfold kernel_offsets. simpl.
    repeat split; try reflexivity; apply list_elem_of_In; simpl; tauto.
Defined.

(** ** The region-adjacency builder on maps with background *)

Lemma np_index_node_of_id n r x :
  0 ≤ r → np_index n (r - 1) = Ok x → x = node_of_id n r.
Proof.
  intros Hr Hx. unfold node_of_id. unfold np_index in Hx.
  repeat case_decide; try discriminate; injection Hx as <-; lia.
Qed.

(** On a map without negative ids, the non-zero entries of the adjacency
    matrix: one for every region [r >= 1] and every id [c] under its ring, in
    row [r - 1] and in the column on which [c] lands. *)
Lemma RAG_adjacency_entries_nonneg im ksize adj i j :
  (0 < ksize)%nat →
  (∀ v, v ∈ np_ravel im → 0 ≤ v) →
  RAG_adjacency im ksize = Ok adj →
  ((i, j) ∈ np_nonzero2 adj ↔
   ∃ r c, 1 ≤ r ∧ r ≠ c ∧ touches im ksize r c ∧
          i = Z.to_nat (r - 1) ∧ j = node_of_id (length (instance_ids_of im)) c).
Proof.
  intros Hk0 Hnonneg Hadj. unfold RAG_adjacency in Hadj.
  set (n := length (instance_ids_of im)) in *.
  destruct (RAG_adjacency_loop im ksize n _ _ _ (square_zeros n) Hadj)
    as (Hsq & _ & Hwritten).
  split.
  - intros Hin. apply elem_of_np_nonzero2 in Hin as (row & v & Hrow & Hv & Hv0).
    assert (Hentry : matrix_entry adj i j ≠ 0).
    { rewrite (matrix_entry_Some _ _ _ _ _ Hrow Hv). exact Hv0. }
    destruct (RAG_adjacency_loop_written im ksize n _ _ _ (square_zeros n)
                Hadj i j Hentry) as [Hzero|(r & c & Hr & Hc & Hri & Hci)].
    { rewrite matrix_entry_zeros in Hzero. contradiction. }
    apply elem_of_ring_ids in Hc as [Hne Ht]; [|exact Hk0].
    destruct (touches_in_map _ _ _ _ Ht) as [Hr1 Hc1].
    apply elem_of_instance_ids_of in Hr as [_ Hr0].
    pose proof (Hnonneg r Hr1) as Hr2.
    exists r, c. split; [lia|]. split; [congruence|]. split; [exact Ht|]. split.
    + rewrite (np_index_node_of_id _ _ _ Hr2 Hri). unfold node_of_id.
      rewrite decide_False by exact Hr0. reflexivity.
    + apply np_index_node_of_id; auto.
  - intros (r & c & Hr & Hne & Ht & -> & ->).
    destruct (touches_in_map _ _ _ _ Ht) as [Hr1 Hc1].
    destruct (Hwritten r c) as (ri & ci & Hri & Hci & Hentry).
    { apply elem_of_instance_ids_of. split; [exact Hr1 | lia]. }
    { apply elem_of_ring_ids; [exact Hk0|]. split; [congruence | exact Ht]. }
    assert (0 ≤ r) as Hr2 by lia.
    rewrite (np_index_node_of_id _ _ _ Hr2 Hri) in Hentry.
    rewrite (np_index_node_of_id _ _ _ (Hnonneg c Hc1) Hci) in Hentry.
    unfold node_of_id at 1 in Hentry. rewrite decide_False in Hentry by lia.
    apply elem_of_np_nonzero2. unfold matrix_entry in Hentry.
    destruct (adj !! Z.to_nat (r - 1)) as [row|]; simpl in Hentry; [|discriminate].
    destruct (row !! node_of_id n c) as [v|] eqn:Hv; simpl in Hentry; [|discriminate].
    exists row, v. split; [reflexivity|]. split; [exact Hv | lia].
Qed.

(** The edges of a graph built from a map without negative ids. *)
Lemma RAG_process_edges_nonneg (self : RAGGraphBuilder) im features ann g :
  (∀ v, v ∈ np_ravel im → 0 ≤ v) →
  process self im features ann = Ok g →
  ∃ ksize, np_ones_kernel (kernel_size self) = Ok ksize ∧
           number_of_nodes g = length features ∧
    ∀ i j, (i, j) ∈ edges g ↔
           ∃ r c, 1 ≤ r ∧ r ≠ c ∧ touches im ksize r c ∧
                  i = Z.to_nat (r - 1) ∧ j = node_of_id (length features) c.
Proof.
  intros Hnonneg Hp.
  destruct (RAG_process_Ok _ _ _ _ _ Hp) as (ksize & adj & Hk & Hadj & Hn & HN & He & _).
  exists ksize. split; [exact Hk|]. split; [exact HN|].
  assert (Hlen : length (instance_ids_of im) = length features).
  { rewrite (instance_ids_of_nonneg _ Hnonneg), <- length_regionprops. exact Hn. }
  intros i j. rewrite He, <- Hlen.
  apply RAG_adjacency_entries_nonneg;
    [eapply np_ones_kernel_pos, Hk | exact Hnonneg | exact Hadj].
Qed.

(** X24 — the edges on a map with background.  On a map without negative
    ids, a returned graph has exactly the edges from the node [r - 1] of a
    region [r >= 1] to the node on which an id [c] under its ring lands:
    node [c - 1] for another region, and the last node for the background
    id 0. *)
Theorem RAG_edges_with_background (self : RAGGraphBuilder)
    (instance_map : list (list Z)) (features : list (list Q))
    (annotation : option (list (list Z))) (g : DGLGraph) :
  (∀ v, v ∈ np_ravel instance_map → 0 ≤ v) →
  process self instance_map features annotation = Ok g →
  ∃ ksize, np_ones_kernel (kernel_size self) = Ok ksize ∧
    ∀ i j, (i, j) ∈ edges g ↔
           ∃ r c, 1 ≤ r ∧ r ≠ c ∧ touches instance_map ksize r c ∧
                  i = Z.to_nat (r - 1) ∧ j = node_of_id (number_of_nodes g) c.
Proof.
  intros Hnonneg Hp.
  destruct (RAG_process_edges_nonneg _ _ _ _ _ Hnonneg Hp) as (ksize & Hk & HN & Hedges).
  exists ksize. split; [exact Hk|]. intros i j. rewrite HN. apply Hedges.
Qed.

Lemma RAG_edges_with_background_witness :
  ∃ g, process (mkRAG (Base__init__ 6 4 None (mkPipelineStep None "")) 3 1)
         [[1; 0; 2]] [[]; []] None = Ok g ∧
       (0, 1)%nat ∈ edges g.
Proof.
  eexists. split; [vm_compute; reflexivity|].
  destruct (RAG_edges_with_background
              (mkRAG (Base__init__ 6 4 None (mkPipelineStep None "")) 3 1)
              [[1; 0; 2]] [[]; []] None
              (mkGraph 2
                 (<[CENTROID := FloatTensor2 [[0; 0]; [2; 0]]%Q]>
                    {[ FEATURES := FloatTensor2 [[]; []] ]})
                 [(0, 1); (1, 1)]%nat))
    as (ksize & Hk & Hedges).
  - intros v Hv. apply list_elem_of_In in Hv. simpl in Hv. lia.
  - vm_compute. reflexivity.
  - injection Hk as <-. apply Hedges. exists 1, 0.
    split; [lia|]. split; [discriminate|]. split; [|split; reflexivity].
    exists 0%nat, 1%nat, 0, (-1). unfold kernel_offsets. simpl.
    repeat split; try reflexivity; apply list_elem_of_In; simpl; tauto.
Defined.

(** ** No parallel edges *)

Lemma NoDup_omap_fst {A B} (g : A → option B) (key : A → nat) (l : list A) :
  NoDup (map key l) →
  (∀ x y z, g x = Some z → g y = Some z → key x = key y) →
  NoDup (omap g l).
Proof.
  intros Hnd Hinj. induction l as [|x l IH]; simpl; [constructor|].
  change (list_omap A B g l) with (omap g l).
  simpl in Hnd. apply NoDup_cons in Hnd as [Hx Hnd].
  destruct (g x) as [z|] eqn:Hgx; [|apply IH, Hnd].
  apply NoDup_cons. split; [|apply IH, Hnd].
  intros Hin. apply list_elem_of_omap in Hin as (y & Hy & Hgy).
  apply Hx. rewrite (Hinj x y z Hgx Hgy).
  apply list_elem_of_In, in_map, list_elem_of_In, Hy.
Qed.

Lemma NoDup_concat_tagged_gen {A} (l : list A) :
  ∀ (f : nat → A → list (nat * nat)) (t : nat → nat),
    (∀ i j, t i = t j → i = j) →
    (∀ i x e, e ∈ f i x → e.1 = t i) → (∀ i x, x ∈ l → NoDup (f i x)) →
    NoDup (concat (imap f l)).
Proof.
  induction l as [|x l IH]; intros f t Hinj Htag Hnd; simpl; [constructor|].
  apply NoDup_app. split; [apply Hnd; left|]. split.
  - intros e He Hin. apply elem_of_concat in Hin as (r & Hr & Her).
    apply elem_of_lookup_imap in Hr as (i & y & -> & _).
    apply Htag in He, Her. rewrite He in Her. apply Hinj in Her. discriminate.
  - apply (IH (f ∘ S) (t ∘ S)).
    + intros i j Hij. apply Hinj in Hij. congruence.
    + intros i y e He. apply (Htag (S i) y e He).
    + intros i y Hy. apply Hnd. right. exact Hy.
Qed.

Lemma NoDup_concat_tagged {A} (f : nat → A → list (nat * nat)) (l : list A) :
  (∀ i x e, e ∈ f i x → e.1 = i) → (∀ i x, x ∈ l → NoDup (f i x)) →
  NoDup (concat (imap f l)).
Proof. apply (NoDup_concat_tagged_gen l f id). auto. Qed.

Lemma map_fst_imap_pair {A} (l : list A) : map fst (imap pair l) = seq 0 (length l).
Proof.
  apply list_eq. intros i. change (map ?f ?l) with (f <$> l).
  rewrite list_lookup_fmap, list_lookup_imap.
  destruct (l !! i) as [x|] eqn:Hi; simpl.
  - rewrite lookup_seq_lt by (eapply lookup_lt_Some, Hi). reflexivity.
  - rewrite lookup_seq_ge; [reflexivity|]. apply lookup_ge_None, Hi.
Qed.

Lemma NoDup_np_nonzero2 a : NoDup (np_nonzero2 a).
Proof.
  unfold np_nonzero2. apply NoDup_concat_tagged.
  - intros i row e He. unfold nonzero_row in He.
    apply list_elem_of_omap in He as ([j v] & _ & Hf). simpl in Hf.
    destruct (v =? 0); [discriminate|]. injection Hf as <-. reflexivity.
  - intros i row _. unfold nonzero_row. apply (NoDup_omap_fst _ fst).
    + rewrite map_fst_imap_pair. apply NoDup_seq.
    + intros [j v] [j' v'] z Hx Hy. simpl in *.
      destruct (v =? 0); [discriminate|]. destruct (v' =? 0); [discriminate|]. congruence.
Qed.

Lemma NoDup_map_fst_candidates X i p : NoDup (map fst (candidates X i p)).
Proof.
  unfold candidates.
  assert (Hgen : ∀ (l : list (nat * list Q)), NoDup (map fst l) →
            NoDup (map fst (omap (fun jq : nat * list Q =>
                                    if (jq.1 =? i)%nat then None
                                    else Some (jq.1, sqdist p jq.2)) l))).
  { induction l as [|[j q] l IH]; simpl; intros Hnd; [constructor|].
    apply NoDup_cons in Hnd as [Hj Hnd].
    change (list_omap _ _ ?g l) with (omap g l).
    destruct (j =? i)%nat; [apply IH, Hnd|]. simpl. apply NoDup_cons.
    split; [|apply IH, Hnd]. intros Hin. apply Hj.
    apply list_elem_of_In, in_map_iff in Hin as ([j' d] & Hj' & Hin). simpl in Hj'. subst j'.
    apply list_elem_of_In, list_elem_of_omap in Hin as ([j2 q2] & Hin & Hf). simpl in Hf.
    destruct (j2 =? i)%nat; [discriminate|]. injection Hf as <- _.
    apply list_elem_of_In, in_map_iff. exists (j2, q2). split; [reflexivity|].
    apply list_elem_of_In, Hin. }
  apply Hgen. rewrite map_fst_imap_pair. apply NoDup_seq.
Qed.

Lemma NoDup_sparse_nonzero X n_neighbors adj :
  kneighbors_graph X n_neighbors = Ok adj → NoDup (sparse_nonzero adj).
Proof.
  intros Hadj. unfold sparse_nonzero. apply NoDup_concat_tagged.
  - intros i row e He. apply list_elem_of_omap in He as ([j d] & _ & Hf). simpl in Hf.
    destruct (Qeq_bool d 0); [discriminate|]. injection Hf as <-. reflexivity.
  - intros i row Hrow. apply (NoDup_omap_fst _ fst).
    + apply list_elem_of_lookup in Hrow as (i' & Hrow).
      destruct (kneighbors_graph_row _ _ _ _ _ Hadj Hrow) as (p & _ & ->).
      change (map ?f ?l) with (f <$> l). rewrite fmap_take.
      apply (sublist_NoDup _ (fst <$> merge_sort nearer (candidates X i' p)));
        [|apply sublist_take].
      rewrite (merge_sort_Permutation nearer). apply NoDup_map_fst_candidates.
    + intros [j d] [j' d'] z Hx Hy. simpl in *.
      destruct (Qeq_bool d 0); [discriminate|].
      destruct (Qeq_bool d' 0); [discriminate|]. congruence.
Qed.

(** X25 — no parallel edges.  A graph returned by either builder has every
    edge once: the edge list of the region-adjacency builder comes from the
    non-zero entries of a matrix, that of the proximity builder from the
    stored entries of a matrix with distinct columns in each row. *)
Theorem built_graph_has_no_parallel_edges :
  (∀ (self : RAGGraphBuilder) instance_map features annotation g,
     process self instance_map features annotation = Ok g → NoDup (edges g)) ∧
  (∀ (self : KNNGraphBuilder) centroids features annotation g,
     process self centroids features annotation = Ok g → NoDup (edges g)).
Proof.
  split.
  - intros self im features ann g Hp.
    destruct (RAG_process_Ok _ _ _ _ _ Hp) as (ksize & adj & _ & _ & _ & _ & -> & _).
    apply NoDup_np_nonzero2.
  - intros self X features ann g Hp.
    destruct (KNN_process_Ok _ _ _ _ _ Hp) as (adj & _ & Hadj & _ & _ & ->).
    pose proof (NoDup_sparse_nonzero _ _ _ Hadj) as Hnd.
    destruct (thresh self); [|exact Hnd].
    apply NoDup_ListNoDup, List.NoDup_filter, NoDup_ListNoDup, Hnd.
Qed.

Lemma built_graph_has_no_parallel_edges_witness :
  ∃ g, process (KNN__init__ 2 None 6 4 None (mkPipelineStep None ""))
         [[0; 0]; [1; 0]; [0; 3]; [10; 10]]%Q [[]; []; []; []] None = Ok g
       ∧ NoDup (edges g).
Proof.
  eexists. split; [vm_compute; reflexivity|].
  apply (proj2 built_graph_has_no_parallel_edges
           (KNN__init__ 2 None 6 4 None (mkPipelineStep None ""))
           [[0; 0]; [1; 0]; [0; 3]; [10; 10]]%Q [[]; []; []; []] None).
  vm_compute. reflexivity.
Defined.

(** The first position of the maximum is what [np.argmax] returns. *)
Lemma np_argmax_first_max l m v :
  l !! m = Some v →
  (∀ j v', l !! j = Some v' → v' ≤ v) →
  (∀ j v', (j < m)%nat → l !! j = Some v' → v' < v) →
  np_argmax l = Ok m.
Proof.
  intros Hm Hmax Hfirst.
  destruct (np_argmax l) as [m'|e] eqn:Ha.
  - f_equal. destruct (np_argmax_spec _ _ Ha) as (v' & Hm' & Hmax' & Hfirst').
    destruct (Nat.lt_trichotomy m' m) as [Hlt|[->|Hgt]]; [|reflexivity|].
    + pose proof (Hfirst _ _ Hlt Hm'). pose proof (Hmax' _ _ Hm). lia.
    + pose proof (Hfirst' _ _ Hgt Hm). pose proof (Hmax _ _ Hm'). lia.
  - destruct l; [destruct m; discriminate | discriminate].
Qed.

Lemma fast_histogram_lookup values nr_values (i : nat) :
  (Z.of_nat i < nr_values) →
  fast_histogram values nr_values !! i
  = Some (Z.of_nat (length (List.filter (fun v => v =? Z.of_nat i) values))).
Proof.
  intros Hi. unfold fast_histogram.
  apply (lookup_tabulate
           (fun i => Z.of_nat (length (List.filter (fun v => v =? Z.of_nat i) values)))).
  lia.
Qed.

(** X26 — what background suppression changes.  When the earlier builder of
    [experiments/histo-seg], which takes the first most frequent class,
    labels a region with a class [a] that is not the background class and
    that some pixel of the region carries, the builder with background
    suppression gives the region the same label. *)
Theorem background_suppression_keeps_foreground_label (self : BaseGraphBuilder)
    (instance_map annotation : list (list Z)) (region_label a : Z) :
  0 ≤ background_class self < nr_classes self →
  hseg_region_assignment (nr_classes self) instance_map annotation region_label = Ok a →
  a ≠ background_class self →
  a ∈ mask_select annotation (np_eq_scalar instance_map region_label) →
  region_assignment self instance_map annotation region_label = Ok a.
Proof.
  intros Hbg Hh Hne Hin. unfold hseg_region_assignment in Hh. inv_bind Hh.
  rename a0 into pixels. rename a1 into m. injection Hh as <-.
  unfold region_assignment. rewrite Hstep. simpl.
  unfold np_bool_index in Hstep. case_decide; [|discriminate]. injection Hstep as <-.
  set (pixels := mask_select annotation (np_eq_scalar instance_map region_label)) in *.
  set (hist := fast_histogram pixels (nr_classes self)) in *.
  destruct (np_argmax_spec _ _ Hstep0) as (v & Hm & Hmax & Hfirst).
  assert (Hlen : length hist = Z.to_nat (nr_classes self)) by apply length_fast_histogram.
  assert (Hmlt : Z.of_nat m < nr_classes self).
  { apply lookup_lt_Some in Hm. lia. }
  assert (Hv : 0 < v).
  { unfold hist in Hm. rewrite fast_histogram_lookup in Hm by exact Hmlt.
    injection Hm as <-.
    assert (Z.of_nat m ∈ List.filter (fun w => w =? Z.of_nat m) pixels) as Hf.
    { apply elem_of_List_filter. split; [exact Hin | apply Z.eqb_refl]. }
    destruct (List.filter _ pixels); [inversion Hf | simpl; lia]. }
  set (b := Z.to_nat (background_class self)).
  assert (Hmb : m ≠ b) by (unfold b; lia).
  unfold label_of_histogram, np_set.
  rewrite length_replicate, np_index_in_range by lia. simpl. fold b.
  rewrite select_row_delete.
  assert (Hsum : np_sum (delete b hist) ≠ 0).
  { assert (∀ l, Forall (fun c => 0 ≤ c) l → ∀ j w, l !! j = Some w → 0 < w → np_sum l ≠ 0)
      as Hpos.
    { induction 1 as [|x l Hx Hl IH]; intros j w Hj Hw; [destruct j; discriminate|].
      simpl. assert (0 ≤ np_sum l).
      { clear IH Hj. induction Hl as [|y l Hy Hl IH]; simpl; [lia|]. lia. }
      destruct j as [|j]; simpl in Hj; [injection Hj as ->; lia|].
      specialize (IH _ _ Hj Hw). lia. }
    destruct (decide (m < b)%nat) as [Hlt|Hge].
    - apply (Hpos _ ltac:(apply Forall_delete, fast_histogram_nonneg) m v); [|exact Hv].
      rewrite list_lookup_delete_lt by exact Hlt. exact Hm.
    - apply (Hpos _ ltac:(apply Forall_delete, fast_histogram_nonneg) (m - 1)%nat v);
        [|exact Hv].
      rewrite list_lookup_delete_ge by lia. replace (S (m - 1)) with m by lia. exact Hm. }
  apply Z.eqb_neq in Hsum. rewrite Hsum.
  rewrite (np_argmax_first_max (<[b := 0]> hist) m v); [reflexivity | | |].
  - rewrite list_lookup_insert_ne by congruence. exact Hm.
  - intros j v' Hj. apply list_lookup_insert_Some in Hj as [(_ & <- & _)|[_ Hj]]; [lia|].
    eapply Hmax, Hj.
  - intros j v' Hlt Hj. apply list_lookup_insert_Some in Hj as [(_ & <- & _)|[_ Hj]]; [lia|].
    eapply Hfirst; eassumption.
Qed.

Lemma background_suppression_keeps_foreground_label_witness :
  region_assignment (Base__init__ 6 4 None (mkPipelineStep None ""))
    [[1; 1; 1]; [1; 1; 2]] [[4; 2; 2]; [4; 3; 0]] 1 = Ok 2.
Proof.
  apply (background_suppression_keeps_foreground_label
           (Base__init__ 6 4 None (mkPipelineStep None ""))
           [[1; 1; 1]; [1; 1; 2]] [[4; 2; 2]; [4; 3; 0]] 1 2).
  - simpl. lia.
  - vm_compute. reflexivity.
  - discriminate.
  - apply list_elem_of_In. vm_compute. tauto.
Defined.

(** ** The region-adjacency builder and the size of the kernel *)

Lemma kernel_offsets_mono ksize ksize' d :
  (ksize ≤ ksize')%nat → d ∈ kernel_offsets ksize → d ∈ kernel_offsets ksize'.
Proof.
  intros Hle. rewrite !elem_of_kernel_offsets.
  pose proof (Nat.div_mod_eq ksize 2) as H1.
  pose proof (Nat.div_mod_eq ksize' 2) as H2.
  pose proof (Nat.mod_upper_bound ksize 2 ltac:(lia)) as H3.
  pose proof (Nat.mod_upper_bound ksize' 2 ltac:(lia)) as H4.
  lia.
Qed.

Lemma touches_mono im ksize ksize' a b :
  (ksize ≤ ksize')%nat → touches im ksize a b → touches im ksize' a b.
Proof.
  intros Hle (y & x & dy & dx & Hdy & Hdx & Hb & Ha).
  exists y, x, dy, dx.
  split; [eapply kernel_offsets_mono; eassumption|].
  split; [eapply kernel_offsets_mono; eassumption|]. auto.
Qed.

(** X27 — a larger kernel never removes an edge.  For two builders with
    kernel sizes [1 <= kernel_size <= kernel_size'] and the same map
    (without negative ids) and features, every edge of the graph returned
    with the smaller kernel is an edge of the graph returned with the larger
    one. *)
Theorem RAG_larger_kernel_keeps_edges (self self' : RAGGraphBuilder)
    (instance_map : list (list Z)) (features : list (list Q))
    (annotation annotation' : option (list (list Z))) (g g' : DGLGraph) (e : nat * nat) :
  1 ≤ kernel_size self ≤ kernel_size self' →
  (∀ v, v ∈ np_ravel instance_map → 0 ≤ v) →
  process self instance_map features annotation = Ok g →
  process self' instance_map features annotation' = Ok g' →
  e ∈ edges g → e ∈ edges g'.
Proof.
  intros Hks Hnonneg Hp Hp' Hin. destruct e as [i j].
  destruct (RAG_process_edges_nonneg _ _ _ _ _ Hnonneg Hp) as (ksize & Hk & _ & Hedges).
  destruct (RAG_process_edges_nonneg _ _ _ _ _ Hnonneg Hp') as (ksize' & Hk' & _ & Hedges').
  destruct (proj1 (Hedges i j) Hin) as (r & c & Hr & Hne & Ht & -> & ->).
  apply Hedges'. exists r, c. split; [exact Hr|]. split; [exact Hne|].
  split; [|split; reflexivity].
  apply (touches_mono _ ksize); [|exact Ht].
  unfold np_ones_kernel in Hk, Hk'.
  repeat case_decide; try lia; injection Hk as <-; injection Hk' as <-; lia.
Qed.

Lemma RAG_larger_kernel_keeps_edges_witness :
  ∃ g g',
    process (mkRAG (Base__init__ 6 4 None (mkPipelineStep None "")) 3 1)
      [[1; 0; 2; 3]] [[]; []; []] None = Ok g ∧
    process (mkRAG (Base__init__ 6 4 None (mkPipelineStep None "")) 5 1)
      [[1; 0; 2; 3]] [[]; []; []] None = Ok g' ∧
    (1, 2)%nat ∈ edges g ∧ (1, 2)%nat ∈ edges g'.
Proof.
  eexists. eexists. split; [vm_compute; reflexivity|]. split; [vm_compute; reflexivity|].
  assert ((1, 2)%nat ∈ [(0, 2); (1, 2); (2, 1)]%nat) as Hin.
  { apply list_elem_of_In. simpl. tauto. }
  split; [exact Hin|].
  apply (RAG_larger_kernel_keeps_edges
           (mkRAG (Base__init__ 6 4 None (mkPipelineStep None "")) 3 1)
           (mkRAG (Base__init__ 6 4 None (mkPipelineStep None "")) 5 1)
           [[1; 0; 2; 3]] [[]; []; []] None None
           (mkGraph 3
              (<[CENTROID := FloatTensor2 [[0; 0]; [2; 0]; [3; 0]]%Q]>
                 {[ FEATURES := FloatTensor2 [[]; []; []] ]})
              [(0, 2); (1, 2); (2, 1)]%nat) _ (1, 2)%nat).
  - simpl. lia.
  - intros v Hv. apply list_elem_of_In in Hv. simpl in Hv. lia.
  - vm_compute. reflexivity.
  - vm_compute. reflexivity.
  - exact Hin.
Defined.

(** X28 — a kernel of size one joins nothing.  With [kernel_size = 1] the
    dilation of a mask is the mask itself, every ring is empty, and the graph
    returned for a map without negative ids has no edge. *)
Theorem RAG_kernel_size_one_no_edges (self : RAGGraphBuilder)
    (instance_map : list (list Z)) (features : list (list Q))
    (annotation : option (list (list Z))) (g : DGLGraph) :
  kernel_size self = 1 →
  (∀ v, v ∈ np_ravel instance_map → 0 ≤ v) →
  process self instance_map features annotation = Ok g →
  edges g = [].
Proof.
  intros Hks Hnonneg Hp.
  destruct (RAG_process_edges_nonneg _ _ _ _ _ Hnonneg Hp) as (ksize & Hk & _ & Hedges).
  rewrite Hks in Hk. injection Hk as <-.
  destruct (edges g) as [|[i j] es]; [reflexivity|]. exfalso.
  destruct (proj1 (Hedges i j) ltac:(left))
    as (r & c & _ & Hne & (y & x & dy & dx & Hdy & Hdx & Hc & Hr) & _).
  apply elem_of_kernel_offsets in Hdy, Hdx. simpl in Hdy, Hdx.
  assert (dy = 0) as -> by lia. assert (dx = 0) as -> by lia.
  rewrite !Z.add_0_r in Hr. congruence.
Qed.

Lemma RAG_kernel_size_one_no_edges_witness :
  ∃ g, process (mkRAG (Base__init__ 6 4 None (mkPipelineStep None "")) 1 1)
         [[1; 2]; [0; 2]] [[]; []] None = Ok g ∧ edges g = [].
Proof.
  eexists. split; [vm_compute; reflexivity|].
  apply (RAG_kernel_size_one_no_edges
           (mkRAG (Base__init__ 6 4 None (mkPipelineStep None "")) 1 1)
           [[1; 2]; [0; 2]] [[]; []] None).
  - reflexivity.
  - intros v Hv. apply list_elem_of_In in Hv. simpl in Hv. lia.
  - vm_compute. reflexivity.
Defined.
